(** * vader-data-stream: the bucketed time-series store, its query API,
      the object loader and the ingestion coordinator

    A shallow embedding of
      - [src/store/TimeSeriesStore.ts]   (module [Store] below),
      - [src/consumer/DataConsumer.ts]   (module [Consumer]),
      - [src/ingestion/S3Ingester.ts]    (modules [Loader] and [Ingester]),
    followed by the properties of the specification, stated on that model.

    Conventions.
      - Timestamps held by the store are integer milliseconds and are
        modelled by [Z]; [Math.floor (t / 60000)] is [Z.div], which rounds
        towards minus infinity like [Math.floor].
      - Array indices are [nat]; the one index that may be [-1]
        ([findIndexAtTime]) is a [Z].
      - [Map<number, TradeEntry[]>] is a [gmap Z (list TradeEntry)].  The
        arrays are mutated in place by the source; here every mutation writes
        the new array back under its key.
      - The event emitter is modelled by the list of registered callbacks,
        by what each callback does when it is invoked on an event (it
        returns, or it throws an error with a message) and by the trace of
        the invocations performed so far.  [emit] calls the listeners in
        registration order and an exception of a listener leaves [emit],
        and the method that called it, at once.  A callback does not call
        back into the store.
      - A mutator that throws has changed the store before it throws: each
        mutator is modelled by the store once the call is over, and by a
        second function that tells whether the call ended by an exception. *)

From Stdlib Require Import ZArith List String QArith Lia Bool.
From stdpp Require Import base gmap list strings.

Local Open Scope Z_scope.

(* ===================================================================== *)
(** * Data model ([types.ts])                                             *)
(* ===================================================================== *)

Inductive Side : Type := buy | sell.

Definition Side_eqb (a b : Side) : bool :=
  match a, b with
  | buy, buy | sell, sell => true
  | _, _ => false
  end.

Record TradeEntry : Type := mkEntry {
  timestamp : Z;
  price : Q;
  size : Q;
  side : Side;
  source : string
}.

(** [TimeRangeQueryOptions]: the three optional members are [option]s. *)
Record TimeRangeQueryOptions : Type := mkRange {
  start : Z;
  end_ : Z;
  q_source : option string;
  q_side : option Side;
  limit : option Z
}.

(** A registered listener; the callbacks themselves are opaque. *)
Definition Callback : Type := nat.

(** One invocation of a listener by [emit]. *)
Inductive Delivery : Type :=
| EntryEvent (cb : Callback) (e : TradeEntry)
| BatchEvent (cb : Callback) (es : list TradeEntry).

(** A JavaScript [number], as [JSON.parse] can produce it or as a caller can
    pass it: a finite value drawn from [F], one of the two infinities, or
    [NaN]. *)
Inductive number (F : Type) : Type :=
| Finite (x : F)
| PosInfinity
| NegInfinity
| NaN.
Arguments Finite {F} x.
Arguments PosInfinity {F}.
Arguments NegInfinity {F}.
Arguments NaN {F}.

(** [isNaN(x)] for [x] of type number. *)
Definition isNaN {F : Type} (x : number F) : bool :=
  match x with
  | NaN => true
  | _ => false
  end.

(** The outcome of a call that may throw: what it returns, or the [message]
    of the error it throws. *)
Inductive result (A : Type) : Type :=
| Ok (a : A)
| Threw (msg : string).
Arguments Ok {A} a.
Arguments Threw {A} msg.

(* ===================================================================== *)
(** * The store ([TimeSeriesStore.ts])                                    *)
(* ===================================================================== *)

Module Store.

Definition BUCKET_SIZE_MS : Z := 60000.

Record t : Type := mkStore {
  buckets : gmap Z (list TradeEntry);
  totalCount : nat;
  minTimestamp : option Z;
  maxTimestamp : option Z;
  entryListeners : list Callback;
  batchListeners : list Callback;
  delivered : list Delivery;
  invoke : Delivery -> option string
}.

(** [new TimeSeriesStore()], in a world where the callbacks behave as
    [behaviour] says: invoking a callback on an event returns ([None]) or
    throws an error with a message ([Some msg]). *)
Definition new (behaviour : Delivery -> option string) : t :=
  mkStore ∅ 0 None None [] [] [] behaviour.

(** A new store in a world where no callback throws. *)
Definition empty : t :=
  mkStore ∅ 0 None None [] [] [] (fun _ => None).

Definition getBucketKey (ts : Z) : Z := ts / BUCKET_SIZE_MS.

(** The loop shared, text for text, by [findInsertIndex] and
    [findFirstAtOrAfter]:
    [while (low < high) { mid = floor((low+high)/2); ... }].
    Each turn shrinks [high - low], so [high - low] turns are enough; when the
    fuel is used up the loop condition is false and [low] is what the source
    returns.  [bucket[mid]] is always in range ([mid < high <= length]). *)
Fixpoint bisect (fuel : nat) (bucket : list TradeEntry) (ts : Z)
    (low high : nat) : nat :=
  match fuel with
  | O => low
  | S fuel' =>
      if (low <? high)%nat then
        let mid := ((low + high) / 2)%nat in
        match bucket !! mid with
        | Some x =>
            if timestamp x <? ts
            then bisect fuel' bucket ts (mid + 1)%nat high
            else bisect fuel' bucket ts low mid
        | None => low
        end
      else low
  end.

Definition findInsertIndex (bucket : list TradeEntry) (entry : TradeEntry) : nat :=
  bisect (length bucket) bucket (timestamp entry) 0%nat (length bucket).

Definition findFirstAtOrAfter (bucket : list TradeEntry) (ts : Z) : nat :=
  bisect (length bucket) bucket ts 0%nat (length bucket).

(** [findIndexAtTime]: [low] and [high] are integers because
    [high = bucket.length - 1] is [-1] on an empty array; the result is an
    index or [-1]. *)
Fixpoint findIndexAtTime_loop (fuel : nat) (bucket : list TradeEntry) (ts : Z)
    (low high : Z) : Z :=
  match fuel with
  | O => -1
  | S fuel' =>
      if low <=? high then
        let mid := (low + high) / 2 in
        match bucket !! Z.to_nat mid with
        | Some x =>
            if timestamp x =? ts then mid
            else if timestamp x <? ts
                 then findIndexAtTime_loop fuel' bucket ts (mid + 1) high
                 else findIndexAtTime_loop fuel' bucket ts low (mid - 1)
        | None => -1
        end
      else -1
  end.

Definition findIndexAtTime (bucket : list TradeEntry) (ts : Z) : Z :=
  findIndexAtTime_loop (length bucket) bucket ts 0 (Z.of_nat (length bucket) - 1).

(** [bucket.splice(i, 0, e)] for [i <= bucket.length]. *)
Definition splice (i : nat) (e : TradeEntry) (bucket : list TradeEntry)
    : list TradeEntry :=
  take i bucket ++ e :: drop i bucket.

Definition update_min (m : option Z) (ts : Z) : option Z :=
  match m with
  | None => Some ts
  | Some m0 => if ts <? m0 then Some ts else Some m0
  end.

Definition update_max (m : option Z) (ts : Z) : option Z :=
  match m with
  | None => Some ts
  | Some m0 => if ts >? m0 then Some ts else Some m0
  end.

(** [EventEmitter.emit]: the listeners are invoked in registration order; an
    exception thrown by one of them leaves [emit] at once, so that the later
    listeners are not invoked.  The result is the invocations made and the
    message of the exception, if any. *)
Fixpoint emit (behaviour : Delivery -> option string) (calls : list Delivery)
    : list Delivery * option string :=
  match calls with
  | [] => ([], None)
  | call :: rest =>
      match behaviour call with
      | Some msg => ([call], Some msg)
      | None =>
          let (made, thrown) := emit behaviour rest in (call :: made, thrown)
      end
  end.

(** [this.emit('entry', entry)] *)
Definition emit_entry (s : t) (e : TradeEntry) : list Delivery * option string :=
  emit (invoke s) (map (fun cb => EntryEvent cb e) (entryListeners s)).

(** [this.emit('batch', sorted)] *)
Definition emit_batch (s : t) (es : list TradeEntry)
    : list Delivery * option string :=
  emit (invoke s) (map (fun cb => BatchEvent cb es) (batchListeners s)).

(** [let bucket = this.buckets.get(k); if (!bucket) { bucket = []; set }]. *)
Definition bucket_or_new (bs : gmap Z (list TradeEntry)) (k : Z)
    : list TradeEntry :=
  match bs !! k with
  | Some b => b
  | None => []
  end.

Definition insert (entry : TradeEntry) (s : t) : t :=
  let bucketKey := getBucketKey (timestamp entry) in
  let bucket := bucket_or_new (buckets s) bucketKey in
  let insertIndex := findInsertIndex bucket entry in
  let bucket' := splice insertIndex entry bucket in
  mkStore (<[bucketKey := bucket']> (buckets s))
          (S (totalCount s))
          (update_min (minTimestamp s) (timestamp entry))
          (update_max (maxTimestamp s) (timestamp entry))
          (entryListeners s)
          (batchListeners s)
          (delivered s ++ fst (emit_entry s entry))
          (invoke s).

(** The exception with which [insert] ends, if any: the one that leaves
    [this.emit] on its last line, the store being changed already. *)
Definition insert_throws (entry : TradeEntry) (s : t) : option string :=
  snd (emit_entry s entry).

(** [[...entries].sort((a, b) => a.timestamp - b.timestamp)].
    [Array.prototype.sort] is stable, and the stable sort of a list under a
    total preorder is unique; it is computed here by insertion. *)
Fixpoint sort_insert (e : TradeEntry) (l : list TradeEntry) : list TradeEntry :=
  match l with
  | [] => [e]
  | x :: l' =>
      if timestamp x <? timestamp e
      then x :: sort_insert e l'
      else e :: x :: l'
  end.

Fixpoint sort_by_timestamp (l : list TradeEntry) : list TradeEntry :=
  match l with
  | [] => []
  | e :: l' => sort_insert e (sort_by_timestamp l')
  end.

(** The body of the [for (const entry of sorted)] loop of [insertBatch],
    on the four fields it touches. *)
Definition push_entry (entry : TradeEntry) (s : t) : t :=
  let bucketKey := getBucketKey (timestamp entry) in
  let bucket := bucket_or_new (buckets s) bucketKey in
  mkStore (<[bucketKey := bucket ++ [entry]]> (buckets s))
          (S (totalCount s))
          (update_min (minTimestamp s) (timestamp entry))
          (update_max (maxTimestamp s) (timestamp entry))
          (entryListeners s)
          (batchListeners s)
          (delivered s)
          (invoke s).

Definition insertBatch (entries : list TradeEntry) (s : t) : t :=
  let sorted := sort_by_timestamp entries in
  let s' := fold_left (fun acc e => push_entry e acc) sorted s in
  mkStore (buckets s') (totalCount s') (minTimestamp s') (maxTimestamp s')
          (entryListeners s') (batchListeners s')
          (delivered s' ++ fst (emit_batch s' sorted))
          (invoke s').

(** The exception with which [insertBatch] ends, if any: the one that leaves
    [this.emit] on its last line, every entry being stored already. *)
Definition insertBatch_throws (entries : list TradeEntry) (s : t) : option string :=
  let sorted := sort_by_timestamp entries in
  let s' := fold_left (fun acc e => push_entry e acc) sorted s in
  snd (emit_batch s' sorted).

Definition clear (s : t) : t :=
  mkStore ∅ 0 None None (entryListeners s) (batchListeners s) (delivered s)
          (invoke s).

Definition subscribe (cb : Callback) (s : t) : t :=
  mkStore (buckets s) (totalCount s) (minTimestamp s) (maxTimestamp s)
          (entryListeners s ++ [cb]) (batchListeners s) (delivered s)
          (invoke s).

Definition subscribeBatch (cb : Callback) (s : t) : t :=
  mkStore (buckets s) (totalCount s) (minTimestamp s) (maxTimestamp s)
          (entryListeners s) (batchListeners s ++ [cb]) (delivered s)
          (invoke s).

(** ** Range query *)

(** [if (source && entry.source !== source) continue;] -- an empty string is
    falsy, so an empty [source] filters nothing. *)
Definition source_mismatch (o : TimeRangeQueryOptions) (entry : TradeEntry) : bool :=
  match q_source o with
  | Some src => negb (String.eqb src "") && negb (String.eqb (source entry) src)
  | None => false
  end.

(** [if (side && entry.side !== side) continue;] *)
Definition side_mismatch (o : TimeRangeQueryOptions) (entry : TradeEntry) : bool :=
  match q_side o with
  | Some sd => negb (Side_eqb (side entry) sd)
  | None => false
  end.

(** [limit && results.length >= limit] -- a limit of [0] is falsy. *)
Definition limit_reached (o : TimeRangeQueryOptions) (results : list TradeEntry) : bool :=
  match limit o with
  | Some n => negb (n =? 0) && (Z.of_nat (length results) >=? n)
  | None => false
  end.

(** How a loop body hands over: the loop goes on (or is left by [break])
    with the results so far, or the function returns. *)
Inductive flow : Type :=
| Continue (results : list TradeEntry)
| Return (results : list TradeEntry).

(** The inner loop [for (let i = startIndex; i < bucket.length; i++)], over
    the entries from [startIndex] on. *)
Fixpoint scan_entries (o : TimeRangeQueryOptions) (es : list TradeEntry)
    (results : list TradeEntry) : flow :=
  match es with
  | [] => Continue results
  | entry :: rest =>
      if timestamp entry >=? end_ o then Continue results
      else if source_mismatch o entry then scan_entries o rest results
      else if side_mismatch o entry then scan_entries o rest results
      else
        let results' := results ++ [entry] in
        if limit_reached o results' then Return results'
        else scan_entries o rest results'
  end.

(** The outer loop over [bucketKey = startBucket .. endBucket]. *)
Fixpoint scan_buckets (o : TimeRangeQueryOptions) (bs : gmap Z (list TradeEntry))
    (startBucket : Z) (keys : list Z) (results : list TradeEntry)
    : list TradeEntry :=
  match keys with
  | [] => results
  | bucketKey :: keys' =>
      match bs !! bucketKey with
      | None => scan_buckets o bs startBucket keys' results
      | Some bucket =>
          let startIndex :=
            if bucketKey =? startBucket
            then findFirstAtOrAfter bucket (start o)
            else 0%nat in
          match scan_entries o (drop startIndex bucket) results with
          | Return r => r
          | Continue r => scan_buckets o bs startBucket keys' r
          end
      end
  end.

Definition getByTimeRange (o : TimeRangeQueryOptions) (s : t) : list TradeEntry :=
  let startBucket := getBucketKey (start o) in
  let endBucket := getBucketKey (end_ o - 1) in
  scan_buckets o (buckets s) startBucket
    (seqZ startBucket (endBucket - startBucket + 1)) [].

(** ** Point query *)

(** [for (i = startIndex; i < bucket.length && bucket[i].timestamp === ts; i++)] *)
Fixpoint collect_at (ts : Z) (es : list TradeEntry) : list TradeEntry :=
  match es with
  | [] => []
  | e :: rest => if timestamp e =? ts then e :: collect_at ts rest else []
  end.

Definition getAtTime (ts : Z) (s : t) : list TradeEntry :=
  match buckets s !! getBucketKey ts with
  | None => []
  | Some bucket =>
      let startIndex := findIndexAtTime bucket ts in
      if startIndex =? -1 then []
      else collect_at ts (drop (Z.to_nat startIndex) bucket)
  end.

(** ** Nearest query *)

(** [dist < minDistance], where [minDistance] starts as [Infinity] ([None]). *)
Definition dist_lt (dist : Z) (minDistance : option Z) : bool :=
  match minDistance with
  | None => true
  | Some m => dist <? m
  end.

(** [index < bucket.length ? bucket[index] : null] *)
Definition entry_at_or_after (bucket : list TradeEntry) (index : nat)
    : option TradeEntry :=
  if (index <? length bucket)%nat then bucket !! index else None.

(** [index > 0 ? bucket[index - 1] : null] *)
Definition entry_before (bucket : list TradeEntry) (index : nat)
    : option TradeEntry :=
  if (0 <? index)%nat then bucket !! (index - 1)%nat else None.

(** The first part of [getNearest]: the search inside the bucket of [ts]. *)
Definition nearest_in_bucket (bucket : list TradeEntry) (ts tolerance : Z)
    : option TradeEntry :=
  let index := findFirstAtOrAfter bucket ts in
  let afterEntry := entry_at_or_after bucket index in
  let beforeEntry := entry_before bucket index in
  let st0 : option TradeEntry * option Z := (None, None) in
  let st1 :=
    match afterEntry with
    | Some a =>
        if Z.abs (timestamp a - ts) <=? tolerance then
          let dist := Z.abs (timestamp a - ts) in
          if dist_lt dist (snd st0) then (Some a, Some dist) else st0
        else st0
    | None => st0
    end in
  match beforeEntry with
  | Some b =>
      if Z.abs (timestamp b - ts) <=? tolerance then
        let dist := Z.abs (timestamp b - ts) in
        if dist_lt dist (snd st1) then Some b else fst st1
      else fst st1
  | None => fst st1
  end.

(** The body of [for (const candidate of candidates)]. *)
Definition consider (ts tolerance : Z) (st : option TradeEntry * option Z)
    (candidate : option TradeEntry) : option TradeEntry * option Z :=
  match candidate with
  | None => st
  | Some c =>
      let distance := Z.abs (timestamp c - ts) in
      if (distance <=? tolerance) && dist_lt distance (snd st)
      then (Some c, Some distance)
      else st
  end.

(** The body of [for (const adjBucket of checkBuckets)]. *)
Definition consider_bucket (ts tolerance : Z) (st : option TradeEntry * option Z)
    (adjBucket : option (list TradeEntry)) : option TradeEntry * option Z :=
  match adjBucket with
  | None => st
  | Some adj =>
      if (length adj =? 0)%nat then st
      else
        let index := findFirstAtOrAfter adj ts in
        let candidates := [entry_at_or_after adj index; entry_before adj index] in
        fold_left (consider ts tolerance) candidates st
  end.

Definition getNearest (ts tolerance : Z) (s : t) : option TradeEntry :=
  let bucketKey := getBucketKey ts in
  let found :=
    match buckets s !! bucketKey with
    | Some bucket =>
        if (0 <? length bucket)%nat
        then nearest_in_bucket bucket ts tolerance
        else None
    | None => None
    end in
  match found with
  | Some e => Some e
  | None =>
      let checkBuckets :=
        [buckets s !! (bucketKey - 1); buckets s !! (bucketKey + 1)] in
      fst (fold_left (consider_bucket ts tolerance) checkBuckets (None, None))
  end.

(** The default of the [tolerance] parameter. *)
Definition DEFAULT_TOLERANCE : Z := 60000.

(** ** Statistics *)

Definition totalEntries (s : t) : nat := totalCount s.
Definition bucketCount (s : t) : nat := base.size (buckets s).

(** The stores a caller can build: the public mutators, from the empty
    store. *)
Inductive reachable : t -> Prop :=
| reach_empty : reachable empty
| reach_insert e s : reachable s -> reachable (insert e s)
| reach_insertBatch es s : reachable s -> reachable (insertBatch es s)
| reach_clear s : reachable s -> reachable (clear s)
| reach_subscribe cb s : reachable s -> reachable (subscribe cb s)
| reach_subscribeBatch cb s : reachable s -> reachable (subscribeBatch cb s)
| reach_new behaviour : reachable (new behaviour).

(** The same, without [insertBatch]. *)
Inductive reachable_by_insert : t -> Prop :=
| ri_empty : reachable_by_insert empty
| ri_insert e s : reachable_by_insert s -> reachable_by_insert (insert e s)
| ri_clear s : reachable_by_insert s -> reachable_by_insert (clear s)
| ri_subscribe cb s : reachable_by_insert s -> reachable_by_insert (subscribe cb s)
| ri_subscribeBatch cb s :
    reachable_by_insert s -> reachable_by_insert (subscribeBatch cb s)
| ri_new behaviour : reachable_by_insert (new behaviour).

(** [insert] called on each element of [S] in turn, from the empty store. *)
Definition inserts (S : list TradeEntry) : t :=
  fold_left (fun acc e => insert e acc) S empty.

(** [insert] called on each element of [S] in turn, from any store. *)
Definition insert_all (S : list TradeEntry) (s : t) : t :=
  fold_left (fun acc e => insert e acc) S s.

(** The closures returned by [subscribe] and [subscribeBatch]:
    [this.off(event, callback)] removes one instance of the listener, the
    most recently added one, and does nothing when there is none. *)
Fixpoint remove_last (cb : Callback) (l : list Callback) : list Callback :=
  match l with
  | [] => []
  | x :: l' =>
      if existsb (Nat.eqb cb) l' then x :: remove_last cb l'
      else if Nat.eqb cb x then l'
      else x :: l'
  end.

Definition unsubscribe (cb : Callback) (s : t) : t :=
  mkStore (buckets s) (totalCount s) (minTimestamp s) (maxTimestamp s)
          (remove_last cb (entryListeners s)) (batchListeners s) (delivered s)
          (invoke s).

Definition unsubscribeBatch (cb : Callback) (s : t) : t :=
  mkStore (buckets s) (totalCount s) (minTimestamp s) (maxTimestamp s)
          (entryListeners s) (remove_last cb (batchListeners s)) (delivered s)
          (invoke s).

(** The remaining members of [getStats], and the two getters. *)
Definition earliestTimestamp (s : t) : option Z := minTimestamp s.
Definition latestTimestamp (s : t) : option Z := maxTimestamp s.
Definition estimatedMemoryBytes (s : t) : nat := (totalCount s * 100)%nat.
Definition isEmpty (s : t) : bool := (totalCount s =? 0)%nat.

End Store.

(* ===================================================================== *)
(** * The object loader ([S3Ingester.loadFile])                           *)
(* ===================================================================== *)

Module Loader.

(** A value produced by [JSON.parse].  A number literal too large for a
    double parses to an infinity ([JSON.parse("1e999")] is [Infinity]); [NaN]
    has no JSON spelling but the type of members is [number] all the same. *)
#[warnings="-register-all"]
Inductive JSON : Type :=
| JNull
| JBool (b : bool)
| JNum (n : number Q)
| JStr (s : string)
| JArr (items : list JSON)
| JObj (members : gmap string JSON).

(** What [s3Client.send(GetObject)] and [JSON.parse] hand to [loadFile]. *)
Inductive Payload : Type :=
| GetFailed (msg : string)
| NoBody
| Unparsable (msg : string)
| Parsed (data : JSON).

(** [entry.field]: reading a property of [null] throws a [TypeError], whose
    message under Node names the property; an object yields its own member,
    if any; a boolean, number, string or array has none of the five names
    read here. *)
Definition prop (entry : JSON) (field : string) : result (option JSON) :=
  match entry with
  | JNull =>
      Threw ("Cannot read properties of null (reading '" +:+ field +:+ "')")
  | JObj members => Ok (members !! field)
  | _ => Ok None
  end.

(** [typeof v === 'number'] *)
Definition is_number (v : option JSON) : bool :=
  match v with
  | Some (JNum _) => true
  | _ => false
  end.

(** [typeof v === 'string'] *)
Definition is_string (v : option JSON) : bool :=
  match v with
  | Some (JStr _) => true
  | _ => false
  end.

(** [v === 'buy' || v === 'sell'] *)
Definition is_side (v : option JSON) : bool :=
  match v with
  | Some (JStr s) => String.eqb s "buy" || String.eqb s "sell"
  | _ => false
  end.

(** The callback given to [entries.filter].  The first property read decides
    whether it throws; [&&] evaluates left to right. *)
Definition validate (entry : JSON) : result bool :=
  match prop entry "timestamp" with
  | Threw m => Threw m
  | Ok ts =>
      match prop entry "price", prop entry "size",
            prop entry "side", prop entry "source" with
      | Ok pr, Ok sz, Ok sd, Ok src =>
          Ok (is_number ts && is_number pr && is_number sz
              && is_side sd && is_string src)
      | Threw m, _, _, _ | _, Threw m, _, _
      | _, _, Threw m, _ | _, _, _, Threw m => Threw m
      end
  end.

(** [entries.filter(cb)]: the callback runs on each element in order and an
    exception leaves the filter at once. *)
Fixpoint filter_entries (entries : list JSON) : result (list JSON) :=
  match entries with
  | [] => Ok []
  | entry :: rest =>
      match validate entry with
      | Threw m => Threw m
      | Ok keep =>
          match filter_entries rest with
          | Threw m => Threw m
          | Ok kept => Ok (if keep then entry :: kept else kept)
          end
      end
  end.

(** [Array.isArray(data) ? data : [data]] *)
Definition candidates (data : JSON) : list JSON :=
  match data with
  | JArr items => items
  | _ => [data]
  end.

Definition loadFile (key : string) (payload : Payload) : result (list JSON) :=
  match payload with
  | GetFailed msg => Threw msg
  | NoBody => Threw ("No body in response for " +:+ key)
  | Unparsable msg => Threw msg
  | Parsed data => filter_entries (candidates data)
  end.

End Loader.

(* ===================================================================== *)
(** * The query API ([DataConsumer.ts])                                   *)
(* ===================================================================== *)

Module Consumer.

(** The optional third argument of [getByTimeRange]. *)
Record RangeFilters : Type := mkFilters {
  f_source : option string;
  f_side : option Side;
  f_limit : option Z
}.

(** [{ start, end, ...options }] *)
Definition spread (start end_ : Z) (options : option RangeFilters)
    : TimeRangeQueryOptions :=
  match options with
  | Some o => mkRange start end_ (f_source o) (f_side o) (f_limit o)
  | None => mkRange start end_ None None None
  end.

Definition getByTimeRange (start end_ : Z) (options : option RangeFilters)
    (s : Store.t) : result (list TradeEntry) :=
  if start >=? end_
  then Threw "Start timestamp must be less than end timestamp"
  else Ok (Store.getByTimeRange (spread start end_ options) s).

(** The point queries reach the store through [this.store.getAtTime] and
    [this.store.getNearest], which take any number; the tolerance is passed
    on as it came, [undefined] when omitted. *)
Section PointQueries.

Variable store_getAtTime : number Z -> list TradeEntry.
Variable store_getNearest : number Z -> option Z -> option TradeEntry.

(** [typeof timestamp !== 'number'] is false for every [number]. *)
Definition getAtTime (timestamp : number Z) : result (list TradeEntry) :=
  if isNaN timestamp
  then Threw "Timestamp must be a valid number"
  else Ok (store_getAtTime timestamp).

Definition getNearest (timestamp : number Z) (tolerance : option Z)
    : result (option TradeEntry) :=
  if isNaN timestamp
  then Threw "Timestamp must be a valid number"
  else Ok (store_getNearest timestamp tolerance).

End PointQueries.

(** The optional second argument of [getAtTimeFiltered]. *)
Record PointFilters : Type := mkPointFilters {
  p_source : option string;
  p_side : option Side
}.

(** [if (filters?.source) entries = entries.filter(...)], then the same for
    [side]; the timestamp goes to [this.store.getAtTime] unchecked. *)
Definition getAtTimeFiltered (store_getAtTime : number Z -> list TradeEntry)
    (timestamp : number Z) (filters : option PointFilters) : list TradeEntry :=
  let entries := store_getAtTime timestamp in
  let entries :=
    match filters with
    | Some f =>
        match p_source f with
        | Some src =>
            if String.eqb src "" then entries
            else List.filter (fun e => String.eqb (source e) src) entries
        | None => entries
        end
    | None => entries
    end in
  match filters with
  | Some f =>
      match p_side f with
      | Some sd => List.filter (fun e => Side_eqb (side e) sd) entries
      | None => entries
      end
  | None => entries
  end.

(** The default of [lookbackMs] and of [lookAheadMs]. *)
Definition DEFAULT_WINDOW : Z := 3600000.

Definition getFirstBefore (timestamp : Z) (lookbackMs : option Z) (s : Store.t)
    : option TradeEntry :=
  let entries :=
    Store.getByTimeRange
      (mkRange (timestamp - default DEFAULT_WINDOW lookbackMs) timestamp
               None None None) s in
  if (length entries =? 0)%nat then None
  else entries !! (length entries - 1)%nat.

Definition getFirstAfter (timestamp : Z) (lookAheadMs : option Z) (s : Store.t)
    : option TradeEntry :=
  let entries :=
    Store.getByTimeRange
      (mkRange (timestamp + 1) (timestamp + default DEFAULT_WINDOW lookAheadMs)
               None None (Some 1)) s in
  if (0 <? length entries)%nat then entries !! 0%nat else None.

(** [getTimeRange]: [{ start, end }] out of the statistics. *)
Definition getTimeRange (s : Store.t) : option Z * option Z :=
  (Store.earliestTimestamp s, Store.latestTimestamp s).

(** An element of the argument of [batchGetByTimeRange]. *)
Record BatchRange : Type := mkBatchRange {
  b_start : Z;
  b_end : Z;
  b_source : option string;
  b_side : option Side
}.

Section Batch.

(** The conversion of a number to a string inside a template literal. *)
Variable toString : Z -> string.

(** [`${range.start}-${range.end}`] *)
Definition range_key (range : BatchRange) : string :=
  toString (b_start range) +:+ "-" +:+ toString (b_end range).

Definition batchGetByTimeRange (ranges : list BatchRange) (s : Store.t)
    : gmap string (list TradeEntry) :=
  fold_left
    (fun results range =>
       <[range_key range :=
           Store.getByTimeRange
             (mkRange (b_start range) (b_end range)
                      (b_source range) (b_side range) None) s]> results)
    ranges ∅.

End Batch.

End Consumer.

(* ===================================================================== *)
(** * The ingestion coordinator ([S3Ingester.ts])                         *)
(* ===================================================================== *)

Module Ingester.

(** [key.endsWith(suffix)] *)
Definition endsWith (key suffix : string) : bool :=
  let n := String.length key in
  let m := String.length suffix in
  (m <=? n)%nat && String.eqb (substring (n - m) m key) suffix.

(** The coordinator: its store, its processed keys, and the traces of the
    [loadFile] calls it has made and of the [DeleteMessage] commands it has
    sent (by receipt handle). *)
Record t : Type := mkIngester {
  store : Store.t;
  processedKeys : gset string;
  loads : list string;
  deleted : list string
}.

Definition init (s : Store.t) : t := mkIngester s ∅ [] [].

Record LoadResult : Type := mkResult {
  filesProcessed : nat;
  entriesLoaded : nat;
  errors : list (string * string)
}.

(** One page of [ListObjectsV2]: [Contents], each object with its optional
    [Key].  A listing is the list of the pages a driver is given; a page
    carries a [NextContinuationToken] exactly when another page follows it,
    and a [ListObjectsV2] call that fails ends the listing there. *)
Definition Page : Type := option (list (option string)).

(** A record of a parsed event, by what [record.s3?.object?.key] gives.
    [Keyed (Some key)]: the string [key].  [Keyed None]: nothing, or a falsy
    value.  [Unreadable]: the record is [null], so that reading [record.s3]
    throws, or its key is a truthy value that is not a string, so that
    [key.endsWith] is not a function. *)
Inductive EventRecord : Type :=
| Keyed (key : option string)
| Unreadable.

(** A received message.  [Incomplete]: [Body] or [ReceiptHandle] is missing.
    [Malformed]: [JSON.parse(message.Body)] throws.  [NullEvent]: the body
    parses to [null], so that reading [s3Event.Records] throws.  Otherwise
    the parsed event: its [Records], when present and an array, and the
    receipt handle. *)
Inductive Message : Type :=
| Incomplete
| Malformed
| NullEvent
| Notification (records : option (list EventRecord)) (receipt : string).

Section WithObjects.

(** What [this.loadFile(key)] resolves to, or the error it rejects with. *)
Variable loadFile : string -> result (list TradeEntry).

(** The [try { ... } catch] of the three drivers: load, batch-insert, admit
    the key.  The [try] ends at the first exception: of [loadFile], or of
    [insertBatch] when a batch listener throws, the entries being stored
    already and the key not admitted. *)
Definition ingest (key : string) (st : t) : t * result nat :=
  match loadFile key with
  | Ok entries =>
      match Store.insertBatch_throws entries (store st) with
      | None =>
          (mkIngester (Store.insertBatch entries (store st))
                      ({[key]} ∪ processedKeys st)
                      (loads st ++ [key])
                      (deleted st),
           Ok (length entries))
      | Some msg =>
          (mkIngester (Store.insertBatch entries (store st))
                      (processedKeys st)
                      (loads st ++ [key])
                      (deleted st),
           Threw msg)
      end
  | Threw msg =>
      (mkIngester (store st) (processedKeys st) (loads st ++ [key]) (deleted st),
       Threw msg)
  end.

(** The body of [for (const object of response.Contents)] in
    [loadInitialData]. *)
Definition backfill_object (st : t * LoadResult) (object : option string)
    : t * LoadResult :=
  match object with
  | None => st
  | Some key =>
      if negb (endsWith key ".json") then st
      else
        let (st', outcome) := ingest key (fst st) in
        let r := snd st in
        match outcome with
        | Ok n =>
            (st', mkResult (S (filesProcessed r)) (entriesLoaded r + n) (errors r))
        | Threw msg =>
            (st', mkResult (filesProcessed r) (entriesLoaded r)
                           (errors r ++ [(key, msg)]))
        end
  end.

(** The [do { ... } while (continuationToken)] of [loadInitialData]. *)
Fixpoint backfill_pages (pages : list Page) (st : t * LoadResult)
    : t * LoadResult :=
  match pages with
  | [] => st
  | page :: more =>
      match page with
      | None | Some [] => st
      | Some contents =>
          backfill_pages more (fold_left backfill_object contents st)
      end
  end.

Definition loadInitialData (listing : list Page) (st : t) : t * LoadResult :=
  backfill_pages listing (st, mkResult 0 0 []).

(** The body shared by the record loop of [processSqsMessages], for a
    readable record, and the object loop of [poll]: skip what is not a
    [.json] key, skip a processed key, otherwise ingest. *)
Definition discover (st : t) (candidate : option string) : t :=
  match candidate with
  | None => st
  | Some key =>
      if negb (endsWith key ".json") then st
      else if bool_decide (key ∈ processedKeys st) then st
      else fst (ingest key st)
  end.

(** The loop [for (const record of s3Event.Records)]: an unreadable record
    throws out of the loop, into the [catch] around the whole message.  The
    result tells whether that happened. *)
Fixpoint process_records (records : list EventRecord) (st : t) : t * bool :=
  match records with
  | [] => (st, false)
  | Keyed candidate :: rest => process_records rest (discover st candidate)
  | Unreadable :: _ => (st, true)
  end.

(** One turn of [for (const message of messages)]: the message is deleted
    when its records were processed without an exception reaching the outer
    [catch]. *)
Definition processSqsMessage (st : t) (message : Message) : t :=
  match message with
  | Incomplete => st
  | Malformed => st
  | NullEvent => st
  | Notification records receipt =>
      let (st', threw) :=
        match records with
        | Some rs => process_records rs st
        | None => (st, false)
        end in
      if threw then st'
      else mkIngester (store st') (processedKeys st') (loads st')
                      (deleted st' ++ [receipt])
  end.

Definition processSqsMessages (messages : list Message) (st : t) : t :=
  fold_left processSqsMessage messages st.

(** One pass of [poll]: every page of the listing. *)
Definition poll_page (st : t) (page : Page) : t :=
  match page with
  | Some contents => fold_left discover contents st
  | None => st
  end.

Definition poll (listing : list Page) (st : t) : t :=
  fold_left poll_page listing st.

End WithObjects.

(** [get processedCount()] *)
Definition processedCount (st : t) : nat := base.size (processedKeys st).

(** The coordinators a caller can build: constructed over some store, then
    driven by backfills, notification batches and polling passes. *)
Inductive reachable (loadFile : string -> result (list TradeEntry)) : t -> Prop :=
| reach_init s : reachable loadFile (init s)
| reach_backfill listing st :
    reachable loadFile st ->
    reachable loadFile (fst (loadInitialData loadFile listing st))
| reach_sqs messages st :
    reachable loadFile st ->
    reachable loadFile (processSqsMessages loadFile messages st)
| reach_poll listing st :
    reachable loadFile st -> reachable loadFile (poll loadFile listing st).

End Ingester.

(* ===================================================================== *)
(** * Vocabulary of the specification                                     *)
(* ===================================================================== *)

Module Spec.

Import Store.

(** "Within each bucket, timestamp is non-decreasing." *)
Fixpoint nondecreasing (l : list TradeEntry) : bool :=
  match l with
  | [] => true
  | x :: l' =>
      match l' with
      | [] => true
      | y :: _ => (timestamp x <=? timestamp y) && nondecreasing l'
      end
  end.

Definition buckets_sorted (s : Store.t) : Prop :=
  forall k b, buckets s !! k = Some b -> nondecreasing b = true.

(** "Every entry in bucket k satisfies floor(timestamp/60000) = k." *)
Definition in_bucket (k : Z) (e : TradeEntry) : bool :=
  getBucketKey (timestamp e) =? k.

Definition buckets_keyed (s : Store.t) : Prop :=
  forall k b, buckets s !! k = Some b -> forallb (in_bucket k) b = true.

(** The entry lies in the half-open window of the query and passes the
    filters that are in force. *)
Definition in_range (o : TimeRangeQueryOptions) (e : TradeEntry) : bool :=
  (start o <=? timestamp e) && (timestamp e <? end_ o)
  && negb (source_mismatch o e) && negb (side_mismatch o e).

(** "Truncated to limit": a limit of zero is not in force, and a limit below
    one ends the query at its first result. *)
Definition truncate (lim : option Z) (l : list TradeEntry) : list TradeEntry :=
  match lim with
  | None => l
  | Some n => if n =? 0 then l else take (Z.to_nat (Z.max 1 n)) l
  end.

(** The entry is not past the end of the window and passes the filters: what
    the inner loop of the range query lets through. *)
Definition passes (o : TimeRangeQueryOptions) (e : TradeEntry) : bool :=
  (timestamp e <? end_ o)
  && negb (source_mismatch o e) && negb (side_mismatch o e).

(** [results.push] on each candidate in turn, with the limit check of the
    range query after each push. *)
Fixpoint push_all (o : TimeRangeQueryOptions) (cs results : list TradeEntry)
    : flow :=
  match cs with
  | [] => Continue results
  | c :: cs' =>
      let results' := results ++ [c] in
      if limit_reached o results' then Return results'
      else push_all o cs' results'
  end.

Definition finish (f : flow) : list TradeEntry :=
  match f with
  | Continue r => r
  | Return r => r
  end.

(** The bucket of the entry is one of [a], ..., [b - 1]. *)
Definition key_between (a b : Z) (e : TradeEntry) : bool :=
  (a <=? getBucketKey (timestamp e)) && (getBucketKey (timestamp e) <? b).

(** The store holds exactly the entries of [L], a list in timestamp order,
    each bucket in the order of [L]. *)
Definition represents (s : Store.t) (L : list TradeEntry) : Prop :=
  nondecreasing L = true /\
  forall k, bucket_or_new (buckets s) k = List.filter (in_bucket k) L.

(** The range query as the specification words it: the entries of [S] in
    timestamp order, ties in insertion order, inside the window and matching
    the filters that are set, cut to [limit] when it is set. *)
Definition matches_filters (o : TimeRangeQueryOptions) (e : TradeEntry) : bool :=
  match q_source o with
  | Some src => String.eqb (source e) src
  | None => true
  end
  &&
  match q_side o with
  | Some sd => Side_eqb (side e) sd
  | None => true
  end.

Definition claimed_range (o : TimeRangeQueryOptions) (S : list TradeEntry)
    : list TradeEntry :=
  let hits :=
    List.filter
      (fun e => (start o <=? timestamp e) && (timestamp e <? end_ o)
                && matches_filters o e)
      (sort_by_timestamp S) in
  match limit o with
  | Some n => take (Z.to_nat n) hits
  | None => hits
  end.

(** [new] is [old] with [e] added behind every entry of [old] that shares its
    timestamp (first inserted first). *)
Definition placed_after_ties (e : TradeEntry) (old new : list TradeEntry) : Prop :=
  exists pre post,
    old = pre ++ post /\ new = pre ++ e :: post /\
    Forall (fun x => timestamp x <> timestamp e) post.

(** [new] is [old] with [e] added behind the entries with a smaller
    timestamp and in front of all others, those sharing its timestamp
    included (last inserted first). *)
Definition placed_before_ties (e : TradeEntry) (old new : list TradeEntry) : Prop :=
  exists pre post,
    old = pre ++ post /\ new = pre ++ e :: post /\
    Forall (fun x => timestamp x < timestamp e) pre /\
    Forall (fun x => timestamp e <= timestamp x) post.

(** Distance of an entry to a target, and the entries of a store. *)
Definition distance (ts : Z) (e : TradeEntry) : Z := Z.abs (timestamp e - ts).

Definition stored (s : Store.t) (e : TradeEntry) : Prop :=
  exists k b, buckets s !! k = Some b /\ In e b.

(** "total_count equals the sum of all bucket lengths." *)
Definition total_length (bs : gmap Z (list TradeEntry)) : nat :=
  map_fold (fun _ b n => (length b + n)%nat) 0%nat bs.

(** The entry lies in the half-open window [lo, hi). *)
Definition in_window (lo hi : Z) (e : TradeEntry) : bool :=
  (lo <=? timestamp e) && (timestamp e <? hi).

(** Some bucket of the map holds the entry. *)
Definition held_in (bs : gmap Z (list TradeEntry)) (e : TradeEntry) : Prop :=
  exists k b, bs !! k = Some b /\ In e b.

(** The two extrema bound every held entry, each is the timestamp of a held
    entry, and they are absent exactly when the count is zero. *)
Definition extrema_of (bs : gmap Z (list TradeEntry)) (n : nat)
    (mn mx : option Z) : Prop :=
  (forall e, held_in bs e ->
     exists lo hi, mn = Some lo /\ mx = Some hi /\ lo <= timestamp e <= hi) /\
  (forall lo, mn = Some lo -> exists e, held_in bs e /\ timestamp e = lo) /\
  (forall hi, mx = Some hi -> exists e, held_in bs e /\ timestamp e = hi) /\
  (mn = None <-> n = 0%nat) /\ (mx = None <-> n = 0%nat).

(** No bucket of the map is an empty array. *)
Definition no_empty_bucket (bs : gmap Z (list TradeEntry)) : Prop :=
  forall k b, bs !! k = Some b -> b <> [].

(** The state of the adjacent search: a best distance comes with a best
    entry. *)
Definition paired (st : option TradeEntry * option Z) : Prop :=
  fst st = None -> snd st = None.

(** The entry passes the filters of [getAtTimeFiltered] that are in force. *)
Definition point_match (filters : option Consumer.PointFilters) (e : TradeEntry)
    : bool :=
  match filters with
  | Some f =>
      match Consumer.p_source f with
      | Some src => String.eqb src "" || String.eqb (source e) src
      | None => true
      end
      &&
      match Consumer.p_side f with
      | Some sd => Side_eqb (side e) sd
      | None => true
      end
  | None => true
  end.

(** Two stores with the same buckets, count and extrema. *)
Definition same_entries (s s' : Store.t) : Prop :=
  buckets s = buckets s' /\ totalCount s = totalCount s' /\
  minTimestamp s = minTimestamp s' /\ maxTimestamp s = maxTimestamp s'.

(** No callback subscribed to the store throws. *)
Definition quiet (s : Store.t) : Prop :=
  forall call, invoke s call = None.

(** What becomes of the calls an event makes, in order, the first exception
    ending them: [made] are the calls that take place and [thrown] the
    exception that ends them.  When no call throws all are made; otherwise
    those up to and including the first that throws. *)
Definition delivered_until_throw (behaviour : Delivery -> option string)
    (calls made : list Delivery) (thrown : option string) : Prop :=
  match thrown with
  | None => made = calls /\ Forall (fun call => behaviour call = None) calls
  | Some msg =>
      exists before call after,
        calls = before ++ call :: after /\ made = before ++ [call] /\
        Forall (fun c => behaviour c = None) before /\
        behaviour call = Some msg
  end.

End Spec.

(** Vocabulary for the loader. *)
Module LoaderSpec.

Import Loader.

(** The member of a candidate row, when the row is an object that has it. *)
Definition field (entry : JSON) (name : string) : option JSON :=
  match entry with
  | JObj members => members !! name
  | _ => None
  end.

(** "A finite number (rejecting NaN and infinite values)". *)
Definition is_finite_number (v : option JSON) : bool :=
  match v with
  | Some (JNum (Finite _)) => true
  | _ => false
  end.

(** The validation as the specification words it. *)
Definition claimed_valid (entry : JSON) : bool :=
  is_finite_number (field entry "timestamp")
  && is_finite_number (field entry "price")
  && is_finite_number (field entry "size")
  && is_side (field entry "side")
  && is_string (field entry "source").

(** The validation with "finite number" weakened to "number". *)
Definition accepted (entry : JSON) : bool :=
  is_number (field entry "timestamp")
  && is_number (field entry "price")
  && is_number (field entry "size")
  && is_side (field entry "side")
  && is_string (field entry "source").

Definition not_null (entry : JSON) : bool :=
  match entry with
  | JNull => false
  | _ => true
  end.

End LoaderSpec.

(** Vocabulary for the coordinator. *)
Module IngesterSpec.

Import Ingester.

(** Every key among the candidates is in the processed set. *)
Definition all_processed (st : t) (cs : list (option string)) : Prop :=
  Forall (fun c => match c with
                   | Some key => key ∈ processedKeys st
                   | None => True
                   end) cs.

(** Every [.json] key among the candidates is in the processed set. *)
Definition covered (st : t) (cs : list (option string)) : Prop :=
  Forall (fun c => match c with
                   | Some key => endsWith key ".json" = true -> key ∈ processedKeys st
                   | None => True
                   end) cs.

(** The record can be read: it is not [null] and its key, when truthy, is a
    string. *)
Definition readable (r : EventRecord) : bool :=
  match r with
  | Keyed _ => true
  | Unreadable => false
  end.

(** The candidate keys of the records in front of the first unreadable
    one. *)
Fixpoint readable_keys (rs : list EventRecord) : list (option string) :=
  match rs with
  | Keyed candidate :: rest => candidate :: readable_keys rest
  | _ => []
  end.

(** The candidate keys a message carries, as far as its records are read. *)
Definition message_keys (m : Message) : list (option string) :=
  match m with
  | Notification (Some rs) _ => readable_keys rs
  | _ => []
  end.

(** The message is a parsed event all of whose records can be read. *)
Definition fully_read (m : Message) : bool :=
  match m with
  | Notification (Some rs) _ => forallb readable rs
  | Notification None _ => true
  | _ => false
  end.

(** The candidate keys a page lists. *)
Definition page_keys (page : Page) : list (option string) :=
  match page with
  | Some cs => cs
  | None => []
  end.

(** The receipt handles of the messages that are fully read. *)
Definition receipts (messages : list Message) : list string :=
  flat_map (fun m => match m with
                     | Notification _ receipt =>
                         if fully_read m then [receipt] else []
                     | _ => []
                     end) messages.

(** The coordinator's bookkeeping is consistent with the object store:
    only [.json] keys were loaded, and a processed key was loaded and its
    load succeeds. *)
Definition consistent (loadFile : string -> result (list TradeEntry)) (st : t)
    : Prop :=
  Forall (fun key => endsWith key ".json" = true) (loads st) /\
  (forall key, key ∈ processedKeys st ->
     In key (loads st) /\ exists entries, loadFile key = Ok entries) /\
  (processedCount st <= length (loads st))%nat.

(** From [st] to [st'] nothing was forgotten. *)
Definition grown (st st' : t) : Prop :=
  processedKeys st ⊆ processedKeys st' /\
  loads st `prefix_of` loads st' /\
  deleted st `prefix_of` deleted st'.

(** Two coordinators that differ in the trace of deleted messages only. *)
Definition same_data (st st' : t) : Prop :=
  store st = store st' /\ processedKeys st = processedKeys st' /\
  loads st = loads st'.

(** The rows of the objects named in an error list that did load: they were
    stored before a batch listener threw. *)
Definition stored_uncounted (loadFile : string -> result (list TradeEntry))
    (errs : list (string * string)) : nat :=
  fold_right (fun km n => match loadFile (fst km) with
                          | Ok entries => (length entries + n)%nat
                          | Threw _ => n
                          end) 0%nat errs.

(** An error of a backfill: the load of the key threw the message, or the
    load succeeded and a batch listener of the store threw it. *)
Definition explained (loadFile : string -> result (list TradeEntry))
    (s : Store.t) (km : string * string) : Prop :=
  loadFile (fst km) = Threw (snd km) \/
  exists entries cb,
    loadFile (fst km) = Ok entries /\
    In cb (Store.batchListeners s) /\
    Store.invoke s (BatchEvent cb (Store.sort_by_timestamp entries))
    = Some (snd km).

(** The result of a backfill accounts for what the backfill did to the
    coordinator [st0] it started from. *)
Definition accounted (loadFile : string -> result (list TradeEntry)) (st0 : t)
    (stp : t * LoadResult) : Prop :=
  Store.totalCount (store (fst stp))
  = (Store.totalCount (store st0) + entriesLoaded (snd stp)
     + stored_uncounted loadFile (errors (snd stp)))%nat /\
  length (loads (fst stp))
  = (length (loads st0) + filesProcessed (snd stp) + length (errors (snd stp)))%nat /\
  Forall (explained loadFile (store st0)) (errors (snd stp)) /\
  deleted (fst stp) = deleted st0.

(** The store a backfill works on keeps the batch listeners and the
    callbacks of the store it started from. *)
Definition same_world (st0 : t) (stp : t * LoadResult) : Prop :=
  Store.batchListeners (store (fst stp)) = Store.batchListeners (store st0) /\
  Store.invoke (store (fst stp)) = Store.invoke (store st0).

(** The loads succeed and no callback of the store throws. *)
Definition dependable (loadFile : string -> result (list TradeEntry)) (st : t)
    : Prop :=
  (forall key, exists entries, loadFile key = Ok entries) /\
  Spec.quiet (store st).

End IngesterSpec.

(** Concrete inputs used in the examples below. *)
Module Examples.

Definition entry (ts : Z) (src : string) : TradeEntry :=
  mkEntry ts (100 # 1) (1 # 1) buy src.

Definition T : Z := 1700000000000.

Definition first : TradeEntry := entry T "first".
Definition second : TradeEntry := entry T "second".
Definition third : TradeEntry := entry T "third".


(** Rows of an object payload. *)
Definition row (ts pr sz : number Q) (sd src : string) : Loader.JSON :=
  Loader.JObj (list_to_map
    [("timestamp", Loader.JNum ts); ("price", Loader.JNum pr);
     ("size", Loader.JNum sz); ("side", Loader.JStr sd);
     ("source", Loader.JStr src)]).

Definition good_row : Loader.JSON :=
  row (Finite (1700000000000 # 1)) (Finite (201 # 2)) (Finite (10 # 1)) "buy" "x".

(** A row whose price overflowed to [Infinity], as [1e999] does. *)
Definition overflow_row : Loader.JSON :=
  row (Finite (1700000001000 # 1)) PosInfinity (Finite (10 # 1)) "sell" "x".

(** A row without a price. *)
Definition priceless_row : Loader.JSON :=
  Loader.JObj (list_to_map
    [("timestamp", Loader.JNum (Finite (1700000002000 # 1)));
     ("size", Loader.JNum (Finite (10 # 1))); ("side", Loader.JStr "buy");
     ("source", Loader.JStr "x")]).

(** An object store with one object, of one row. *)
Definition one_object (key : string) : result (list TradeEntry) :=
  if String.eqb key "a.json" then Ok [entry T "a"]
  else Threw "NoSuchKey".

Definition one_page : list Ingester.Page := [Some [Some "a.json"]].


(** The point queries of a store into which nothing has been inserted:
    [this.buckets] is an empty map, [this.buckets.get] gives [undefined]
    whatever the key, and the two queries return [[]] and [null]. *)
Definition unfilled_getAtTime (timestamp : number Z) : list TradeEntry := [].

Definition unfilled_getNearest (timestamp : number Z) (tolerance : option Z)
    : option TradeEntry := None.

(** Callbacks of which number 1 throws on every batch. *)
Definition first_throws (call : Delivery) : option string :=
  match call with
  | BatchEvent 1%nat _ => Some "listener failed"
  | _ => None
  end.

(** A store with two batch listeners, the first of which throws. *)
Definition guarded_store : Store.t :=
  Store.subscribeBatch 2%nat (Store.subscribeBatch 1%nat (Store.new first_throws)).

(** A store built by the three mutators, with two listeners. *)
Definition busy_store : Store.t :=
  Store.insertBatch [entry 1000 "batch"; entry 61000 "batch"]
    (Store.insert (entry 5000 "single")
       (Store.subscribeBatch 8%nat (Store.subscribe 7%nat Store.empty))).

(** An object store in which every object holds one row. *)
Definition every_object (key : string) : result (list TradeEntry) :=
  Ok [entry T key].

(** A coordinator after a backfill, a notification and a polling pass. *)
Definition busy_ingester : Ingester.t :=
  Ingester.poll one_object [Some [Some "b.json"; Some "notes.txt"]]
    (Ingester.processSqsMessages one_object
       [Ingester.Notification (Some [Ingester.Keyed (Some "a.json")]) "r1";
        Ingester.Malformed]
       (fst (Ingester.loadInitialData one_object one_page
               (Ingester.init Store.empty)))).
End Examples.

(* ===================================================================== *)
(** * Sorted buckets and the binary searches                              *)
(* ===================================================================== *)

Module SortFacts.

Import Store Spec.

Lemma nondecreasing_cons x l :
  nondecreasing (x :: l) = true <->
  Forall (fun y => timestamp x <= timestamp y) l /\ nondecreasing l = true.
Proof.
  revert x. induction l as [|y l IH]; intros x.
  - simpl. split; [intros _; split; [constructor | reflexivity] | reflexivity].
  - change (nondecreasing (x :: y :: l))
      with ((timestamp x <=? timestamp y) && nondecreasing (y :: l)).
    rewrite andb_true_iff, Z.leb_le. split.
    + intros [Hxy Hl]. split; [|exact Hl].
      constructor; [exact Hxy|].
      apply IH in Hl as [Hall _].
      eapply Forall_impl; [exact Hall|]. intros z Hz. simpl in Hz. lia.
    + intros [Hall Hl]. inversion Hall; subst. split; assumption.
Qed.

Lemma nondecreasing_tail x l :
  nondecreasing (x :: l) = true -> nondecreasing l = true.
Proof. intros H. apply nondecreasing_cons in H. tauto. Qed.

Lemma nondecreasing_lookup l :
  nondecreasing l = true ->
  forall (i j : nat) x y,
    l !! i = Some x -> l !! j = Some y -> (i <= j)%nat ->
    timestamp x <= timestamp y.
Proof.
  induction l as [|a l IH]; intros Hs i j x y Hi Hj Hij.
  - discriminate.
  - apply nondecreasing_cons in Hs as [Hall Hs].
    destruct i as [|i], j as [|j]; simpl in *.
    + inversion Hi; inversion Hj; subst. lia.
    + inversion Hi; subst.
      rewrite Forall_forall in Hall. apply Hall.
      eapply list_elem_of_lookup_2. exact Hj.
    + lia.
    + eapply IH; eauto. lia.
Qed.

Lemma nondecreasing_app l1 l2 :
  nondecreasing (l1 ++ l2) = true ->
  nondecreasing l1 = true /\ nondecreasing l2 = true.
Proof.
  induction l1 as [|a l1 IH]; simpl app; intros H.
  - split; [reflexivity | exact H].
  - apply nondecreasing_cons in H as [Hall H].
    apply IH in H as [H1 H2]. split; [|exact H2].
    apply nondecreasing_cons. split; [|exact H1].
    apply Forall_app in Hall. tauto.
Qed.

Lemma nondecreasing_drop n l :
  nondecreasing l = true -> nondecreasing (drop n l) = true.
Proof.
  intros H. rewrite <- (take_drop n l) in H.
  apply nondecreasing_app in H. tauto.
Qed.

Lemma nondecreasing_filter p l :
  nondecreasing l = true -> nondecreasing (List.filter p l) = true.
Proof.
  induction l as [|a l IH]; intros H; [reflexivity|].
  apply nondecreasing_cons in H as [Hall H]. simpl.
  destruct (p a); [|auto].
  apply nondecreasing_cons. split; [|auto].
  rewrite List.Forall_forall in *. intros y Hy.
  apply filter_In in Hy as [Hy _]. auto.
Qed.

Lemma mid_bounds (low high : nat) :
  (low < high)%nat -> (low <= (low + high) / 2 < high)%nat.
Proof.
  intros H. split.
  - apply Nat.div_le_lower_bound; lia.
  - apply Nat.Div0.div_lt_upper_bound; lia.
Qed.

Lemma bisect_step fuel bucket ts (low high : nat) :
  bisect (S fuel) bucket ts low high =
  if (low <? high)%nat then
    match bucket !! ((low + high) / 2)%nat with
    | Some x =>
        if timestamp x <? ts
        then bisect fuel bucket ts ((low + high) / 2 + 1)%nat high
        else bisect fuel bucket ts low ((low + high) / 2)%nat
    | None => low
    end
  else low.
Proof. reflexivity. Qed.

(** The loop invariant of the binary search: everything left of [low] is
    below the target, everything from [high] on is not. *)
Lemma bisect_spec bucket ts :
  nondecreasing bucket = true ->
  forall fuel (low high : nat),
    (low <= high <= length bucket)%nat ->
    (high - low <= fuel)%nat ->
    (forall (i : nat) x, bucket !! i = Some x -> (i < low)%nat -> timestamp x < ts) ->
    (forall (i : nat) x, bucket !! i = Some x -> (high <= i)%nat -> ts <= timestamp x) ->
    let r := bisect fuel bucket ts low high in
    (low <= r <= high)%nat /\
    (forall (i : nat) x, bucket !! i = Some x -> (i < r)%nat -> timestamp x < ts) /\
    (forall (i : nat) x, bucket !! i = Some x -> (r <= i)%nat -> ts <= timestamp x).
Proof.
  intros Hs. induction fuel as [|fuel IH]; intros low high Hb Hf Hlo Hhi.
  - simpl. assert (low = high) by lia. subst. repeat split; auto; lia.
  - cbv zeta. rewrite bisect_step.
    destruct (Nat.ltb_spec low high) as [Hlt|Hge].
    2:{ assert (low = high) by lia. subst. repeat split; auto; lia. }
    set (mid := ((low + high) / 2)%nat).
    assert (Hmid : (low <= mid < high)%nat).
    { apply mid_bounds, Hlt. }
    destruct (lookup_lt_is_Some_2 bucket mid) as [x Hx]; [lia|].
    rewrite Hx.
    destruct (Z.ltb_spec (timestamp x) ts) as [Hxt|Hxt].
    + specialize (IH (mid + 1)%nat high). cbv zeta in IH.
      destruct IH as (Hr & H1 & H2); [lia | lia | | exact Hhi |].
      * intros i y Hy Hi.
        assert (timestamp y <= timestamp x).
        { eapply nondecreasing_lookup; eauto. lia. }
        lia.
      * repeat split; auto; lia.
    + specialize (IH low mid). cbv zeta in IH.
      destruct IH as (Hr & H1 & H2); [lia | lia | exact Hlo | |].
      * intros i y Hy Hi.
        assert (timestamp x <= timestamp y).
        { eapply nondecreasing_lookup; eauto. }
        lia.
      * repeat split; auto; lia.
Qed.

(** More fuel than [high - low] changes nothing: the loop has left by
    itself. *)
Lemma bisect_fuel bucket ts :
  forall fuel fuel' (low high : nat),
    (high <= length bucket)%nat ->
    (high - low <= fuel)%nat -> (high - low <= fuel')%nat ->
    bisect fuel bucket ts low high = bisect fuel' bucket ts low high.
Proof.
  induction fuel as [|fuel IH]; intros fuel' low high Hlen Hf Hf'.
  - destruct fuel'; [reflexivity|]. rewrite bisect_step.
    destruct (Nat.ltb_spec low high); [lia | reflexivity].
  - destruct fuel' as [|fuel']; rewrite !bisect_step.
    + destruct (Nat.ltb_spec low high); [lia | reflexivity].
    + destruct (Nat.ltb_spec low high) as [Hlt|]; [|reflexivity].
      set (mid := ((low + high) / 2)%nat).
      assert (Hmid : (low <= mid < high)%nat).
      { apply mid_bounds, Hlt. }
      destruct (bucket !! mid); [|reflexivity].
      destruct (timestamp t0 <? ts); apply IH; lia.
Qed.

Lemma findFirstAtOrAfter_split bucket ts :
  nondecreasing bucket = true ->
  let r := findFirstAtOrAfter bucket ts in
  (r <= length bucket)%nat /\
  Forall (fun x => timestamp x < ts) (take r bucket) /\
  Forall (fun x => ts <= timestamp x) (drop r bucket).
Proof.
  intros Hs. unfold findFirstAtOrAfter.
  destruct (bisect_spec bucket ts Hs (length bucket) 0%nat (length bucket))
    as (Hr & H1 & H2); [lia | lia | intros; lia | |].
  { intros i x Hx Hi. apply lookup_lt_Some in Hx. lia. }
  simpl. split; [lia|]. split.
  - apply Forall_lookup_2. intros i x Hx.
    apply lookup_take_Some in Hx as [Hx Hi]. eauto.
  - apply Forall_lookup_2. intros i x Hx.
    rewrite lookup_drop in Hx. eapply H2; [exact Hx | lia].
Qed.

Lemma findInsertIndex_eq bucket e :
  findInsertIndex bucket e = findFirstAtOrAfter bucket (timestamp e).
Proof. reflexivity. Qed.

Lemma filter_none (p : TradeEntry -> bool) l :
  Forall (fun x => p x = false) l -> List.filter p l = [].
Proof.
  induction 1 as [|x l Hx _ IH]; simpl; [reflexivity|]. now rewrite Hx.
Qed.

Lemma filter_all (p : TradeEntry -> bool) l :
  Forall (fun x => p x = true) l -> List.filter p l = l.
Proof.
  induction 1 as [|x l Hx _ IH]; simpl; [reflexivity|]. rewrite Hx. now f_equal.
Qed.

(** On a sorted bucket the slice from the index found is the part of the
    bucket at or after the target. *)
Lemma drop_findFirstAtOrAfter bucket ts :
  nondecreasing bucket = true ->
  drop (findFirstAtOrAfter bucket ts) bucket
  = List.filter (fun x => ts <=? timestamp x) bucket.
Proof.
  intros Hs. destruct (findFirstAtOrAfter_split bucket ts Hs) as (_ & H1 & H2).
  set (r := findFirstAtOrAfter bucket ts) in *.
  rewrite <- (take_drop r bucket) at 2.
  rewrite List.filter_app, filter_none, filter_all; [reflexivity | |].
  - eapply Forall_impl; [exact H2|]. intros x Hx. simpl in Hx. lia.
  - eapply Forall_impl; [exact H1|]. intros x Hx. simpl in Hx. lia.
Qed.

Lemma sort_insert_app e l1 l2 :
  Forall (fun x => timestamp x < timestamp e) l1 ->
  sort_insert e (l1 ++ l2) = l1 ++ sort_insert e l2.
Proof.
  induction 1 as [|x l1 Hx _ IH]; simpl; [reflexivity|].
  destruct (Z.ltb_spec (timestamp x) (timestamp e)); [|lia]. now rewrite IH.
Qed.

Lemma sort_insert_head e l :
  Forall (fun x => timestamp e <= timestamp x) l ->
  sort_insert e l = e :: l.
Proof.
  destruct 1 as [|x l Hx _]; simpl; [reflexivity|].
  destruct (Z.ltb_spec (timestamp x) (timestamp e)); [lia | reflexivity].
Qed.

(** [splice] at the index found by the binary search is the insertion of
    insertion sort. *)
Lemma splice_sort_insert bucket e :
  nondecreasing bucket = true ->
  splice (findInsertIndex bucket e) e bucket = sort_insert e bucket.
Proof.
  intros Hs. rewrite findInsertIndex_eq. unfold splice.
  destruct (findFirstAtOrAfter_split bucket (timestamp e) Hs) as (_ & H1 & H2).
  set (r := findFirstAtOrAfter bucket (timestamp e)) in *.
  rewrite <- (take_drop r bucket) at 3.
  rewrite sort_insert_app by exact H1.
  now rewrite sort_insert_head by exact H2.
Qed.

Lemma sort_insert_nondecreasing e l :
  nondecreasing l = true -> nondecreasing (sort_insert e l) = true.
Proof.
  induction l as [|x l IH]; intros Hs; [reflexivity|]. simpl.
  destruct (Z.ltb_spec (timestamp x) (timestamp e)) as [Hlt|Hge].
  - pose proof Hs as Hs'. apply nondecreasing_cons in Hs' as [Hall Hl].
    apply nondecreasing_cons. split; [|auto].
    rewrite List.Forall_forall in *. intros y Hy.
    assert (Hy' : In y (e :: l)).
    { clear -Hy. induction l as [|z l IHl]; simpl in *; [tauto|].
      destruct (timestamp z <? timestamp e); simpl in *; tauto. }
    destruct Hy' as [<-|Hy']; [lia | auto].
  - apply nondecreasing_cons. split; [|exact Hs].
    apply nondecreasing_cons in Hs as [Hall _].
    constructor; [exact Hge|].
    eapply Forall_impl; [exact Hall|]. intros z Hz. simpl in Hz. lia.
Qed.

Lemma sort_by_timestamp_nondecreasing l :
  nondecreasing (sort_by_timestamp l) = true.
Proof.
  induction l as [|e l IH]; [reflexivity|].
  simpl. now apply sort_insert_nondecreasing.
Qed.

(** [findIndexAtTime]: [high - low + 1] turns are enough, more change
    nothing. *)
Lemma findIndexAtTime_fuel bucket ts :
  forall fuel fuel' low high,
    high - low + 1 <= Z.of_nat fuel -> high - low + 1 <= Z.of_nat fuel' ->
    findIndexAtTime_loop fuel bucket ts low high
    = findIndexAtTime_loop fuel' bucket ts low high.
Proof.
  induction fuel as [|fuel IH]; intros fuel' low high Hf Hf'.
  - destruct fuel' as [|fuel']; [reflexivity|]. cbn [findIndexAtTime_loop].
    destruct (Z.leb_spec low high); [lia | reflexivity].
  - destruct fuel' as [|fuel']; cbn [findIndexAtTime_loop].
    + destruct (Z.leb_spec low high); [lia | reflexivity].
    + destruct (Z.leb_spec low high) as [Hle|]; [|reflexivity].
      assert (Hmid : low <= (low + high) / 2 <= high).
      { split.
        - apply Z.div_le_lower_bound; lia.
        - apply Z.div_le_upper_bound; lia. }
      destruct (bucket !! Z.to_nat ((low + high) / 2)) as [x|]; [|reflexivity].
      destruct (timestamp x =? ts); [reflexivity|].
      destruct (timestamp x <? ts); apply IH; lia.
Qed.

(** An index returned by [findIndexAtTime] holds an entry at the target. *)
Lemma findIndexAtTime_loop_found bucket ts :
  forall fuel low high i,
    findIndexAtTime_loop fuel bucket ts low high = i -> i <> -1 ->
    exists x, bucket !! Z.to_nat i = Some x /\ timestamp x = ts.
Proof.
  induction fuel as [|fuel IH]; intros low high i Hi Hne.
  - cbn in Hi. congruence.
  - cbn [findIndexAtTime_loop] in Hi.
    destruct (low <=? high); [|congruence].
    destruct (bucket !! Z.to_nat ((low + high) / 2)) as [x|] eqn:Ex; [|congruence].
    destruct (Z.eqb_spec (timestamp x) ts) as [Heq|_].
    + subst i. eauto.
    + destruct (timestamp x <? ts); eapply IH; eauto.
Qed.

End SortFacts.

(* ===================================================================== *)
(** * The store after a sequence of mutations                             *)
(* ===================================================================== *)

Module StoreFacts.

Import Store Spec SortFacts.

(** [emit] makes the calls in order and stops at the first that throws. *)
Lemma emit_delivered behaviour calls :
  delivered_until_throw behaviour calls
    (fst (emit behaviour calls)) (snd (emit behaviour calls)).
Proof.
  induction calls as [|call rest IH]; [now split|].
  cbn [emit]. destruct (behaviour call) as [msg|] eqn:Ec.
  - exists [], call, rest. repeat split; [constructor | exact Ec].
  - destruct (emit behaviour rest) as [made thrown]. cbn [fst snd] in *.
    destruct thrown as [msg|].
    + destruct IH as (before & c & after & -> & -> & Hb & Hc).
      exists (call :: before), c, after. repeat split; [|exact Hc].
      now constructor.
    + destruct IH as [-> Hall]. split; [reflexivity | now constructor].
Qed.

(** When no call throws, [emit] makes them all. *)
Lemma emit_quiet behaviour calls :
  Forall (fun call => behaviour call = None) calls ->
  emit behaviour calls = (calls, None).
Proof.
  induction 1 as [|call rest Hc _ IH]; [reflexivity|].
  cbn [emit]. now rewrite Hc, IH.
Qed.

Lemma bucket_or_new_insert (bs : gmap Z (list TradeEntry)) k b k' :
  bucket_or_new (<[k := b]> bs) k' = if decide (k = k') then b else bucket_or_new bs k'.
Proof.
  unfold bucket_or_new. rewrite lookup_insert.
  destruct (decide (k = k')); reflexivity.
Qed.

Lemma in_bucket_true k e : in_bucket k e = true <-> getBucketKey (timestamp e) = k.
Proof. unfold in_bucket. apply Z.eqb_eq. Qed.

(** Filtering one bucket out of a sorted list commutes with inserting. *)
Lemma filter_sort_insert k e L :
  nondecreasing L = true ->
  List.filter (in_bucket k) (sort_insert e L)
  = if in_bucket k e
    then sort_insert e (List.filter (in_bucket k) L)
    else List.filter (in_bucket k) L.
Proof.
  induction L as [|x L IH]; intros Hs.
  - simpl. destruct (in_bucket k e); reflexivity.
  - pose proof (nondecreasing_tail _ _ Hs) as Hs'.
    cbn [sort_insert].
    destruct (Z.ltb_spec (timestamp x) (timestamp e)) as [Hlt|Hge].
    + cbn [List.filter]. rewrite IH by exact Hs'.
      destruct (in_bucket k e), (in_bucket k x); try reflexivity.
      cbn [sort_insert].
      destruct (Z.ltb_spec (timestamp x) (timestamp e)); [reflexivity | lia].
    + change (List.filter (in_bucket k) (e :: x :: L))
        with (if in_bucket k e
              then e :: List.filter (in_bucket k) (x :: L)
              else List.filter (in_bucket k) (x :: L)).
      destruct (in_bucket k e); [|reflexivity].
      rewrite sort_insert_head; [reflexivity|].
      apply nondecreasing_cons in Hs as [Hall _].
      apply List.Forall_forall. intros y Hy.
      apply filter_In in Hy as [Hy _].
      destruct Hy as [<-|Hy]; [exact Hge|].
      rewrite List.Forall_forall in Hall. specialize (Hall y Hy). lia.
Qed.

Lemma represents_empty : represents empty [].
Proof. split; [reflexivity|]. intros k. reflexivity. Qed.

Lemma represents_insert s L e :
  represents s L -> represents (insert e s) (sort_insert e L).
Proof.
  intros [Hs Hb]. split; [now apply sort_insert_nondecreasing|].
  intros k. cbn [insert buckets].
  rewrite bucket_or_new_insert, filter_sort_insert by exact Hs.
  destruct (decide (getBucketKey (timestamp e) = k)) as [Hk|Hk].
  - rewrite (proj2 (in_bucket_true k e) Hk). subst k.
    rewrite Hb. apply splice_sort_insert.
    now apply nondecreasing_filter.
  - destruct (in_bucket k e) eqn:E; [|apply Hb].
    apply in_bucket_true in E. contradiction.
Qed.

Lemma represents_clear s : represents (clear s) [].
Proof. split; [reflexivity|]. intros k. reflexivity. Qed.

Lemma represents_new behaviour : represents (new behaviour) [].
Proof. split; [reflexivity|]. intros k. reflexivity. Qed.

Lemma inserts_snoc S e : inserts (S ++ [e]) = insert e (inserts S).
Proof. unfold inserts. now rewrite fold_left_app. Qed.

(** After [insert] has been called on each element of [S], the store holds
    the stable sort of the reverse of [S]. *)
Lemma represents_inserts S : represents (inserts S) (sort_by_timestamp (rev S)).
Proof.
  induction S as [|e S IH] using rev_ind.
  - apply represents_empty.
  - rewrite inserts_snoc, rev_unit. cbn [sort_by_timestamp].
    now apply represents_insert.
Qed.

(** A store that represents a list has sorted, well-keyed buckets. *)
Lemma represents_sorted s L : represents s L -> buckets_sorted s.
Proof.
  intros [Hs Hb] k b Hk. specialize (Hb k).
  unfold bucket_or_new in Hb. rewrite Hk in Hb. subst b.
  now apply nondecreasing_filter.
Qed.

Lemma represents_keyed s L : represents s L -> buckets_keyed s.
Proof.
  intros [Hs Hb] k b Hk. specialize (Hb k).
  unfold bucket_or_new in Hb. rewrite Hk in Hb. subst b.
  apply forallb_forall. intros x Hx. now apply filter_In in Hx.
Qed.

Lemma reachable_by_insert_represents s :
  reachable_by_insert s -> exists L, represents s L.
Proof.
  induction 1 as [|e s _ [L HL]|s _ _|cb s _ [L HL]|cb s _ [L HL]|behaviour].
  - exists []. apply represents_empty.
  - exists (sort_insert e L). now apply represents_insert.
  - exists []. apply represents_clear.
  - exists L. exact HL.
  - exists L. exact HL.
  - exists []. apply represents_new.
Qed.

(** Sorted buckets are an invariant of [insert] and [clear]. *)
Lemma reachable_by_insert_sorted s : reachable_by_insert s -> buckets_sorted s.
Proof.
  intros H. destruct (reachable_by_insert_represents s H) as [L HL].
  eapply represents_sorted, HL.
Qed.

Lemma forallb_splice p i e (b : list TradeEntry) :
  forallb p b = true -> p e = true -> forallb p (splice i e b) = true.
Proof.
  intros Hb He. unfold splice.
  rewrite <- (take_drop i b), forallb_app in Hb.
  apply andb_true_iff in Hb as [H1 H2].
  rewrite forallb_app. cbn [forallb]. now rewrite H1, He, H2.
Qed.

Lemma keyed_insert_bucket (bs : gmap Z (list TradeEntry)) e b' :
  (forall k b, bs !! k = Some b -> forallb (in_bucket k) b = true) ->
  (forallb (in_bucket (getBucketKey (timestamp e)))
           (bucket_or_new bs (getBucketKey (timestamp e))) = true ->
   forallb (in_bucket (getBucketKey (timestamp e))) b' = true) ->
  forall k b, <[getBucketKey (timestamp e) := b']> bs !! k = Some b ->
              forallb (in_bucket k) b = true.
Proof.
  intros Hbs Hb' k b. rewrite lookup_insert.
  destruct (decide (getBucketKey (timestamp e) = k)) as [<-|Hne].
  - intros [= <-]. apply Hb'. unfold bucket_or_new.
    destruct (bs !! getBucketKey (timestamp e)) eqn:E; [eauto | reflexivity].
  - apply Hbs.
Qed.

Lemma insert_keyed e s : buckets_keyed s -> buckets_keyed (insert e s).
Proof.
  intros Hs. unfold buckets_keyed. cbn [insert buckets].
  apply keyed_insert_bucket; [exact Hs|].
  intros Hb. apply forallb_splice; [exact Hb|]. now apply in_bucket_true.
Qed.

Lemma push_entry_keyed e s : buckets_keyed s -> buckets_keyed (push_entry e s).
Proof.
  intros Hs. unfold buckets_keyed. cbn [push_entry buckets].
  apply keyed_insert_bucket; [exact Hs|].
  intros Hb. rewrite forallb_app, Hb. cbn [forallb].
  now rewrite (proj2 (in_bucket_true _ e) eq_refl).
Qed.

Lemma insertBatch_buckets es s :
  buckets (insertBatch es s)
  = buckets (fold_left (fun acc e => push_entry e acc) (sort_by_timestamp es) s).
Proof. reflexivity. Qed.

Lemma insertBatch_keyed es s : buckets_keyed s -> buckets_keyed (insertBatch es s).
Proof.
  intros Hs. unfold buckets_keyed. rewrite insertBatch_buckets.
  generalize (sort_by_timestamp es). intros l. revert s Hs.
  induction l as [|e l IH]; intros s Hs; [exact Hs|].
  cbn [fold_left]. apply IH. now apply push_entry_keyed.
Qed.

(** The bucket of every stored entry is the bucket of its timestamp, whatever
    sequence of public mutators built the store. *)
Lemma reachable_keyed s : reachable s -> buckets_keyed s.
Proof.
  induction 1 as [|e s _ IH|es s _ IH|s _ _|cb s _ IH|cb s _ IH|behaviour].
  - intros k b Hk. cbn in Hk. now rewrite lookup_empty in Hk.
  - now apply insert_keyed.
  - now apply insertBatch_keyed.
  - intros k b Hk. cbn in Hk. now rewrite lookup_empty in Hk.
  - exact IH.
  - exact IH.
  - intros k b Hk. cbn in Hk. now rewrite lookup_empty in Hk.
Qed.

End StoreFacts.

(* ===================================================================== *)
(** * The range query                                                     *)
(* ===================================================================== *)

Module RangeFacts.

Import Store Spec SortFacts StoreFacts.

Lemma getBucketKey_mono a b : a <= b -> getBucketKey a <= getBucketKey b.
Proof. intros H. unfold getBucketKey, BUCKET_SIZE_MS. apply Z.div_le_mono; lia. Qed.

(** The inner loop on a sorted slice: the [break] loses nothing. *)
Lemma scan_entries_push o es :
  nondecreasing es = true ->
  forall r, scan_entries o es r = push_all o (List.filter (passes o) es) r.
Proof.
  induction es as [|e es IH]; intros Hs r; [reflexivity|].
  pose proof (nondecreasing_tail _ _ Hs) as Hs'.
  cbn [scan_entries List.filter]. unfold passes at 1.
  destruct (Z.geb_spec (timestamp e) (end_ o)) as [Hge|Hlt].
  - destruct (Z.ltb_spec (timestamp e) (end_ o)); [lia|]. cbn [andb].
    rewrite filter_none; [reflexivity|].
    apply nondecreasing_cons in Hs as [Hall _].
    eapply Forall_impl; [exact Hall|]. intros x Hx. cbn beta in Hx.
    unfold passes. destruct (Z.ltb_spec (timestamp x) (end_ o)); [lia | reflexivity].
  - destruct (Z.ltb_spec (timestamp e) (end_ o)); [|lia]. cbn [andb].
    destruct (source_mismatch o e); cbn [negb andb]; [now apply IH|].
    destruct (side_mismatch o e); cbn [negb]; [now apply IH|].
    cbn [push_all]. destruct (limit_reached o (r ++ [e])); [reflexivity|].
    now apply IH.
Qed.

Lemma push_all_app o A B r :
  push_all o (A ++ B) r
  = match push_all o A r with
    | Return x => Return x
    | Continue r' => push_all o B r'
    end.
Proof.
  revert r. induction A as [|a A IH]; intros r; [reflexivity|].
  cbn [app push_all]. destruct (limit_reached o (r ++ [a])); [reflexivity|].
  apply IH.
Qed.

Lemma filter_filter_implies (p q : TradeEntry -> bool) l :
  (forall x, p x = true -> q x = true) ->
  List.filter p (List.filter q l) = List.filter p l.
Proof.
  intros Hpq. induction l as [|x l IH]; [reflexivity|]. cbn [List.filter].
  destruct (q x) eqn:Eq.
  - cbn [List.filter]. destruct (p x); now rewrite IH.
  - destruct (p x) eqn:Ep; [|exact IH].
    apply Hpq in Ep. congruence.
Qed.

Lemma filter_filter_and (p q : TradeEntry -> bool) l :
  List.filter p (List.filter q l) = List.filter (fun x => q x && p x) l.
Proof.
  induction l as [|x l IH]; [reflexivity|]. cbn [List.filter].
  destruct (q x); cbn [andb List.filter]; [|exact IH].
  destruct (p x); now rewrite IH.
Qed.

Lemma filter_ext_in (p q : TradeEntry -> bool) l :
  (forall x, In x l -> p x = q x) -> List.filter p l = List.filter q l.
Proof.
  induction l as [|x l IH]; intros H; [reflexivity|]. cbn [List.filter].
  rewrite (H x) by (left; reflexivity).
  rewrite IH by (intros y Hy; apply H; right; exact Hy). reflexivity.
Qed.

(** The slice of one bucket that the inner loop walks holds the entries of
    the bucket that are in range. *)
Lemma bucket_slice o L k :
  nondecreasing L = true ->
  getBucketKey (start o) <= k ->
  let bucket := List.filter (in_bucket k) L in
  let startIndex :=
    if k =? getBucketKey (start o)
    then findFirstAtOrAfter bucket (start o) else 0%nat in
  List.filter (passes o) (drop startIndex bucket)
  = List.filter (in_range o) bucket.
Proof.
  intros Hs Hk bucket startIndex.
  assert (Hb : nondecreasing bucket = true) by now apply nondecreasing_filter.
  subst startIndex. destruct (Z.eqb_spec k (getBucketKey (start o))) as [->|Hne].
  - rewrite drop_findFirstAtOrAfter by exact Hb.
    rewrite filter_filter_and. apply filter_ext_in. intros x _.
    unfold in_range, passes. now rewrite !andb_assoc.
  - rewrite drop_0. apply filter_ext_in. intros x Hx.
    apply filter_In in Hx as [_ Hx]. apply in_bucket_true in Hx.
    unfold in_range, passes.
    destruct (Z.leb_spec (start o) (timestamp x)) as [|Hlt]; [reflexivity|].
    pose proof (getBucketKey_mono (timestamp x) (start o)). lia.
Qed.

(** The outer loop over the bucket keys. *)
Lemma scan_buckets_push o (bs : gmap Z (list TradeEntry)) L :
  nondecreasing L = true ->
  (forall k, bucket_or_new bs k = List.filter (in_bucket k) L) ->
  forall keys r,
    Forall (fun k => getBucketKey (start o) <= k) keys ->
    scan_buckets o bs (getBucketKey (start o)) keys r
    = finish (push_all o
        (concat (map (fun k => List.filter (in_range o) (List.filter (in_bucket k) L))
                     keys)) r).
Proof.
  intros Hs Hb. induction keys as [|k keys IH]; intros r Hkeys; [reflexivity|].
  inversion Hkeys as [|? ? Hk Hkeys']; subst.
  cbn [scan_buckets map concat]. rewrite push_all_app.
  pose proof (bucket_slice o L k Hs Hk) as Hslice. cbv zeta in Hslice.
  specialize (Hb k). unfold bucket_or_new in Hb.
  destruct (bs !! k) as [bucket|].
  - rewrite <- Hb in Hslice. rewrite <- Hb.
    rewrite scan_entries_push.
    2:{ apply nondecreasing_drop. rewrite Hb. now apply nondecreasing_filter. }
    rewrite Hslice.
    destruct (push_all o (List.filter (in_range o) bucket) r); [now apply IH | reflexivity].
  - rewrite <- Hb. cbn [List.filter push_all]. now apply IH.
Qed.

Lemma concat_filter_map (p : TradeEntry -> bool) (f : Z -> list TradeEntry) keys :
  concat (map (fun k => List.filter p (f k)) keys)
  = List.filter p (concat (map f keys)).
Proof.
  induction keys as [|k keys IH]; [reflexivity|].
  cbn [map concat]. now rewrite List.filter_app, IH.
Qed.

(** In a sorted list the entries of bucket [a] come before those of the
    buckets above it. *)
Lemma filter_key_split a b L :
  a < b ->
  nondecreasing L = true ->
  List.filter (in_bucket a) L ++ List.filter (key_between (a + 1) b) L
  = List.filter (key_between a b) L.
Proof.
  intros Hab. induction L as [|x L IH]; intros Hs; [reflexivity|].
  apply nondecreasing_cons in Hs as [Hall Hs]. specialize (IH Hs).
  cbn [List.filter].
  assert (E1 : in_bucket a x = (getBucketKey (timestamp x) =? a)) by reflexivity.
  assert (E2 : key_between (a + 1) b x
               = (a + 1 <=? getBucketKey (timestamp x))
                 && (getBucketKey (timestamp x) <? b)) by reflexivity.
  assert (E3 : key_between a b x
               = (a <=? getBucketKey (timestamp x))
                 && (getBucketKey (timestamp x) <? b)) by reflexivity.
  rewrite E1, E2, E3. clear E1 E2 E3.
  destruct (Z.eqb_spec (getBucketKey (timestamp x)) a) as [Ha|Ha].
  - destruct (Z.leb_spec (a + 1) (getBucketKey (timestamp x))); [lia|].
    destruct (Z.leb_spec a (getBucketKey (timestamp x))); [|lia].
    destruct (Z.ltb_spec (getBucketKey (timestamp x)) b); [|lia].
    cbn [andb app]. now rewrite IH.
  - destruct (Z.leb_spec (a + 1) (getBucketKey (timestamp x))) as [Hgt|Hlt].
    + destruct (Z.leb_spec a (getBucketKey (timestamp x))); [|lia].
      cbn [andb].
      assert (Hnone : List.filter (in_bucket a) L = []).
      { apply filter_none. eapply Forall_impl; [exact Hall|].
        intros y Hy. cbn beta in Hy. unfold in_bucket.
        pose proof (getBucketKey_mono _ _ Hy).
        destruct (Z.eqb_spec (getBucketKey (timestamp y)) a); [lia | reflexivity]. }
      rewrite Hnone in *. cbn [app] in *.
      destruct (getBucketKey (timestamp x) <? b); now rewrite IH.
    + destruct (Z.leb_spec a (getBucketKey (timestamp x))); [lia|].
      cbn [andb]. exact IH.
Qed.

Lemma concat_buckets L :
  nondecreasing L = true ->
  forall (n : nat) a,
    concat (map (fun k => List.filter (in_bucket k) L) (seqZ a (Z.of_nat n)))
    = List.filter (key_between a (a + Z.of_nat n)) L.
Proof.
  intros Hs. induction n as [|n IH]; intros a.
  - cbn. symmetry. apply filter_none. apply List.Forall_forall. intros x _.
    unfold key_between.
    destruct (Z.leb_spec a (getBucketKey (timestamp x))); [|reflexivity].
    destruct (Z.ltb_spec (getBucketKey (timestamp x)) (a + Z.of_nat 0));
      [lia | reflexivity].
  - rewrite seqZ_cons by lia. cbn [map concat].
    replace (Z.pred (Z.of_nat (S n))) with (Z.of_nat n) by lia.
    rewrite IH. replace (Z.succ a + Z.of_nat n) with (a + Z.of_nat (S n)) by lia.
    replace (Z.succ a) with (a + 1) by lia.
    apply filter_key_split; [lia | exact Hs].
Qed.

(** The early return on the limit is a truncation. *)
Lemma push_all_unlimited o C r :
  (forall x, limit_reached o x = false) ->
  push_all o C r = Continue (r ++ C).
Proof.
  intros Hlim. revert r. induction C as [|c C IH]; intros r.
  - cbn. now rewrite app_nil_r.
  - cbn [push_all]. rewrite Hlim, IH, <- app_assoc. reflexivity.
Qed.

Lemma limit_reached_spec o n (r : list TradeEntry) :
  limit o = Some n -> n <> 0 -> (1 <= length r)%nat ->
  limit_reached o r = true <-> (Z.to_nat (Z.max 1 n) <= length r)%nat.
Proof.
  intros Hn Hn0 Hr. unfold limit_reached. rewrite Hn.
  destruct (Z.eqb_spec n 0); [contradiction|]. cbn [negb andb].
  rewrite Z.geb_le. lia.
Qed.

Lemma push_all_limited o n C :
  limit o = Some n -> n <> 0 ->
  forall r, (length r < Z.to_nat (Z.max 1 n))%nat ->
    finish (push_all o C r) = r ++ take (Z.to_nat (Z.max 1 n) - length r) C.
Proof.
  intros Hn Hn0. induction C as [|c C IH]; intros r Hr.
  - cbn [push_all finish]. now rewrite take_nil, app_nil_r.
  - cbn [push_all].
    pose proof (limit_reached_spec o n (r ++ [c]) Hn Hn0) as Hspec.
    rewrite length_app in Hspec. cbn [length] in Hspec.
    destruct (limit_reached o (r ++ [c])) eqn:E.
    + assert (Hm : (Z.to_nat (Z.max 1 n) <= length r + 1)%nat)
        by (apply Hspec; [lia | reflexivity]).
      replace (Z.to_nat (Z.max 1 n) - length r)%nat with 1%nat by lia.
      reflexivity.
    + assert (Hm : ~ (Z.to_nat (Z.max 1 n) <= length r + 1)%nat).
      { intros Hm. apply Hspec in Hm; [congruence | lia]. }
      rewrite IH by (rewrite length_app; cbn [length]; lia).
      rewrite length_app. cbn [length].
      replace (Z.to_nat (Z.max 1 n) - length r)%nat
        with (S (Z.to_nat (Z.max 1 n) - (length r + 1)))%nat by lia.
      cbn [take]. now rewrite <- app_assoc.
Qed.

Lemma push_all_truncate o C :
  finish (push_all o C []) = truncate (limit o) C.
Proof.
  unfold truncate. destruct (limit o) as [n|] eqn:Hn.
  - destruct (Z.eqb_spec n 0) as [->|Hn0].
    + rewrite push_all_unlimited; [reflexivity|].
      intros x. unfold limit_reached. now rewrite Hn.
    + rewrite (push_all_limited o n C Hn Hn0) by (cbn [length]; lia).
      cbn [length app]. now rewrite Nat.sub_0_r.
  - rewrite push_all_unlimited; [reflexivity|].
    intros x. unfold limit_reached. now rewrite Hn.
Qed.

(** The range query on any store that holds a sorted list [L]. *)
Lemma getByTimeRange_represents o s L :
  represents s L ->
  getByTimeRange o s = truncate (limit o) (List.filter (in_range o) L).
Proof.
  intros [Hs Hb]. unfold getByTimeRange.
  set (k0 := getBucketKey (start o)). set (k1 := getBucketKey (end_ o - 1)).
  rewrite (scan_buckets_push o (buckets s) L Hs Hb).
  2:{ apply Forall_forall. intros k Hk. apply elem_of_seqZ in Hk. lia. }
  rewrite concat_filter_map.
  replace (seqZ k0 (k1 - k0 + 1)) with (seqZ k0 (Z.of_nat (Z.to_nat (k1 - k0 + 1)))).
  2:{ unfold seqZ. now rewrite Nat2Z.id. }
  rewrite concat_buckets by exact Hs.
  rewrite filter_filter_implies; [apply push_all_truncate|].
  intros x Hx. unfold in_range in Hx.
  rewrite !andb_true_iff, Z.leb_le, Z.ltb_lt in Hx.
  destruct Hx as [[[Hlo Hhi] _] _].
  pose proof (getBucketKey_mono _ _ Hlo).
  assert (timestamp x <= end_ o - 1) as Hhi' by lia.
  pose proof (getBucketKey_mono _ _ Hhi').
  unfold key_between. subst k0 k1.
  destruct (Z.leb_spec (getBucketKey (start o)) (getBucketKey (timestamp x))); [|lia].
  cbn [andb]. apply Z.ltb_lt. lia.
Qed.

End RangeFacts.

(* ===================================================================== *)
(** * Properties of the store                                             *)
(* ===================================================================== *)

Module StoreProperties.

Import Store Spec SortFacts StoreFacts RangeFacts Examples.

(** [sort_by_timestamp] is the stable sort: it permutes its input, its
    output is in timestamp order, and entries sharing a timestamp keep their
    relative order. *)
Lemma sort_insert_perm e l : sort_insert e l ≡ₚ e :: l.
Proof.
  induction l as [|x l IH]; [reflexivity|]. cbn [sort_insert].
  destruct (timestamp x <? timestamp e); [|reflexivity].
  rewrite IH. apply Permutation_swap.
Qed.

Lemma sort_by_timestamp_perm l : sort_by_timestamp l ≡ₚ l.
Proof.
  induction l as [|e l IH]; [reflexivity|]. cbn [sort_by_timestamp].
  now rewrite sort_insert_perm, IH.
Qed.

Lemma sort_insert_stable t e l :
  List.filter (fun x => timestamp x =? t) (sort_insert e l)
  = List.filter (fun x => timestamp x =? t) (e :: l).
Proof.
  induction l as [|x l IH]; [reflexivity|]. cbn [sort_insert].
  destruct (Z.ltb_spec (timestamp x) (timestamp e)) as [Hlt|]; [|reflexivity].
  cbn [List.filter] in *. rewrite IH.
  destruct (Z.eqb_spec (timestamp x) t), (Z.eqb_spec (timestamp e) t);
    try reflexivity; lia.
Qed.

Lemma sort_by_timestamp_stable t l :
  List.filter (fun x => timestamp x =? t) (sort_by_timestamp l)
  = List.filter (fun x => timestamp x =? t) l.
Proof.
  induction l as [|e l IH]; [reflexivity|]. cbn [sort_by_timestamp].
  rewrite sort_insert_stable. cbn [List.filter]. now rewrite IH.
Qed.

(** What the filters of the range query let through. *)
Lemma in_range_spec o e :
  in_range o e = true <->
  start o <= timestamp e < end_ o /\
  (forall src, q_source o = Some src -> src <> "" -> source e = src) /\
  (forall sd, q_side o = Some sd -> side e = sd).
Proof.
  unfold in_range, source_mismatch, side_mismatch.
  rewrite !andb_true_iff, Z.leb_le, Z.ltb_lt, !negb_true_iff. split.
  - intros [[[Hlo Hhi] Hsrc] Hsd]. split; [lia|]. split.
    + intros src Hq Hne. rewrite Hq in Hsrc.
      destruct (String.eqb_spec src ""); [contradiction|]. cbn in Hsrc.
      apply negb_false_iff in Hsrc. now apply String.eqb_eq.
    + intros sd Hq. rewrite Hq in Hsd. apply negb_false_iff in Hsd.
      destruct (side e), sd; (reflexivity || discriminate).
  - intros (Hw & Hsrc & Hsd). repeat split; try lia.
    + destruct (q_source o) as [src|]; [|reflexivity].
      destruct (String.eqb_spec src "") as [|Hne]; [reflexivity|]. cbn.
      apply negb_false_iff, String.eqb_eq. now apply Hsrc.
    + destruct (q_side o) as [sd|]; [|reflexivity].
      apply negb_false_iff. rewrite (Hsd sd eq_refl). now destruct sd.
Qed.

(** C1 (as the code behaves).  [insert] at 5000 followed by
    [insertBatch] of one entry at 1000 is a reachable store whose bucket 0 is
    [5000; 1000]: the batch entry was appended behind a later entry, and the
    bucket is no longer in timestamp order. *)
Theorem insertBatch_breaks_order :
  let s := insertBatch [entry 1000 "batch"] (insert (entry 5000 "single") empty) in
  reachable s /\
  buckets s !! 0 = Some [entry 5000 "single"; entry 1000 "batch"] /\
  ~ buckets_sorted s.
Proof.
  cbv zeta. split; [repeat constructor|]. split; [vm_compute; reflexivity|].
  intros H. specialize (H 0 [entry 5000 "single"; entry 1000 "batch"]).
  assert (E : nondecreasing [entry 5000 "single"; entry 1000 "batch"] = false)
    by reflexivity.
  rewrite H in E; [discriminate|]. vm_compute. reflexivity.
Qed.

(** The range query after [insert] on each element of [S], from the empty
    store: the entries of [S] that lie in [start <= t < end] and pass the
    filters in force, taken from the stable sort of the reversed sequence and
    truncated to the limit in force; a window [t, t) is empty. *)
Lemma getByTimeRange_inserts :
  forall (S : list TradeEntry) (o : TimeRangeQueryOptions),
    getByTimeRange o (inserts S)
    = truncate (limit o) (List.filter (in_range o) (sort_by_timestamp (rev S)))
    /\ forall t src sd lim, getByTimeRange (mkRange t t src sd lim) (inserts S) = [].
Proof.
  intros S o. split.
  - apply getByTimeRange_represents, represents_inserts.
  - intros t src sd lim.
    rewrite (getByTimeRange_represents _ _ _ (represents_inserts S)).
    rewrite filter_none.
    + unfold truncate. cbn [limit]. destruct lim as [n|]; [|reflexivity].
      destruct (n =? 0); [reflexivity | apply take_nil].
    + apply List.Forall_forall. intros x _. unfold in_range. cbn [start end_].
      destruct (Z.leb_spec t (timestamp x)), (Z.ltb_spec (timestamp x) t);
        try reflexivity; lia.
Qed.

(** C2 (as the code behaves).  Two entries with the same timestamp, inserted
    [first] then [second]: the range query returns [second] before [first],
    while the claim predicts insertion order.  The same two entries stored
    through [insertBatch], the second after the first or both in one batch,
    are returned in insertion order. *)
Theorem getByTimeRange_reverses_ties :
  let o := mkRange T (T + 1) None None None in
  getByTimeRange o (inserts [first; second]) = [second; first] /\
  claimed_range o [first; second] = [first; second] /\
  getByTimeRange o (inserts [first; second]) <> claimed_range o [first; second] /\
  getByTimeRange o (insertBatch [second] (insert first empty)) = [first; second] /\
  getByTimeRange o (insertBatch [first; second] empty) = [first; second].
Proof.
  cbv zeta. split; [vm_compute; reflexivity|]. split; [vm_compute; reflexivity|].
  split; [vm_compute; discriminate|]. split; vm_compute; reflexivity.
Qed.

(** Where [insert] puts an entry in a bucket that is in timestamp order:
    behind every entry with a smaller timestamp and in front of every other
    entry of the bucket. *)
Lemma insert_before_ties :
  forall (s : Store.t) (e : TradeEntry),
    let k := getBucketKey (timestamp e) in
    let old := bucket_or_new (buckets s) k in
    nondecreasing old = true ->
    exists new,
      buckets (insert e s) !! k = Some new /\ placed_before_ties e old new.
Proof.
  intros s e k old Hs.
  exists (splice (findInsertIndex old e) e old). split.
  - cbn [insert buckets]. apply lookup_insert_eq.
  - destruct (findFirstAtOrAfter_split old (timestamp e) Hs) as (_ & H1 & H2).
    exists (take (findInsertIndex old e) old), (drop (findInsertIndex old e) old).
    rewrite take_drop. repeat split; assumption.
Qed.

(** C3 (as the code behaves).  [second] inserted into the bucket [[first]],
    both at the same timestamp, lands in front of [first], not behind it.
    [insertBatch] of [second] into the same bucket puts it behind [first],
    and [insert] of [third] into the bucket [[first; second]] that a batch
    built puts it in front of both. *)
Theorem insert_puts_tie_first :
  let s := insert first empty in
  let k := getBucketKey T in
  buckets s !! k = Some [first] /\
  buckets (insert second s) !! k = Some [second; first] /\
  ~ placed_after_ties second [first] [second; first] /\
  buckets (insertBatch [second] s) !! k = Some [first; second] /\
  buckets (insert third (insertBatch [first; second] empty)) !! k
  = Some [third; first; second].
Proof.
  cbv zeta. split; [vm_compute; reflexivity|]. split; [vm_compute; reflexivity|].
  split; [|split; vm_compute; reflexivity].
  intros (pre & post & Hold & Hnew & Hpost).
  destruct pre as [|p pre].
  - cbn in Hold. subst post. inversion Hpost as [|? ? Hne _]. now apply Hne.
  - cbn in Hold, Hnew. inversion Hold as [[Hp Hrest]].
    inversion Hnew as [[Hp' Hrest']]. subst p. discriminate.
Qed.

(** C4 (as the code behaves).  Three entries inserted at one timestamp: the
    bucket holds all three, the binary search lands on the middle one, and
    [getAtTime] returns two of them. *)
Theorem getAtTime_misses_entry :
  let s := inserts [first; second; third] in
  buckets s !! getBucketKey T = Some [third; second; first] /\
  findIndexAtTime [third; second; first] T = 1 /\
  getAtTime T s = [second; first].
Proof.
  cbv zeta. repeat split; vm_compute; reflexivity.
Qed.

(** What the point query returns is stored in the bucket of the target and
    carries the target's timestamp. *)
Lemma collect_at_sound ts es :
  Forall (fun e => timestamp e = ts /\ In e es) (collect_at ts es).
Proof.
  induction es as [|e es IH]; [constructor|]. cbn [collect_at].
  destruct (Z.eqb_spec (timestamp e) ts) as [Heq|]; [|constructor].
  constructor; [split; [exact Heq | now left]|].
  eapply Forall_impl; [exact IH|]. intros x [Hx Hin]. split; [exact Hx | now right].
Qed.

Lemma getAtTime_sound ts s :
  Forall (fun e => timestamp e = ts /\ stored s e) (getAtTime ts s).
Proof.
  unfold getAtTime. destruct (buckets s !! getBucketKey ts) as [bucket|] eqn:Eb;
    [|constructor].
  destruct (findIndexAtTime bucket ts =? -1); [constructor|].
  eapply Forall_impl; [apply collect_at_sound|].
  intros x [Hx Hin]. split; [exact Hx|].
  exists (getBucketKey ts), bucket. split; [exact Eb|].
  apply list_elem_of_In. eapply subseteq_drop, list_elem_of_In, Hin.
Qed.

(** What the nearest query returns is stored and within the tolerance. *)
Lemma entry_at_or_after_In bucket i x :
  entry_at_or_after bucket i = Some x -> In x bucket.
Proof.
  unfold entry_at_or_after. destruct (i <? length bucket)%nat; [|discriminate].
  intros H. apply list_elem_of_In. eapply list_elem_of_lookup_2, H.
Qed.

Lemma entry_before_In bucket i x :
  entry_before bucket i = Some x -> In x bucket.
Proof.
  unfold entry_before. destruct (0 <? i)%nat; [|discriminate].
  intros H. apply list_elem_of_In. eapply list_elem_of_lookup_2, H.
Qed.

Lemma nearest_in_bucket_sound bucket ts tolerance e :
  nearest_in_bucket bucket ts tolerance = Some e ->
  In e bucket /\ distance ts e <= tolerance.
Proof.
  unfold nearest_in_bucket, distance.
  destruct (entry_at_or_after bucket (findFirstAtOrAfter bucket ts)) as [a|] eqn:Ea;
  destruct (entry_before bucket (findFirstAtOrAfter bucket ts)) as [b|] eqn:Eb;
  cbv zeta; cbn [fst snd dist_lt];
  repeat (match goal with
          | |- context [Z.leb ?x ?y] => destruct (Z.leb_spec x y)
          | |- context [Z.ltb ?x ?y] => destruct (Z.ltb_spec x y)
          end; cbn [fst snd dist_lt]);
  intros Hres; inversion Hres; subst;
  (split; [eauto using entry_at_or_after_In, entry_before_In | assumption]).
Qed.

Lemma consider_sound (P : TradeEntry -> Prop) ts tolerance st c :
  (forall e, fst st = Some e -> P e /\ distance ts e <= tolerance) ->
  (forall x, c = Some x -> P x) ->
  forall e, fst (consider ts tolerance st c) = Some e ->
            P e /\ distance ts e <= tolerance.
Proof.
  intros Hst Hc e. unfold consider. destruct c as [x|]; [|apply Hst].
  destruct (Z.leb_spec (Z.abs (timestamp x - ts)) tolerance); cbn [andb]; [|apply Hst].
  destruct (dist_lt _ _); [|apply Hst].
  cbn [fst]. intros [= <-]. split; [now apply Hc | assumption].
Qed.

Lemma adjacent_sound ts tolerance s :
  forall e,
    fst (fold_left (consider_bucket ts tolerance)
           [buckets s !! (getBucketKey ts - 1); buckets s !! (getBucketKey ts + 1)]
           (None, None)) = Some e ->
    stored s e /\ distance ts e <= tolerance.
Proof.
  cbn [fold_left].
  assert (Hstep : forall k st,
    (forall e, fst st = Some e -> stored s e /\ distance ts e <= tolerance) ->
    forall e, fst (consider_bucket ts tolerance st (buckets s !! k)) = Some e ->
              stored s e /\ distance ts e <= tolerance).
  { intros k st Hst. unfold consider_bucket.
    destruct (buckets s !! k) as [adj|] eqn:Ek; [|exact Hst].
    destruct (length adj =? 0)%nat; [exact Hst|]. cbn [fold_left].
    apply consider_sound; [apply consider_sound; [exact Hst|]|].
    - intros x Hx. exists k, adj. split; [exact Ek|].
      eapply entry_at_or_after_In, Hx.
    - intros x Hx. exists k, adj. split; [exact Ek|].
      eapply entry_before_In, Hx. }
  apply Hstep, Hstep. cbn. discriminate.
Qed.

Lemma getNearest_sound ts tolerance s e :
  getNearest ts tolerance s = Some e ->
  stored s e /\ distance ts e <= tolerance.
Proof.
  unfold getNearest.
  destruct (buckets s !! getBucketKey ts) as [bucket|] eqn:Eb.
  - destruct (0 <? length bucket)%nat.
    + destruct (nearest_in_bucket bucket ts tolerance) as [x|] eqn:En.
      * intros [= <-]. apply nearest_in_bucket_sound in En as [Hin Hd].
        split; [|exact Hd]. now exists (getBucketKey ts), bucket.
      * revert e. apply adjacent_sound.
    + revert e. apply adjacent_sound.
  - revert e. apply adjacent_sound.
Qed.

(** C5 (as the code behaves).  Entries at 0 and at 60000, target 59999 with
    the default tolerance: the entry at 60000 is at distance 1, but the search
    returns the entry at 0, found in the bucket of the target, at distance
    59999. *)
Theorem getNearest_not_nearest :
  let s := inserts [entry 0 "far"; entry 60000 "near"] in
  getNearest 59999 DEFAULT_TOLERANCE s = Some (entry 0 "far") /\
  stored s (entry 60000 "near") /\
  distance 59999 (entry 60000 "near") = 1 /\
  distance 59999 (entry 0 "far") = 59999.
Proof.
  cbv zeta. split; [vm_compute; reflexivity|]. split.
  - exists 1, [entry 60000 "near"]. split; [vm_compute; reflexivity | now left].
  - split; reflexivity.
Qed.

(** C6 (as the code behaves).  Entries at 30000 (bucket 0) and 150000
    (bucket 2), target 90000 (bucket 1) with tolerance 60000: both are at
    distance 60000, and the search returns the earlier one. *)
Theorem getNearest_adjacent_tie :
  let s := inserts [entry 30000 "before"; entry 150000 "after"] in
  getBucketKey 30000 = 0 /\ getBucketKey 90000 = 1 /\ getBucketKey 150000 = 2 /\
  distance 90000 (entry 30000 "before") = distance 90000 (entry 150000 "after") /\
  getNearest 90000 60000 s = Some (entry 30000 "before").
Proof.
  cbv zeta. repeat split; vm_compute; reflexivity.
Qed.

(** Inside the bucket of the target a tie goes to the later candidate: the
    entry at or after the target is looked at first, and the entry before it
    replaces it only when strictly nearer. *)
Lemma nearest_in_bucket_tie bucket ts tolerance a b :
  entry_at_or_after bucket (findFirstAtOrAfter bucket ts) = Some a ->
  entry_before bucket (findFirstAtOrAfter bucket ts) = Some b ->
  distance ts a = distance ts b ->
  distance ts a <= tolerance ->
  nearest_in_bucket bucket ts tolerance = Some a.
Proof.
  unfold distance, nearest_in_bucket. intros Ha Hb Heq Htol.
  rewrite Ha, Hb. cbn [snd fst dist_lt].
  destruct (Z.leb_spec (Z.abs (timestamp a - ts)) tolerance); [|lia].
  cbn [snd fst dist_lt].
  destruct (Z.leb_spec (Z.abs (timestamp b - ts)) tolerance); [|reflexivity].
  destruct (Z.ltb_spec (Z.abs (timestamp b - ts)) (Z.abs (timestamp a - ts)));
    [lia | reflexivity].
Qed.

(** C10 (as stated, refuted).  Two batch listeners, the first of which
    throws: [insertBatch] of the empty sequence invokes the first, throws its
    exception, and never invokes the second. *)
Lemma insertBatch_nil_listener_throws :
  let s := guarded_store in
  batchListeners s = [1%nat; 2%nat] /\
  delivered s = [] /\
  delivered (insertBatch [] s) = [BatchEvent 1%nat []] /\
  insertBatch_throws [] s = Some "listener failed" /\
  ~ In (BatchEvent 2%nat []) (delivered (insertBatch [] s)).
Proof.
  cbv zeta. repeat split; try (vm_compute; reflexivity).
  vm_compute. intros [H|[]]. discriminate.
Qed.

(** C10 (amended).  [insertBatch] of the empty sequence leaves the buckets,
    the count, the two extrema and the listeners as they were, and emits one
    batch event with the empty sequence: the batch listeners are invoked with
    it in registration order, up to and including the first that throws,
    whose exception ends [insertBatch]; when none throws each is invoked
    once. *)
Theorem insertBatch_nil :
  forall s : Store.t,
    buckets (insertBatch [] s) = buckets s /\
    totalCount (insertBatch [] s) = totalCount s /\
    minTimestamp (insertBatch [] s) = minTimestamp s /\
    maxTimestamp (insertBatch [] s) = maxTimestamp s /\
    bucketCount (insertBatch [] s) = bucketCount s /\
    entryListeners (insertBatch [] s) = entryListeners s /\
    batchListeners (insertBatch [] s) = batchListeners s /\
    exists made,
      delivered (insertBatch [] s) = delivered s ++ made /\
      delivered_until_throw (invoke s)
        (map (fun cb => BatchEvent cb []) (batchListeners s))
        made (insertBatch_throws [] s).
Proof.
  intros s. do 7 (split; [reflexivity|]).
  exists (fst (emit_batch s [])). split; [reflexivity|].
  apply emit_delivered.
Qed.

End StoreProperties.

(* ===================================================================== *)
(** * Properties of the loader                                            *)
(* ===================================================================== *)

Module LoaderProperties.

Import Loader LoaderSpec Examples.

Lemma validate_not_null entry :
  not_null entry = true -> validate entry = Ok (accepted entry).
Proof.
  destruct entry; intros H; try discriminate; reflexivity.
Qed.

Lemma filter_entries_not_null entries :
  forallb not_null entries = true ->
  filter_entries entries = Ok (List.filter accepted entries).
Proof.
  induction entries as [|entry rest IH]; intros H; [reflexivity|].
  cbn [forallb] in H. apply andb_true_iff in H as [Hn Hrest].
  cbn [filter_entries List.filter].
  rewrite (validate_not_null entry Hn), (IH Hrest). reflexivity.
Qed.

(** What [accepted] asks of a row. *)
Lemma accepted_spec entry :
  accepted entry = true <->
  exists members ts pr sz sd src,
    entry = JObj members /\
    members !! "timestamp" = Some (JNum ts) /\
    members !! "price" = Some (JNum pr) /\
    members !! "size" = Some (JNum sz) /\
    members !! "side" = Some (JStr sd) /\ (sd = "buy" \/ sd = "sell") /\
    members !! "source" = Some (JStr src).
Proof.
  unfold accepted, field. split.
  - intros H. rewrite !andb_true_iff in H.
    destruct H as [[[[Hts Hpr] Hsz] Hsd] Hsrc].
    destruct entry as [| | | | |members]; try discriminate.
    destruct (members !! "timestamp") as [[| |ts| | |]|] eqn:Ets; try discriminate.
    destruct (members !! "price") as [[| |pr| | |]|] eqn:Epr; try discriminate.
    destruct (members !! "size") as [[| |sz| | |]|] eqn:Esz; try discriminate.
    destruct (members !! "side") as [[| | |sd| |]|] eqn:Esd; try discriminate.
    destruct (members !! "source") as [[| | |src| |]|] eqn:Esrc; try discriminate.
    assert (Hv : sd = "buy" \/ sd = "sell").
    { cbn in Hsd. apply orb_true_iff in Hsd as [Hsd|Hsd];
        apply String.eqb_eq in Hsd; auto. }
    exists members, ts, pr, sz, sd, src. repeat split; auto.
  - intros (members & ts & pr & sz & sd & src & -> & Hts & Hpr & Hsz & Hsd & Hv & Hsrc).
    rewrite Hts, Hpr, Hsz, Hsd, Hsrc. cbn.
    destruct Hv as [-> | ->]; reflexivity.
Qed.

(** C7 (as stated, refuted).  A row whose price is infinite is kept. *)
Lemma loadFile_keeps_infinite_price :
  loadFile "a.json" (Parsed (JArr [overflow_row])) = Ok [overflow_row] /\
  field overflow_row "price" = Some (JNum PosInfinity) /\
  claimed_valid overflow_row = false.
Proof.
  repeat split; vm_compute; reflexivity.
Qed.

(** C7 (amended).  For a parsed payload none of whose candidate rows is
    [null], the loader returns, in payload order, exactly the rows whose
    [timestamp], [price] and [size] are numbers (finite or not), whose [side]
    is ["buy"] or ["sell"] and whose [source] is a string; the other rows are
    dropped and the load goes on. *)
Theorem loadFile_keeps_accepted :
  forall (key : string) (data : JSON),
    forallb not_null (candidates data) = true ->
    loadFile key (Parsed data) = Ok (List.filter accepted (candidates data)).
Proof.
  intros key data H. cbn [loadFile]. now apply filter_entries_not_null.
Qed.

Lemma loadFile_keeps_accepted_witness :
  forallb not_null
    (candidates (JArr [good_row; priceless_row; JStr "junk"; overflow_row])) = true /\
  loadFile "a.json"
    (Parsed (JArr [good_row; priceless_row; JStr "junk"; overflow_row]))
  = Ok (List.filter accepted
          (candidates (JArr [good_row; priceless_row; JStr "junk"; overflow_row]))).
Proof.
  split; [vm_compute; reflexivity|].
  apply (loadFile_keeps_accepted "a.json"
           (JArr [good_row; priceless_row; JStr "junk"; overflow_row])).
  vm_compute. reflexivity.
Defined.

(** The payload of four candidates above yields two rows. *)
Lemma loadFile_mixed_payload :
  loadFile "a.json"
    (Parsed (JArr [good_row; priceless_row; JStr "junk"; overflow_row]))
  = Ok [good_row; overflow_row].
Proof. vm_compute. reflexivity. Qed.

(** A [null] row is not dropped: reading its [timestamp] throws, and the
    whole object fails to load. *)
Lemma loadFile_null_row :
  loadFile "a.json" (Parsed (JArr [good_row; JNull]))
  = Threw "Cannot read properties of null (reading 'timestamp')".
Proof. vm_compute. reflexivity. Qed.

End LoaderProperties.

(* ===================================================================== *)
(** * Properties of the query API                                         *)
(* ===================================================================== *)

Module ConsumerProperties.

Import Consumer Examples.

(** The point queries of [unfilled_getAtTime] and [unfilled_getNearest] are
    those of a new store, whatever its callbacks do. *)
Lemma unfilled_is_new behaviour ts tolerance :
  unfilled_getAtTime (Finite ts) = Store.getAtTime ts (Store.new behaviour) /\
  unfilled_getNearest (Finite ts) tolerance
  = Store.getNearest ts (default Store.DEFAULT_TOLERANCE tolerance)
      (Store.new behaviour).
Proof.
  split; [reflexivity|].
  unfold Store.getNearest, Store.new. cbn [Store.buckets].
  rewrite !lookup_empty. reflexivity.
Qed.



End ConsumerProperties.

(* ===================================================================== *)
(** * Properties of the ingestion coordinator                             *)
(* ===================================================================== *)

Module IngesterProperties.

Import Ingester IngesterSpec Examples.

(** A key of the processed set is skipped by the record loop of
    [processSqsMessages] and by the object loop of [poll]. *)
Lemma discover_processed loadFile st key :
  key ∈ processedKeys st -> discover loadFile st (Some key) = st.
Proof.
  intros H. unfold discover.
  destruct (negb (endsWith key ".json")); [reflexivity|].
  now rewrite bool_decide_eq_true_2.
Qed.

Lemma discover_all_processed loadFile st cs :
  all_processed st cs -> fold_left (discover loadFile) cs st = st.
Proof.
  induction 1 as [|c cs Hc _ IH]; [reflexivity|]. cbn [fold_left].
  destruct c as [key|]; [rewrite discover_processed by exact Hc|]; exact IH.
Qed.

(** A polling pass that lists only processed keys loads nothing and leaves
    the coordinator, its store included, as it was. *)
Lemma poll_processed loadFile st listing :
  Forall (fun page => match page with
                      | Some cs => all_processed st cs
                      | None => True
                      end) listing ->
  poll loadFile listing st = st.
Proof.
  unfold poll. induction 1 as [|page listing Hp _ IH]; [reflexivity|].
  cbn [fold_left]. destruct page as [cs|]; cbn [poll_page].
  - now rewrite discover_all_processed.
  - exact IH.
Qed.

(** The record loop discovers the keys in front of the first unreadable
    record, and throws when there is one. *)
Lemma process_records_read loadFile rs st :
  process_records loadFile rs st
  = (fold_left (discover loadFile) (readable_keys rs) st,
     negb (forallb readable rs)).
Proof.
  revert st. induction rs as [|r rs IH]; intros st; [reflexivity|].
  destruct r as [candidate|]; [|reflexivity].
  cbn [process_records readable_keys fold_left forallb readable andb]. apply IH.
Qed.

(** A notification whose records are readable and name only processed keys
    loads nothing and inserts nothing; the message is deleted. *)
Lemma processSqsMessage_processed loadFile st rs receipt :
  forallb readable rs = true ->
  all_processed st (readable_keys rs) ->
  processSqsMessage loadFile st (Notification (Some rs) receipt)
  = mkIngester (store st) (processedKeys st) (loads st) (deleted st ++ [receipt]).
Proof.
  intros Hr H. cbn [processSqsMessage].
  rewrite process_records_read, Hr, discover_all_processed by exact H.
  reflexivity.
Qed.

(** C8 (as the code behaves).  A backfill admits ["a.json"] to the processed
    set; a second backfill over the same listing loads ["a.json"] again and
    inserts its row again. *)
Theorem loadInitialData_reloads_processed :
  let st1 := fst (loadInitialData one_object one_page (init Store.empty)) in
  let '(st2, r2) := loadInitialData one_object one_page st1 in
  bool_decide ("a.json" ∈ processedKeys st1) = true /\
  loads st1 = ["a.json"] /\ Store.totalCount (store st1) = 1%nat /\
  loads st2 = ["a.json"; "a.json"] /\ Store.totalCount (store st2) = 2%nat /\
  filesProcessed r2 = 1%nat /\ entriesLoaded r2 = 1%nat.
Proof.
  vm_compute. repeat split.
Qed.

(** On the same state the polling pass and the notification path skip the
    key. *)
Lemma poll_skips_processed :
  let st1 := fst (loadInitialData one_object one_page (init Store.empty)) in
  poll one_object one_page st1 = st1 /\
  loads (processSqsMessages one_object
           [Notification (Some [Keyed (Some "a.json")]) "r1"] st1) = ["a.json"] /\
  Store.totalCount
    (store (processSqsMessages one_object
              [Notification (Some [Keyed (Some "a.json")]) "r1"] st1)) = 1%nat.
Proof.
  cbv zeta. split; [|split; vm_compute; reflexivity].
  apply poll_processed. repeat constructor.
Qed.

End IngesterProperties.

(* ===================================================================== *)
(** * Further properties of the store                                     *)
(* ===================================================================== *)

Module StoreInvariants.

Import Store Spec SortFacts StoreFacts.

Lemma total_length_insert (bs : gmap Z (list TradeEntry)) k b' :
  (total_length (<[k := b']> bs) + length (bucket_or_new bs k)
   = total_length bs + length b')%nat.
Proof.
  assert (Hcomm : forall (m : gmap Z (list TradeEntry)) x,
    m !! k = None ->
    total_length (<[k := x]> m) = (length x + total_length m)%nat).
  { intros m x Hm. unfold total_length.
    apply (map_fold_insert_L (fun _ b n => (length b + n)%nat)); [|exact Hm].
    intros; lia. }
  unfold bucket_or_new. destruct (bs !! k) as [b|] eqn:Ek.
  - rewrite <- (insert_delete_eq bs k b').
    rewrite <- (insert_delete_id bs k b Ek) at 2.
    rewrite !Hcomm by apply lookup_delete_eq. lia.
  - rewrite Hcomm by exact Ek. cbn [length]. lia.
Qed.

Lemma length_splice i e (b : list TradeEntry) :
  length (splice i e b) = S (length b).
Proof.
  unfold splice. rewrite length_app. cbn [length].
  rewrite <- (take_drop i b) at 3. rewrite length_app. lia.
Qed.

Lemma insert_total_length e s :
  totalCount s = total_length (buckets s) ->
  totalCount (insert e s) = total_length (buckets (insert e s)).
Proof.
  intros H. cbn [insert totalCount buckets].
  pose proof (total_length_insert (buckets s) (getBucketKey (timestamp e))
    (splice (findInsertIndex (bucket_or_new (buckets s) (getBucketKey (timestamp e))) e)
            e (bucket_or_new (buckets s) (getBucketKey (timestamp e))))) as Hl.
  rewrite length_splice in Hl. lia.
Qed.

Lemma push_entry_total_length e s :
  totalCount s = total_length (buckets s) ->
  totalCount (push_entry e s) = total_length (buckets (push_entry e s)).
Proof.
  intros H. cbn [push_entry totalCount buckets].
  pose proof (total_length_insert (buckets s) (getBucketKey (timestamp e))
    (bucket_or_new (buckets s) (getBucketKey (timestamp e)) ++ [e])) as Hl.
  rewrite length_app in Hl. cbn [length] in Hl. lia.
Qed.

(** An invariant of [push_entry] on the four data fields is an invariant of
    [insertBatch]. *)
Lemma insertBatch_invariant
    (P : gmap Z (list TradeEntry) -> nat -> option Z -> option Z -> Prop) :
  (forall e s,
      P (buckets s) (totalCount s) (minTimestamp s) (maxTimestamp s) ->
      P (buckets (push_entry e s)) (totalCount (push_entry e s))
        (minTimestamp (push_entry e s)) (maxTimestamp (push_entry e s))) ->
  forall es s,
    P (buckets s) (totalCount s) (minTimestamp s) (maxTimestamp s) ->
    P (buckets (insertBatch es s)) (totalCount (insertBatch es s))
      (minTimestamp (insertBatch es s)) (maxTimestamp (insertBatch es s)).
Proof.
  intros Hstep es s Hs. unfold insertBatch.
  cbn [buckets totalCount minTimestamp maxTimestamp].
  generalize (sort_by_timestamp es). intros l. revert s Hs.
  induction l as [|e l IH]; intros s Hs; [exact Hs|].
  cbn [fold_left]. apply IH, Hstep, Hs.
Qed.

(** An invariant of the data fields that [insert] and [push_entry] keep and
    the empty store has holds in every reachable store. *)
Lemma reachable_invariant
    (P : gmap Z (list TradeEntry) -> nat -> option Z -> option Z -> Prop) :
  P ∅ 0%nat None None ->
  (forall e s,
      P (buckets s) (totalCount s) (minTimestamp s) (maxTimestamp s) ->
      P (buckets (insert e s)) (totalCount (insert e s))
        (minTimestamp (insert e s)) (maxTimestamp (insert e s))) ->
  (forall e s,
      P (buckets s) (totalCount s) (minTimestamp s) (maxTimestamp s) ->
      P (buckets (push_entry e s)) (totalCount (push_entry e s))
        (minTimestamp (push_entry e s)) (maxTimestamp (push_entry e s))) ->
  forall s, reachable s ->
    P (buckets s) (totalCount s) (minTimestamp s) (maxTimestamp s).
Proof.
  intros H0 Hins Hpush s.
  induction 1 as [|e s _ IH|es s _ IH|s _ _|cb s _ IH|cb s _ IH|behaviour].
  - exact H0.
  - now apply Hins.
  - now apply insertBatch_invariant.
  - exact H0.
  - exact IH.
  - exact IH.
  - exact H0.
Qed.

(** X1.  In every reachable store the count of entries is the sum of the
    lengths of the buckets. *)
Theorem reachable_totalCount :
  forall s, reachable s -> totalCount s = total_length (buckets s).
Proof.
  apply (reachable_invariant (fun bs n _ _ => n = total_length bs)).
  - reflexivity.
  - intros e s. apply insert_total_length.
  - intros e s. apply push_entry_total_length.
Qed.

Lemma held_in_insert (bs : gmap Z (list TradeEntry)) k b' e :
  (forall y, In y b' <-> y = e \/ In y (bucket_or_new bs k)) ->
  forall x, held_in (<[k := b']> bs) x <-> x = e \/ held_in bs x.
Proof.
  intros Hb' x. unfold held_in. split.
  - intros (k' & b & Hk & Hin). rewrite lookup_insert in Hk.
    destruct (decide (k = k')) as [<-|Hne].
    + injection Hk as <-. apply Hb' in Hin as [->|Hin]; [now left|].
      right. unfold bucket_or_new in Hin.
      destruct (bs !! k) as [b|] eqn:Ek; [|contradiction]. eauto.
    + right. eauto.
  - intros [->|(k' & b & Hk & Hin)].
    + exists k, b'. rewrite lookup_insert_eq. split; [reflexivity|].
      apply Hb'. now left.
    + destruct (decide (k = k')) as [<-|Hne].
      * exists k, b'. rewrite lookup_insert_eq. split; [reflexivity|].
        apply Hb'. right. unfold bucket_or_new. now rewrite Hk.
      * exists k', b. now rewrite lookup_insert_ne.
Qed.

Lemma In_splice i e (b : list TradeEntry) y :
  In y (splice i e b) <-> y = e \/ In y b.
Proof.
  unfold splice. rewrite <- (take_drop i b) at 3.
  rewrite !in_app_iff. cbn [In]. intuition congruence.
Qed.

Lemma In_snoc e (b : list TradeEntry) y : In y (b ++ [e]) <-> y = e \/ In y b.
Proof. rewrite in_app_iff. cbn [In]. intuition congruence. Qed.

Lemma held_in_after_insert e s x :
  held_in (buckets (insert e s)) x <-> x = e \/ held_in (buckets s) x.
Proof. cbn [insert buckets]. apply held_in_insert. intros y. apply In_splice. Qed.

Lemma held_in_after_push e s x :
  held_in (buckets (push_entry e s)) x <-> x = e \/ held_in (buckets s) x.
Proof. cbn [push_entry buckets]. apply held_in_insert. intros y. apply In_snoc. Qed.

Lemma update_min_eq mn ts :
  update_min mn ts
  = Some (match mn with Some m => Z.min ts m | None => ts end).
Proof.
  destruct mn as [m|]; [|reflexivity]. cbn.
  destruct (Z.ltb_spec ts m); f_equal; lia.
Qed.

Lemma update_max_eq mx ts :
  update_max mx ts
  = Some (match mx with Some m => Z.max ts m | None => ts end).
Proof.
  destruct mx as [m|]; [|reflexivity]. cbn. rewrite Z.gtb_ltb.
  destruct (Z.ltb_spec m ts); f_equal; lia.
Qed.

(** Adding one entry keeps the extrema right. *)
Lemma extrema_step bs bs' n mn mx e :
  (forall x, held_in bs' x <-> x = e \/ held_in bs x) ->
  extrema_of bs n mn mx ->
  extrema_of bs' (S n) (update_min mn (timestamp e)) (update_max mx (timestamp e)).
Proof.
  intros Hheld (Hbound & Hmin & Hmax & Hmn & Hmx).
  rewrite update_min_eq, update_max_eq. unfold extrema_of. repeat split.
  - intros x Hx. do 2 eexists. split; [reflexivity|]. split; [reflexivity|].
    apply Hheld in Hx as [->|Hx].
    + destruct mn, mx; lia.
    + destruct (Hbound x Hx) as (lo & hi & -> & -> & Hlo). lia.
  - intros lo [= <-]. destruct mn as [m|].
    + destruct (Z.min_spec (timestamp e) m) as [[_ ->]|[_ ->]].
      * exists e. split; [apply Hheld; now left | reflexivity].
      * destruct (Hmin m eq_refl) as (x & Hx & Hts).
        exists x. split; [apply Hheld; now right | exact Hts].
    + exists e. split; [apply Hheld; now left | reflexivity].
  - intros hi [= <-]. destruct mx as [m|].
    + destruct (Z.max_spec (timestamp e) m) as [[_ ->]|[_ ->]].
      * destruct (Hmax m eq_refl) as (x & Hx & Hts).
        exists x. split; [apply Hheld; now right | exact Hts].
      * exists e. split; [apply Hheld; now left | reflexivity].
    + exists e. split; [apply Hheld; now left | reflexivity].
  - discriminate.
  - discriminate.
  - discriminate.
  - discriminate.
Qed.

Lemma extrema_empty : extrema_of ∅ 0 None None.
Proof.
  unfold extrema_of. repeat split; try discriminate.
  intros e (k & b & Hk & _). now rewrite lookup_empty in Hk.
Qed.

(** X2.  In every reachable store [minTimestamp] and [maxTimestamp] bound the
    timestamp of every stored entry, each is the timestamp of some stored
    entry, and each is [null] exactly when the store holds no entry. *)
Theorem reachable_extrema :
  forall s, reachable s ->
    extrema_of (buckets s) (totalCount s) (minTimestamp s) (maxTimestamp s).
Proof.
  apply (reachable_invariant extrema_of).
  - apply extrema_empty.
  - intros e s. apply extrema_step. intros x. apply held_in_after_insert.
  - intros e s. apply extrema_step. intros x. apply held_in_after_push.
Qed.

Lemma reachable_extrema_witness :
  reachable Examples.busy_store /\
  extrema_of (buckets Examples.busy_store) (totalCount Examples.busy_store)
             (minTimestamp Examples.busy_store) (maxTimestamp Examples.busy_store).
Proof.
  assert (H : reachable Examples.busy_store) by (repeat constructor).
  split; [exact H | apply (reachable_extrema Examples.busy_store H)].
Defined.

Lemma reachable_totalCount_witness :
  reachable Examples.busy_store /\
  totalCount Examples.busy_store = total_length (buckets Examples.busy_store).
Proof.
  assert (H : reachable Examples.busy_store) by (repeat constructor).
  split; [exact H | apply (reachable_totalCount Examples.busy_store H)].
Defined.

Lemma no_empty_bucket_insert (bs : gmap Z (list TradeEntry)) k b' :
  b' <> [] -> no_empty_bucket bs -> no_empty_bucket (<[k := b']> bs).
Proof.
  intros Hb' Hbs k' b. rewrite lookup_insert.
  destruct (decide (k = k')); [intros [= <-]; exact Hb' | apply Hbs].
Qed.

Lemma size_le_total_length (bs : gmap Z (list TradeEntry)) :
  no_empty_bucket bs -> (base.size bs <= total_length bs)%nat.
Proof.
  induction bs as [|k b bs Hk _ IH] using map_first_key_ind.
  - intros _. rewrite map_size_empty. lia.
  - intros Hne. rewrite map_size_insert_None by exact Hk.
    pose proof (total_length_insert bs k b) as Hl.
    unfold bucket_or_new in Hl. rewrite Hk in Hl. cbn [length] in Hl.
    assert (b <> []) by (apply (Hne k); apply lookup_insert_eq).
    assert (base.size bs <= total_length bs)%nat.
    { apply IH. intros k' b' Hk'. apply (Hne k').
      rewrite lookup_insert_ne; [exact Hk'|]. congruence. }
    destruct b; [contradiction|]. cbn [length] in Hl. lia.
Qed.

(** X3.  No reachable store holds an empty bucket, so the number of buckets
    that [getStats] reports never exceeds the number of entries. *)
Theorem reachable_no_empty_bucket :
  forall s, reachable s ->
    no_empty_bucket (buckets s) /\ (bucketCount s <= totalEntries s)%nat.
Proof.
  intros s Hs.
  assert (Hne : no_empty_bucket (buckets s)).
  { revert s Hs.
    apply (reachable_invariant (fun bs _ _ _ => no_empty_bucket bs)).
    - intros k b Hk. now rewrite lookup_empty in Hk.
    - intros e s. cbn [insert buckets]. apply no_empty_bucket_insert.
      intros E. pose proof (length_splice
        (findInsertIndex (bucket_or_new (buckets s) (getBucketKey (timestamp e))) e)
        e (bucket_or_new (buckets s) (getBucketKey (timestamp e)))) as Hl.
      rewrite E in Hl. discriminate.
    - intros e s. cbn [push_entry buckets]. apply no_empty_bucket_insert.
      intros E. apply app_eq_nil in E as [_ E]. discriminate. }
  split; [exact Hne|].
  unfold bucketCount, totalEntries.
  rewrite (reachable_invariant (fun bs n _ _ => n = total_length bs) eq_refl
             insert_total_length push_entry_total_length s Hs).
  now apply size_le_total_length.
Qed.

Lemma reachable_no_empty_bucket_witness :
  reachable Examples.busy_store /\
  no_empty_bucket (buckets Examples.busy_store) /\
  (bucketCount Examples.busy_store <= totalEntries Examples.busy_store)%nat.
Proof.
  assert (H : reachable Examples.busy_store) by (repeat constructor).
  split; [exact H | apply (reachable_no_empty_bucket Examples.busy_store H)].
Defined.

(** X4.  [insert] touches one bucket only; there it adds the entry and
    nothing else, and the entries already in the bucket keep their order. *)
Theorem insert_one_bucket :
  forall (e : TradeEntry) (s : Store.t),
    (forall k, k <> getBucketKey (timestamp e) ->
               buckets (insert e s) !! k = buckets s !! k) /\
    exists new,
      buckets (insert e s) !! getBucketKey (timestamp e) = Some new /\
      new ≡ₚ e :: bucket_or_new (buckets s) (getBucketKey (timestamp e)) /\
      bucket_or_new (buckets s) (getBucketKey (timestamp e)) `sublist_of` new.
Proof.
  intros e s. cbn [insert buckets]. split.
  - intros k Hk. now rewrite lookup_insert_ne.
  - eexists. split; [apply lookup_insert_eq|].
    set (b := bucket_or_new (buckets s) (getBucketKey (timestamp e))).
    set (i := findInsertIndex b e). unfold splice. split.
    + rewrite <- Permutation_middle, take_drop. reflexivity.
    + rewrite <- (take_drop i b) at 1.
      apply sublist_app; [reflexivity|]. now apply sublist_cons.
Qed.

Lemma held_in_after_pushes l :
  forall s x,
    held_in (buckets (fold_left (fun acc e => push_entry e acc) l s)) x
    <-> In x l \/ held_in (buckets s) x.
Proof.
  induction l as [|e l IH]; intros s x; cbn [fold_left In]; [tauto|].
  rewrite IH, held_in_after_push. intuition congruence.
Qed.

Lemma In_sort_by_timestamp x l : In x (sort_by_timestamp l) <-> In x l.
Proof.
  induction l as [|e l IH]; [reflexivity|]. cbn [sort_by_timestamp In].
  rewrite <- IH. generalize (sort_by_timestamp l). intros l'.
  induction l' as [|y l' IH']; cbn [sort_insert In]; [tauto|].
  destruct (timestamp y <? timestamp e); cbn [In]; [rewrite IH'|]; tauto.
Qed.

(** X5.  After [insert] the store holds the entry and what it held before;
    after [insertBatch] it holds the entries of the batch and what it held
    before: nothing is lost and nothing else appears. *)
Theorem stored_after_mutation :
  forall (s : Store.t) (x : TradeEntry),
    (forall e, stored (insert e s) x <-> x = e \/ stored s x) /\
    (forall es, stored (insertBatch es s) x <-> In x es \/ stored s x) /\
    ~ stored (clear s) x.
Proof.
  intros s x. split; [|split].
  - intros e. apply held_in_after_insert.
  - intros es. unfold stored. rewrite insertBatch_buckets.
    rewrite <- (In_sort_by_timestamp x es). apply held_in_after_pushes.
  - intros (k & b & Hk & _). cbn in Hk. now rewrite lookup_empty in Hk.
Qed.

Lemma pushes_frame l :
  forall s,
    entryListeners (fold_left (fun acc e => push_entry e acc) l s) = entryListeners s /\
    batchListeners (fold_left (fun acc e => push_entry e acc) l s) = batchListeners s /\
    delivered (fold_left (fun acc e => push_entry e acc) l s) = delivered s /\
    totalCount (fold_left (fun acc e => push_entry e acc) l s)
    = (totalCount s + length l)%nat.
Proof.
  induction l as [|e l IH]; intros s; cbn [fold_left length].
  - repeat split. lia.
  - destruct (IH (push_entry e s)) as (-> & -> & -> & ->).
    cbn [push_entry entryListeners batchListeners delivered totalCount].
    repeat split. lia.
Qed.

Lemma length_sort_by_timestamp l : length (sort_by_timestamp l) = length l.
Proof.
  induction l as [|e l IH]; [reflexivity|]. cbn [sort_by_timestamp length].
  rewrite <- IH. generalize (sort_by_timestamp l). intros l'.
  induction l' as [|y l' IH']; cbn [sort_insert length]; [reflexivity|].
  destruct (timestamp y <? timestamp e); cbn [length]; [now rewrite IH'|reflexivity].
Qed.

Lemma insertBatch_totalCount es s :
  totalCount (insertBatch es s) = (totalCount s + length es)%nat.
Proof.
  cbn [insertBatch totalCount].
  destruct (pushes_frame (sort_by_timestamp es) s) as (_ & _ & _ & ->).
  now rewrite length_sort_by_timestamp.
Qed.

Lemma pushes_invoke l :
  forall s, invoke (fold_left (fun acc e => push_entry e acc) l s) = invoke s.
Proof.
  induction l as [|e l IH]; intros s; cbn [fold_left]; [reflexivity|].
  now rewrite IH.
Qed.

Lemma insertBatch_invoke es s : invoke (insertBatch es s) = invoke s.
Proof. cbn [insertBatch invoke]. apply pushes_invoke. Qed.

(** What [insertBatch] delivers and throws is what [emit] makes of the calls
    to the batch listeners the store had before the call. *)
Lemma insertBatch_emit es s :
  delivered (insertBatch es s)
  = delivered s
    ++ fst (emit (invoke s)
              (map (fun cb => BatchEvent cb (sort_by_timestamp es))
                   (batchListeners s))) /\
  insertBatch_throws es s
  = snd (emit (invoke s)
           (map (fun cb => BatchEvent cb (sort_by_timestamp es))
                (batchListeners s))).
Proof.
  unfold insertBatch_throws, emit_batch.
  cbn [insertBatch delivered]. unfold emit_batch.
  rewrite pushes_invoke.
  destruct (pushes_frame (sort_by_timestamp es) s) as (_ & -> & -> & _).
  split; reflexivity.
Qed.

Lemma insert_all_frame S :
  forall s,
    entryListeners (insert_all S s) = entryListeners s /\
    batchListeners (insert_all S s) = batchListeners s /\
    delivered (insert_all S s)
    = delivered s ++ flat_map (fun e => fst (emit_entry s e)) S.
Proof.
  unfold insert_all. induction S as [|e S IH]; intros s; cbn [fold_left flat_map].
  - repeat split. now rewrite app_nil_r.
  - destruct (IH (insert e s)) as (-> & -> & ->).
    cbn [insert entryListeners batchListeners delivered].
    repeat split. now rewrite <- app_assoc.
Qed.

Lemma insert_all_invoke S : forall s, invoke (insert_all S s) = invoke s.
Proof.
  unfold insert_all. induction S as [|e S IH]; intros s; cbn [fold_left];
    [reflexivity|].
  now rewrite IH.
Qed.

(** X6.  Each [insert] of a run invokes the entry listeners with its entry,
    in registration order, up to and including the first that throws, whose
    exception ends that [insert]; the runs of calls follow one another in
    insertion order and no batch listener is invoked.  An [insertBatch] call
    does the same with the batch listeners and the sorted batch.  Neither
    changes the listeners.  When no callback throws, every entry listener is
    invoked once per entry and every batch listener once per batch. *)
Theorem delivery_order :
  forall (s : Store.t),
    (forall S, exists mades,
        delivered (insert_all S s) = delivered s ++ concat mades /\
        Forall2 (fun e made =>
                   delivered_until_throw (invoke s)
                     (map (fun cb => EntryEvent cb e) (entryListeners s))
                     made (insert_throws e s))
                S mades /\
        entryListeners (insert_all S s) = entryListeners s /\
        batchListeners (insert_all S s) = batchListeners s) /\
    (forall es, exists made,
        delivered (insertBatch es s) = delivered s ++ made /\
        delivered_until_throw (invoke s)
          (map (fun cb => BatchEvent cb (sort_by_timestamp es)) (batchListeners s))
          made (insertBatch_throws es s) /\
        entryListeners (insertBatch es s) = entryListeners s /\
        batchListeners (insertBatch es s) = batchListeners s) /\
    (quiet s ->
     (forall S,
         delivered (insert_all S s)
         = delivered s
           ++ flat_map (fun e => map (fun cb => EntryEvent cb e) (entryListeners s)) S) /\
     (forall es,
         delivered (insertBatch es s)
         = delivered s
           ++ map (fun cb => BatchEvent cb (sort_by_timestamp es)) (batchListeners s) /\
         insertBatch_throws es s = None)).
Proof.
  intros s. split; [|split].
  - intros S. destruct (insert_all_frame S s) as (H1 & H2 & H3).
    exists (map (fun e => fst (emit_entry s e)) S).
    rewrite <- flat_map_concat_map. repeat split; try assumption.
    clear. induction S as [|e S IH]; constructor; [|exact IH].
    apply emit_delivered.
  - intros es. destruct (insertBatch_emit es s) as [Hd Ht].
    eexists. split; [exact Hd|]. rewrite Ht. split; [apply emit_delivered|].
    cbn [insertBatch entryListeners batchListeners].
    destruct (pushes_frame (sort_by_timestamp es) s) as (-> & -> & _). auto.
  - intros Hq. split.
    + intros S. destruct (insert_all_frame S s) as (_ & _ & ->). f_equal.
      induction S as [|e S IH]; [reflexivity|]. cbn [flat_map].
      rewrite IH. f_equal. unfold emit_entry.
      rewrite emit_quiet; [reflexivity|]. apply List.Forall_forall. auto.
    + intros es. destruct (insertBatch_emit es s) as [-> ->].
      rewrite emit_quiet; [auto|]. apply List.Forall_forall. auto.
Qed.

Lemma delivery_order_witness :
  quiet Examples.busy_store /\
  (forall S,
      delivered (insert_all S Examples.busy_store)
      = delivered Examples.busy_store
        ++ flat_map (fun e => map (fun cb => EntryEvent cb e)
                                  (entryListeners Examples.busy_store)) S) /\
  (forall es,
      delivered (insertBatch es Examples.busy_store)
      = delivered Examples.busy_store
        ++ map (fun cb => BatchEvent cb (sort_by_timestamp es))
               (batchListeners Examples.busy_store) /\
      insertBatch_throws es Examples.busy_store = None).
Proof.
  assert (Hq : quiet Examples.busy_store) by (intros call; reflexivity).
  split; [exact Hq|].
  exact (proj2 (proj2 (delivery_order Examples.busy_store)) Hq).
Defined.

Lemma existsb_eqb_In cb l : existsb (Nat.eqb cb) l = true <-> In cb l.
Proof.
  rewrite existsb_exists. split.
  - intros (x & Hx & E). apply Nat.eqb_eq in E. now subst.
  - intros H. exists cb. split; [exact H | apply Nat.eqb_refl].
Qed.

Lemma remove_last_snoc cb l : remove_last cb (l ++ [cb]) = l.
Proof.
  induction l as [|x l IH]; cbn [app remove_last existsb].
  - now rewrite Nat.eqb_refl.
  - rewrite IH. destruct (existsb (Nat.eqb cb) (l ++ [cb])) eqn:E; [reflexivity|].
    exfalso. apply not_true_iff_false in E. apply E, existsb_eqb_In.
    apply in_app_iff. right. now left.
Qed.

Lemma remove_last_absent cb l : ~ In cb l -> remove_last cb l = l.
Proof.
  induction l as [|x l IH]; intros H; [reflexivity|]. cbn [remove_last].
  destruct (existsb (Nat.eqb cb) l) eqn:E.
  - apply existsb_eqb_In in E. exfalso. apply H. now right.
  - destruct (Nat.eqb_spec cb x) as [->|]; [|reflexivity].
    exfalso. apply H. now left.
Qed.

Lemma remove_last_length cb l :
  In cb l -> S (length (remove_last cb l)) = length l.
Proof.
  induction l as [|x l IH]; intros H; [contradiction|]. cbn [remove_last].
  destruct (existsb (Nat.eqb cb) l) eqn:E.
  - apply existsb_eqb_In in E. cbn [length]. now rewrite IH.
  - destruct (Nat.eqb_spec cb x) as [->|Hne]; [reflexivity|].
    destruct H as [->|H]; [contradiction|].
    apply existsb_eqb_In in H. congruence.
Qed.

(** X7.  The function returned by [subscribe] undoes the subscription: the
    listeners are as before.  Cancelling a callback that is not subscribed
    changes nothing, and a cancellation removes one registration only. *)
Theorem unsubscribe_subscribe :
  forall (cb : Callback) (s : Store.t),
    entryListeners (unsubscribe cb (subscribe cb s)) = entryListeners s /\
    batchListeners (unsubscribeBatch cb (subscribeBatch cb s)) = batchListeners s /\
    (~ In cb (entryListeners s) ->
     entryListeners (unsubscribe cb s) = entryListeners s) /\
    (In cb (entryListeners s) ->
     S (length (entryListeners (unsubscribe cb s))) = length (entryListeners s)).
Proof.
  intros cb s. cbn [unsubscribe subscribe unsubscribeBatch subscribeBatch
                    entryListeners batchListeners].
  repeat split.
  - apply remove_last_snoc.
  - apply remove_last_snoc.
  - apply remove_last_absent.
  - apply remove_last_length.
Qed.

Lemma filter_snoc (p : TradeEntry -> bool) L e :
  List.filter p (L ++ [e]) = List.filter p L ++ (if p e then [e] else []).
Proof. now rewrite List.filter_app. Qed.

Lemma push_entry_represents s L e :
  represents s L -> nondecreasing (L ++ [e]) = true ->
  represents (push_entry e s) (L ++ [e]).
Proof.
  intros [_ Hb] Hs. split; [exact Hs|]. intros k.
  cbn [push_entry buckets]. rewrite bucket_or_new_insert, filter_snoc.
  destruct (decide (getBucketKey (timestamp e) = k)) as [Hk|Hk].
  - rewrite (proj2 (in_bucket_true k e) Hk). subst k. now rewrite Hb.
  - destruct (in_bucket k e) eqn:E.
    + apply in_bucket_true in E. contradiction.
    + now rewrite app_nil_r.
Qed.

Lemma pushes_represent l :
  forall s L,
    represents s L -> nondecreasing (L ++ l) = true ->
    represents (fold_left (fun acc e => push_entry e acc) l s) (L ++ l).
Proof.
  induction l as [|e l IH]; intros s L Hr Hs; cbn [fold_left].
  - rewrite app_nil_r. exact Hr.
  - replace (L ++ e :: l) with ((L ++ [e]) ++ l) in * by now rewrite <- app_assoc.
    apply IH; [|exact Hs]. apply push_entry_represents; [exact Hr|].
    apply nondecreasing_app in Hs. tauto.
Qed.

Lemma insertBatch_represents s L es :
  represents s L -> nondecreasing (L ++ sort_by_timestamp es) = true ->
  represents (insertBatch es s) (L ++ sort_by_timestamp es).
Proof.
  intros Hr Hs.
  destruct (pushes_represent (sort_by_timestamp es) s L Hr Hs) as [H1 H2].
  split; [exact H1|]. intros k. rewrite insertBatch_buckets. apply H2.
Qed.

(** X8.  A batch inserted into an emptied store is read back by the range
    query in timestamp order, entries of the batch that share a timestamp
    in the order of the batch. *)
Theorem insertBatch_then_range :
  forall (s : Store.t) (es : list TradeEntry) (o : TimeRangeQueryOptions),
    getByTimeRange o (insertBatch es (clear s))
    = truncate (limit o) (List.filter (in_range o) (sort_by_timestamp es)).
Proof.
  intros s es o. apply (RangeFacts.getByTimeRange_represents o _ (sort_by_timestamp es)).
  apply (insertBatch_represents (clear s) [] es).
  - apply represents_clear.
  - apply sort_by_timestamp_nondecreasing.
Qed.

(** X9.  When the store is in order and no entry of the batch is older than
    an entry of the store, [insertBatch] keeps the store in order: the
    buckets stay sorted and the range query reads the old entries followed
    by the sorted batch. *)
Theorem insertBatch_in_order :
  forall (s : Store.t) (L es : list TradeEntry),
    represents s L ->
    nondecreasing (L ++ sort_by_timestamp es) = true ->
    buckets_sorted (insertBatch es s) /\
    forall o,
      getByTimeRange o (insertBatch es s)
      = truncate (limit o) (List.filter (in_range o) (L ++ sort_by_timestamp es)).
Proof.
  intros s L es Hr Hs.
  pose proof (insertBatch_represents s L es Hr Hs) as Hr'. split.
  - eapply represents_sorted, Hr'.
  - intros o. now apply RangeFacts.getByTimeRange_represents.
Qed.

Lemma insertBatch_in_order_witness :
  represents (inserts [Examples.first]) (sort_by_timestamp (rev [Examples.first])) /\
  nondecreasing (sort_by_timestamp (rev [Examples.first])
                 ++ sort_by_timestamp [Examples.third; Examples.second]) = true /\
  buckets_sorted (insertBatch [Examples.third; Examples.second] (inserts [Examples.first])) /\
  forall o,
    getByTimeRange o (insertBatch [Examples.third; Examples.second] (inserts [Examples.first]))
    = truncate (limit o)
        (List.filter (in_range o)
           (sort_by_timestamp (rev [Examples.first])
            ++ sort_by_timestamp [Examples.third; Examples.second])).
Proof.
  split; [apply represents_inserts|]. split; [vm_compute; reflexivity|].
  apply (insertBatch_in_order (inserts [Examples.first])
           (sort_by_timestamp (rev [Examples.first]))
           [Examples.third; Examples.second]).
  - apply represents_inserts.
  - vm_compute. reflexivity.
Defined.

Lemma nondecreasing_take n l :
  nondecreasing l = true -> nondecreasing (take n l) = true.
Proof.
  intros H. rewrite <- (take_drop n l) in H.
  apply nondecreasing_app in H. tauto.
Qed.

Lemma truncate_sublist lim (l : list TradeEntry) :
  exists n, truncate lim l = take n l.
Proof.
  unfold truncate. destruct lim as [n|].
  - destruct (n =? 0); [exists (length l); now rewrite firstn_all | eauto].
  - exists (length l). now rewrite firstn_all.
Qed.

(** X10.  On a store built by [insert] and [clear] the range query returns
    its results in timestamp order, every one of them inside
    [start <= t < end]. *)
Theorem getByTimeRange_sorted_output :
  forall (s : Store.t) (o : TimeRangeQueryOptions),
    reachable_by_insert s ->
    nondecreasing (getByTimeRange o s) = true /\
    Forall (fun e => start o <= timestamp e < end_ o) (getByTimeRange o s).
Proof.
  intros s o Hs. destruct (reachable_by_insert_represents s Hs) as [L HL].
  rewrite (RangeFacts.getByTimeRange_represents o s L HL).
  destruct (truncate_sublist (limit o) (List.filter (in_range o) L)) as [n ->].
  split.
  - apply nondecreasing_take, nondecreasing_filter, HL.
  - apply Forall_take, List.Forall_forall. intros x Hx.
    apply filter_In in Hx as [_ Hx]. unfold in_range in Hx.
    rewrite !andb_true_iff, Z.leb_le, Z.ltb_lt in Hx. tauto.
Qed.

Lemma getByTimeRange_sorted_output_witness :
  reachable_by_insert (insert Examples.second (insert Examples.first empty)) /\
  nondecreasing
    (getByTimeRange (mkRange Examples.T (Examples.T + 1) None None None)
       (insert Examples.second (insert Examples.first empty))) = true /\
  Forall (fun e => Examples.T <= timestamp e < Examples.T + 1)
    (getByTimeRange (mkRange Examples.T (Examples.T + 1) None None None)
       (insert Examples.second (insert Examples.first empty))).
Proof.
  assert (H : reachable_by_insert (insert Examples.second (insert Examples.first empty)))
    by (repeat constructor).
  split; [exact H|].
  apply (getByTimeRange_sorted_output _
           (mkRange Examples.T (Examples.T + 1) None None None) H).
Defined.

Lemma same_entries_insert e s s' :
  same_entries s s' -> same_entries (insert e s) (insert e s').
Proof.
  intros (Hb & Hn & Hmn & Hmx). unfold same_entries.
  cbn [insert buckets totalCount minTimestamp maxTimestamp].
  now rewrite Hb, Hn, Hmn, Hmx.
Qed.

(** X25.  [clear] forgets everything but the listeners: entries inserted
    after it give the buckets, count and extrema they give in a new store,
    so every query answers as on a new store. *)
Theorem clear_forgets :
  forall (s : Store.t) (S : list TradeEntry),
    same_entries (insert_all S (clear s)) (inserts S) /\
    entryListeners (insert_all S (clear s)) = entryListeners s /\
    batchListeners (insert_all S (clear s)) = batchListeners s /\
    forall o ts tolerance,
      getByTimeRange o (insert_all S (clear s)) = getByTimeRange o (inserts S) /\
      getAtTime ts (insert_all S (clear s)) = getAtTime ts (inserts S) /\
      getNearest ts tolerance (insert_all S (clear s))
      = getNearest ts tolerance (inserts S).
Proof.
  intros s S.
  assert (Hsame : same_entries (insert_all S (clear s)) (inserts S)).
  { unfold insert_all, inserts.
    assert (H0 : same_entries (clear s) empty) by (unfold same_entries; cbn; auto).
    revert H0. generalize (clear s) empty. induction S as [|e S IH]; intros a b H;
      [exact H|].
    cbn [fold_left]. now apply IH, same_entries_insert. }
  split; [exact Hsame|].
  destruct (insert_all_frame S (clear s)) as (-> & -> & _).
  split; [reflexivity|]. split; [reflexivity|].
  intros o ts tolerance. destruct Hsame as (Hb & _).
  unfold getByTimeRange, getAtTime, getNearest. now rewrite Hb.
Qed.

End StoreInvariants.

(* ===================================================================== *)
(** * Further properties of the queries                                   *)
(* ===================================================================== *)

Module QueryFacts.

Import Store Spec SortFacts StoreFacts RangeFacts.

(** ** The range query on any store *)

Lemma scan_entries_sound o (P : TradeEntry -> Prop) es :
  (forall x, In x es -> P x) ->
  forall r,
    Forall (fun e => P e /\ passes o e = true) r ->
    Forall (fun e => P e /\ passes o e = true) (finish (scan_entries o es r)).
Proof.
  induction es as [|e es IH]; intros Hes r Hr; [exact Hr|].
  assert (Hes' : forall x, In x es -> P x) by (intros x Hx; apply Hes; now right).
  cbn [scan_entries].
  destruct (Z.geb_spec (timestamp e) (end_ o)) as [|Hlt]; [exact Hr|].
  destruct (source_mismatch o e) eqn:Esrc; [now apply IH|].
  destruct (side_mismatch o e) eqn:Esd; [now apply IH|].
  assert (Hr' : Forall (fun e => P e /\ passes o e = true) (r ++ [e])).
  { apply Forall_app. split; [exact Hr|]. constructor; [|constructor].
    split; [apply Hes; now left|]. unfold passes. rewrite Esrc, Esd.
    destruct (Z.ltb_spec (timestamp e) (end_ o)); [reflexivity | lia]. }
  destruct (limit_reached o (r ++ [e])); [exact Hr'|]. now apply IH.
Qed.

Lemma scan_buckets_sound o (bs : gmap Z (list TradeEntry)) k0 keys :
  forall r,
    Forall (fun e => held_in bs e /\ passes o e = true) r ->
    Forall (fun e => held_in bs e /\ passes o e = true)
           (scan_buckets o bs k0 keys r).
Proof.
  induction keys as [|k keys IH]; intros r Hr; [exact Hr|].
  cbn [scan_buckets]. destruct (bs !! k) as [bucket|] eqn:Ek; [|now apply IH].
  set (i := if k =? k0 then findFirstAtOrAfter bucket (start o) else 0%nat).
  pose proof (scan_entries_sound o (held_in bs) (drop i bucket)) as Hs.
  specialize (Hs (fun x Hx => ex_intro _ k (ex_intro _ bucket (conj Ek
    (proj1 (list_elem_of_In _ _) (subseteq_drop i bucket x
       (proj2 (list_elem_of_In _ _) Hx)))))) r Hr).
  destruct (scan_entries o (drop i bucket) r); cbn [finish] in Hs;
    [now apply IH | exact Hs].
Qed.

Lemma scan_entries_limit o n es :
  limit o = Some n -> n <> 0 ->
  forall r, (length r < Z.to_nat (Z.max 1 n))%nat ->
    match scan_entries o es r with
    | Continue r' => (length r' < Z.to_nat (Z.max 1 n))%nat
    | Return r' => (length r' <= Z.to_nat (Z.max 1 n))%nat
    end.
Proof.
  intros Hn Hn0. induction es as [|e es IH]; intros r Hr; [exact Hr|].
  cbn [scan_entries]. destruct (timestamp e >=? end_ o); [exact Hr|].
  destruct (source_mismatch o e); [now apply IH|].
  destruct (side_mismatch o e); [now apply IH|].
  pose proof (limit_reached_spec o n (r ++ [e]) Hn Hn0) as Hspec.
  rewrite length_app in Hspec. cbn [length] in Hspec.
  destruct (limit_reached o (r ++ [e])) eqn:E.
  - rewrite length_app. cbn [length]. lia.
  - apply IH. rewrite length_app. cbn [length].
    destruct (Nat.le_gt_cases (Z.to_nat (Z.max 1 n)) (length r + 1)) as [Hle|]; [|lia].
    apply Hspec in Hle; [congruence | lia].
Qed.

Lemma scan_buckets_limit o n (bs : gmap Z (list TradeEntry)) k0 keys :
  limit o = Some n -> n <> 0 ->
  forall r, (length r < Z.to_nat (Z.max 1 n))%nat ->
    (length (scan_buckets o bs k0 keys r) <= Z.to_nat (Z.max 1 n))%nat.
Proof.
  intros Hn Hn0. induction keys as [|k keys IH]; intros r Hr; [cbn; lia|].
  cbn [scan_buckets]. destruct (bs !! k) as [bucket|]; [|now apply IH].
  set (i := if k =? k0 then findFirstAtOrAfter bucket (start o) else 0%nat).
  pose proof (scan_entries_limit o n (drop i bucket) Hn Hn0 r Hr) as Hs.
  destruct (scan_entries o (drop i bucket) r); [now apply IH | exact Hs].
Qed.

(** X11.  On any store, sorted or not, the range query returns stored
    entries only, none at or past [end] and none that a filter in force
    rejects, and at most [limit] of them when [limit] is positive. *)
Theorem getByTimeRange_sound :
  forall (s : Store.t) (o : TimeRangeQueryOptions),
    Forall (fun e => stored s e /\ timestamp e < end_ o /\
                     source_mismatch o e = false /\ side_mismatch o e = false)
           (getByTimeRange o s) /\
    forall n, limit o = Some n -> 0 < n ->
              (length (getByTimeRange o s) <= Z.to_nat n)%nat.
Proof.
  intros s o. split.
  - eapply Forall_impl.
    + unfold getByTimeRange. apply scan_buckets_sound. constructor.
    + intros e [He Hp]. split; [exact He|]. unfold passes in Hp.
      rewrite !andb_true_iff, Z.ltb_lt, !negb_true_iff in Hp. tauto.
  - intros n Hn Hpos. unfold getByTimeRange.
    pose proof (scan_buckets_limit o n (buckets s) (getBucketKey (start o))
      (seqZ (getBucketKey (start o))
            (getBucketKey (end_ o - 1) - getBucketKey (start o) + 1))
      Hn ltac:(lia) []) as H.
    cbn [length] in H. replace (Z.max 1 n) with n in H by lia. apply H. lia.
Qed.

(** ** The point query on a sorted store *)

Lemma represents_stored s L e : represents s L -> (stored s e <-> In e L).
Proof.
  intros [_ Hb]. split.
  - intros (k & b & Hk & Hin). specialize (Hb k). unfold bucket_or_new in Hb.
    rewrite Hk in Hb. subst b. now apply filter_In in Hin.
  - intros Hin. specialize (Hb (getBucketKey (timestamp e))).
    assert (Hf : In e (List.filter (in_bucket (getBucketKey (timestamp e))) L)).
    { apply filter_In. split; [exact Hin | now apply in_bucket_true]. }
    rewrite <- Hb in Hf. unfold bucket_or_new in Hf.
    destruct (buckets s !! getBucketKey (timestamp e)) as [b|] eqn:Ek;
      [|contradiction].
    now exists (getBucketKey (timestamp e)), b.
Qed.

Lemma findIndexAtTime_loop_none bucket ts :
  nondecreasing bucket = true ->
  forall fuel low high,
    high - low + 1 <= Z.of_nat fuel -> 0 <= low -> high < Z.of_nat (length bucket) ->
    (forall (i : nat) x, bucket !! i = Some x -> timestamp x = ts ->
                         low <= Z.of_nat i <= high) ->
    findIndexAtTime_loop fuel bucket ts low high = -1 ->
    forall (i : nat) x, bucket !! i = Some x -> timestamp x <> ts.
Proof.
  intros Hs. induction fuel as [|fuel IH]; intros low high Hf Hlow Hhigh Hinv Hres i x Hx Hts.
  - specialize (Hinv i x Hx Hts). lia.
  - cbn [findIndexAtTime_loop] in Hres.
    destruct (Z.leb_spec low high) as [Hle|Hgt].
    2:{ specialize (Hinv i x Hx Hts). lia. }
    assert (Hmid : low <= (low + high) / 2 <= high).
    { split; [apply Z.div_le_lower_bound | apply Z.div_le_upper_bound]; lia. }
    set (mid := (low + high) / 2) in *.
    destruct (lookup_lt_is_Some_2 bucket (Z.to_nat mid)) as [y Hy]; [lia|].
    rewrite Hy in Hres.
    destruct (Z.eqb_spec (timestamp y) ts) as [|Hne]; [lia|].
    destruct (Z.ltb_spec (timestamp y) ts) as [Hlt|Hge].
    + refine (IH (mid + 1) high _ _ _ _ Hres i x Hx Hts); try lia.
      intros j z Hz Hzt. specialize (Hinv j z Hz Hzt). split; [|lia].
      destruct (Z.le_gt_cases (Z.of_nat j) mid) as [Hjm|]; [|lia].
      pose proof (nondecreasing_lookup bucket Hs j (Z.to_nat mid) z y Hz Hy). lia.
    + refine (IH low (mid - 1) _ _ _ _ Hres i x Hx Hts); try lia.
      intros j z Hz Hzt. specialize (Hinv j z Hz Hzt). split; [lia|].
      destruct (Z.le_gt_cases mid (Z.of_nat j)) as [Hjm|]; [|lia].
      pose proof (nondecreasing_lookup bucket Hs (Z.to_nat mid) j y z Hy Hz). lia.
Qed.

Lemma collect_at_filter ts l :
  nondecreasing l = true ->
  Forall (fun e => ts <= timestamp e) l ->
  collect_at ts l = List.filter (fun e => timestamp e =? ts) l.
Proof.
  induction l as [|e l IH]; intros Hs Hge; [reflexivity|].
  cbn [collect_at List.filter].
  apply nondecreasing_cons in Hs as [Hall Hs].
  inversion Hge as [|? ? He Hge']; subst.
  destruct (Z.eqb_spec (timestamp e) ts) as [Heq|Hne].
  - f_equal. now apply IH.
  - symmetry. apply filter_none. eapply Forall_impl; [exact Hall|].
    intros x Hx. cbn beta in Hx.
    destruct (Z.eqb_spec (timestamp x) ts); [lia | reflexivity].
Qed.

(** The point query on one sorted bucket. *)
Lemma getAtTime_bucket bucket ts :
  nondecreasing bucket = true ->
  let result :=
    if findIndexAtTime bucket ts =? -1 then []
    else collect_at ts (drop (Z.to_nat (findIndexAtTime bucket ts)) bucket) in
  (exists pre, List.filter (fun e => timestamp e =? ts) bucket = pre ++ result) /\
  (List.filter (fun e => timestamp e =? ts) bucket <> [] -> result <> []).
Proof.
  intros Hs. cbv zeta. destruct (Z.eqb_spec (findIndexAtTime bucket ts) (-1)) as [Hnone|Hfound].
  - assert (Hno : List.filter (fun e => timestamp e =? ts) bucket = []).
    { apply filter_none, List.Forall_forall. intros x Hx.
      apply list_elem_of_In, list_elem_of_lookup in Hx as [i Hi].
      pose proof (findIndexAtTime_loop_none bucket ts Hs (length bucket) 0
        (Z.of_nat (length bucket) - 1) ltac:(lia) ltac:(lia) ltac:(lia)) as H.
      destruct (Z.eqb_spec (timestamp x) ts) as [Heq|]; [|reflexivity].
      exfalso. eapply H; eauto.
      intros j z Hz _. apply lookup_lt_Some in Hz. lia. }
    rewrite Hno. split; [now exists [] | congruence].
  - destruct (findIndexAtTime_loop_found bucket ts (length bucket) 0
      (Z.of_nat (length bucket) - 1) _ eq_refl Hfound) as (x & Hx & Hts).
    fold (findIndexAtTime bucket ts) in Hx.
    set (i := Z.to_nat (findIndexAtTime bucket ts)) in *.
    rewrite collect_at_filter.
    + split.
      * exists (List.filter (fun e => timestamp e =? ts) (take i bucket)).
        now rewrite <- List.filter_app, take_drop.
      * intros _. rewrite (drop_S bucket x i Hx). cbn [List.filter].
        destruct (Z.eqb_spec (timestamp x) ts); [discriminate | contradiction].
    + now apply nondecreasing_drop.
    + apply Forall_lookup_2. intros j y Hy. rewrite lookup_drop in Hy.
      pose proof (nondecreasing_lookup bucket Hs i (i + j) x y Hx Hy). lia.
Qed.

Lemma filter_timestamp_bucket ts L :
  List.filter (fun e => timestamp e =? ts) (List.filter (in_bucket (getBucketKey ts)) L)
  = List.filter (fun e => timestamp e =? ts) L.
Proof.
  apply filter_filter_implies. intros x Hx. apply Z.eqb_eq in Hx.
  apply in_bucket_true. now rewrite Hx.
Qed.

(** X12.  On a store built by [insert] and [clear] the point query returns a
    final segment of the stored entries with the requested timestamp, in
    stored order, and it is not empty when such an entry exists. *)
Theorem getAtTime_final_segment :
  forall (s : Store.t) (L : list TradeEntry) (ts : Z),
    represents s L ->
    (exists pre, List.filter (fun e => timestamp e =? ts) L = pre ++ getAtTime ts s) /\
    ((exists e, stored s e /\ timestamp e = ts) <-> getAtTime ts s <> []).
Proof.
  intros s L ts Hr. pose proof Hr as [HsL Hb].
  pose proof (getAtTime_bucket (List.filter (in_bucket (getBucketKey ts)) L) ts
                (nondecreasing_filter _ L HsL)) as Hbucket.
  cbv zeta in Hbucket. rewrite filter_timestamp_bucket in Hbucket.
  rewrite <- (Hb (getBucketKey ts)) in Hbucket.
  assert (Hsame : (if findIndexAtTime (bucket_or_new (buckets s) (getBucketKey ts)) ts =? -1
                   then []
                   else collect_at ts
                          (drop (Z.to_nat (findIndexAtTime
                                    (bucket_or_new (buckets s) (getBucketKey ts)) ts))
                                (bucket_or_new (buckets s) (getBucketKey ts))))
                  = getAtTime ts s).
  { unfold getAtTime, bucket_or_new.
    destruct (buckets s !! getBucketKey ts); reflexivity. }
  rewrite Hsame in Hbucket. destruct Hbucket as [Hpre Hne].
  split; [exact Hpre|]. split.
  - intros (e & He & Hts). apply Hne. intros Hnil.
    apply (represents_stored s L e Hr) in He.
    assert (Hin : In e (List.filter (fun e => timestamp e =? ts) L)).
    { apply filter_In. split; [exact He | now apply Z.eqb_eq]. }
    rewrite Hnil in Hin. contradiction.
  - intros Hres. destruct (getAtTime ts s) as [|e rest] eqn:E; [contradiction|].
    pose proof (StoreProperties.getAtTime_sound ts s) as Hsound.
    rewrite E in Hsound. inversion Hsound as [|? ? [Hts Hst] _]; subst.
    exists e. split; [exact Hst | reflexivity].
Qed.

Lemma getAtTime_final_segment_witness :
  represents (inserts [Examples.first; Examples.second; Examples.third])
             (sort_by_timestamp (rev [Examples.first; Examples.second; Examples.third])) /\
  (exists pre,
      List.filter (fun e => timestamp e =? Examples.T)
        (sort_by_timestamp (rev [Examples.first; Examples.second; Examples.third]))
      = pre ++ getAtTime Examples.T
                 (inserts [Examples.first; Examples.second; Examples.third])) /\
  ((exists e, stored (inserts [Examples.first; Examples.second; Examples.third]) e /\
              timestamp e = Examples.T)
   <-> getAtTime Examples.T
         (inserts [Examples.first; Examples.second; Examples.third]) <> []).
Proof.
  split; [apply represents_inserts|].
  apply (getAtTime_final_segment
           (inserts [Examples.first; Examples.second; Examples.third])
           (sort_by_timestamp (rev [Examples.first; Examples.second; Examples.third]))
           Examples.T).
  apply represents_inserts.
Defined.

(** ** The nearest query *)

(** X13.  On any store the point query returns stored entries with the
    requested timestamp only, and the nearest query returns a stored entry
    within the tolerance or nothing; with a negative tolerance it returns
    nothing. *)
Theorem point_queries_sound :
  forall (s : Store.t) (ts tolerance : Z),
    Forall (fun e => timestamp e = ts /\ stored s e) (getAtTime ts s) /\
    (forall e, getNearest ts tolerance s = Some e ->
               stored s e /\ distance ts e <= tolerance) /\
    (tolerance < 0 -> getNearest ts tolerance s = None).
Proof.
  intros s ts tolerance. split; [apply StoreProperties.getAtTime_sound|].
  split; [intros e; apply StoreProperties.getNearest_sound|].
  intros Hneg. destruct (getNearest ts tolerance s) as [e|] eqn:E; [|reflexivity].
  apply StoreProperties.getNearest_sound in E as [_ Hd].
  unfold distance in Hd. lia.
Qed.

Lemma findFirstAtOrAfter_index bucket ts :
  nondecreasing bucket = true ->
  (findFirstAtOrAfter bucket ts <= length bucket)%nat /\
  (forall (i : nat) x, bucket !! i = Some x ->
     (i < findFirstAtOrAfter bucket ts)%nat -> timestamp x < ts) /\
  (forall (i : nat) x, bucket !! i = Some x ->
     (findFirstAtOrAfter bucket ts <= i)%nat -> ts <= timestamp x).
Proof.
  intros Hs. unfold findFirstAtOrAfter.
  destruct (bisect_spec bucket ts Hs (length bucket) 0%nat (length bucket))
    as (Hr & H1 & H2); [lia | lia | intros; lia | |].
  { intros i x Hx Hi. apply lookup_lt_Some in Hx. lia. }
  repeat split; [lia | exact H1 | exact H2].
Qed.

(** In a sorted bucket that holds an entry within the tolerance, one of the
    two candidates is within the tolerance. *)
Lemma bucket_candidates bucket ts tolerance e :
  nondecreasing bucket = true -> In e bucket -> distance ts e <= tolerance ->
  (exists a, entry_at_or_after bucket (findFirstAtOrAfter bucket ts) = Some a /\
             distance ts a <= tolerance) \/
  (exists b, entry_before bucket (findFirstAtOrAfter bucket ts) = Some b /\
             distance ts b <= tolerance).
Proof.
  intros Hs Hin Hd.
  destruct (findFirstAtOrAfter_index bucket ts Hs) as (Hr & Hlt & Hge).
  set (r := findFirstAtOrAfter bucket ts) in *.
  apply list_elem_of_In, list_elem_of_lookup in Hin as [i Hi].
  pose proof (lookup_lt_Some _ _ _ Hi) as Hilen.
  unfold distance in *.
  destruct (Nat.le_gt_cases r i) as [Hri|Hir].
  - left. destruct (lookup_lt_is_Some_2 bucket r) as [a Ha]; [lia|].
    exists a. unfold entry_at_or_after.
    destruct (Nat.ltb_spec r (length bucket)); [|lia]. split; [exact Ha|].
    pose proof (nondecreasing_lookup bucket Hs r i a e Ha Hi Hri).
    pose proof (Hge r a Ha (Nat.le_refl r)). lia.
  - right. destruct (lookup_lt_is_Some_2 bucket (r - 1)) as [b Hb]; [lia|].
    exists b. unfold entry_before.
    destruct (Nat.ltb_spec 0 r); [|lia]. split; [exact Hb|].
    pose proof (nondecreasing_lookup bucket Hs i (r - 1) e b Hi Hb ltac:(lia)).
    pose proof (Hlt (r - 1)%nat b Hb ltac:(lia)). lia.
Qed.

Lemma nearest_in_bucket_complete bucket ts tolerance e :
  nondecreasing bucket = true -> In e bucket -> distance ts e <= tolerance ->
  exists r, nearest_in_bucket bucket ts tolerance = Some r.
Proof.
  intros Hs Hin Hd.
  destruct (bucket_candidates bucket ts tolerance e Hs Hin Hd)
    as [(a & Ha & Hda)|(b & Hb & Hdb)]; unfold nearest_in_bucket, distance in *.
  - rewrite Ha. cbn [snd fst dist_lt].
    destruct (Z.leb_spec (Z.abs (timestamp a - ts)) tolerance); [|lia].
    cbn [snd fst].
    destruct (entry_before bucket (findFirstAtOrAfter bucket ts)) as [b|]; [|eauto].
    destruct (Z.abs (timestamp b - ts) <=? tolerance); [|eauto].
    destruct (dist_lt _ _); eauto.
  - rewrite Hb.
    destruct (Z.leb_spec (Z.abs (timestamp b - ts)) tolerance); [|lia].
    destruct (entry_at_or_after bucket (findFirstAtOrAfter bucket ts)) as [a|];
      cbn [snd fst dist_lt]; [|eauto].
    destruct (Z.abs (timestamp a - ts) <=? tolerance); cbn [snd fst dist_lt]; [|eauto].
    destruct (_ <? _); eauto.
Qed.

Lemma consider_paired ts tolerance st c :
  paired st -> paired (consider ts tolerance st c).
Proof.
  unfold consider. intros H. destruct c as [x|]; [|exact H].
  destruct (_ && _); [discriminate | exact H].
Qed.

Lemma consider_keeps ts tolerance st c :
  is_Some (fst st) -> is_Some (fst (consider ts tolerance st c)).
Proof.
  unfold consider. intros H. destruct c as [x|]; [|exact H].
  destruct (_ && _); [cbn; eauto | exact H].
Qed.

Lemma consider_finds ts tolerance st c :
  paired st -> distance ts c <= tolerance ->
  is_Some (fst (consider ts tolerance st (Some c))).
Proof.
  unfold consider, distance, paired. intros Hp Hd.
  destruct (Z.leb_spec (Z.abs (timestamp c - ts)) tolerance); [|lia].
  cbn [andb]. destruct (dist_lt _ (snd st)) eqn:E; [cbn; eauto|].
  destruct (fst st) as [x|]; [eauto|].
  rewrite (Hp eq_refl) in E. discriminate.
Qed.

Lemma consider_bucket_paired ts tolerance st adj :
  paired st -> paired (consider_bucket ts tolerance st adj).
Proof.
  unfold consider_bucket. intros H. destruct adj as [b|]; [|exact H].
  destruct (length b =? 0)%nat; [exact H|]. cbn [fold_left].
  now apply consider_paired, consider_paired.
Qed.

Lemma consider_bucket_keeps ts tolerance st adj :
  is_Some (fst st) -> is_Some (fst (consider_bucket ts tolerance st adj)).
Proof.
  unfold consider_bucket. intros H. destruct adj as [b|]; [|exact H].
  destruct (length b =? 0)%nat; [exact H|]. cbn [fold_left].
  now apply consider_keeps, consider_keeps.
Qed.

Lemma consider_bucket_finds ts tolerance st bucket e :
  paired st -> nondecreasing bucket = true -> In e bucket ->
  distance ts e <= tolerance ->
  is_Some (fst (consider_bucket ts tolerance st (Some bucket))).
Proof.
  intros Hp Hs Hin Hd. unfold consider_bucket.
  destruct (Nat.eqb_spec (length bucket) 0) as [Hlen|_].
  { destruct bucket; [contradiction | discriminate]. }
  cbn [fold_left].
  destruct (bucket_candidates bucket ts tolerance e Hs Hin Hd)
    as [(a & -> & Hda)|(b & -> & Hdb)].
  - now apply consider_keeps, consider_finds.
  - now apply consider_finds; [apply consider_paired|].
Qed.

Lemma getBucketKey_shift ts n :
  getBucketKey (ts + n * BUCKET_SIZE_MS) = getBucketKey ts + n.
Proof. unfold getBucketKey, BUCKET_SIZE_MS. now rewrite Z.div_add. Qed.

(** An entry within one bucket width of the target lies in the bucket of the
    target or in one of its two neighbours. *)
Lemma near_bucket ts tolerance e :
  tolerance <= BUCKET_SIZE_MS -> distance ts e <= tolerance ->
  getBucketKey (timestamp e) = getBucketKey ts - 1 \/
  getBucketKey (timestamp e) = getBucketKey ts \/
  getBucketKey (timestamp e) = getBucketKey ts + 1.
Proof.
  unfold distance. intros Htol Hd.
  pose proof (getBucketKey_mono (ts + (-1) * BUCKET_SIZE_MS) (timestamp e)) as H1.
  pose proof (getBucketKey_mono (timestamp e) (ts + 1 * BUCKET_SIZE_MS)) as H2.
  rewrite getBucketKey_shift in H1, H2. lia.
Qed.

Lemma represents_bucket s L e :
  represents s L -> In e L ->
  exists bucket,
    buckets s !! getBucketKey (timestamp e) = Some bucket /\
    nondecreasing bucket = true /\ In e bucket.
Proof.
  intros Hr Hin. apply (represents_stored s L e Hr) in Hin as Hst.
  pose proof Hr as [HsL Hb]. specialize (Hb (getBucketKey (timestamp e))).
  assert (Hf : In e (List.filter (in_bucket (getBucketKey (timestamp e))) L)).
  { apply filter_In. split; [exact Hin | now apply in_bucket_true]. }
  unfold bucket_or_new in Hb.
  destruct (buckets s !! getBucketKey (timestamp e)) as [b|] eqn:Ek.
  - exists b. split; [reflexivity|]. rewrite Hb.
    split; [now apply nondecreasing_filter | exact Hf].
  - rewrite <- Hb in Hf. contradiction.
Qed.

(** X14.  On a store built by [insert] and [clear], and for a tolerance of at
    most one bucket width (the default), the nearest query returns an entry
    exactly when some stored entry is within the tolerance; with tolerance
    [0] it returns an entry exactly when one is stored at the target. *)
Theorem getNearest_finds :
  forall (s : Store.t) (L : list TradeEntry) (ts tolerance : Z),
    represents s L ->
    tolerance <= BUCKET_SIZE_MS ->
    ((exists r, getNearest ts tolerance s = Some r)
     <-> exists e, stored s e /\ distance ts e <= tolerance) /\
    ((exists r, getNearest ts 0 s = Some r)
     <-> exists e, stored s e /\ timestamp e = ts).
Proof.
  assert (Hmain : forall s L ts tolerance,
    represents s L -> tolerance <= BUCKET_SIZE_MS ->
    ((exists r, getNearest ts tolerance s = Some r)
     <-> exists e, stored s e /\ distance ts e <= tolerance)).
  { intros s L ts tolerance Hr Htol. split.
    { intros [r Hres]. exists r. now apply StoreProperties.getNearest_sound. }
    intros (e & Hst & Hd). apply (represents_stored s L e Hr) in Hst.
    destruct (represents_bucket s L e Hr Hst) as (bucket & Hk & Hsb & Hin).
    unfold getNearest.
    destruct (near_bucket ts tolerance e Htol Hd) as [Hkey|[Hkey|Hkey]];
      rewrite Hkey in Hk.
    - destruct (match buckets s !! getBucketKey ts with
                | Some b => if (0 <? length b)%nat
                            then nearest_in_bucket b ts tolerance else None
                | None => None
                end) as [r|]; [eauto|].
      cbn [fold_left]. rewrite Hk.
      apply consider_bucket_keeps.
      apply (consider_bucket_finds ts tolerance _ bucket e); auto.
      unfold paired. reflexivity.
    - rewrite Hk. destruct (Nat.ltb_spec 0 (length bucket)) as [_|Hlen].
      2:{ destruct bucket; [contradiction | cbn in Hlen; lia]. }
      destruct (nearest_in_bucket_complete bucket ts tolerance e Hsb Hin Hd) as [r ->].
      eauto.
    - destruct (match buckets s !! getBucketKey ts with
                | Some b => if (0 <? length b)%nat
                            then nearest_in_bucket b ts tolerance else None
                | None => None
                end) as [r|]; [eauto|].
      cbn [fold_left]. rewrite Hk.
      apply (consider_bucket_finds ts tolerance _ bucket e); auto.
      apply consider_bucket_paired. unfold paired. reflexivity. }
  intros s L ts tolerance Hr Htol. split; [now apply (Hmain s L)|].
  rewrite (Hmain s L ts 0 Hr) by (unfold BUCKET_SIZE_MS; lia).
  unfold distance. split; intros (e & He & Hd); exists e; (split; [exact He | lia]).
Qed.

Lemma getNearest_finds_witness :
  represents (inserts [Examples.first; Examples.second])
             (sort_by_timestamp (rev [Examples.first; Examples.second])) /\
  DEFAULT_TOLERANCE <= BUCKET_SIZE_MS /\
  ((exists r, getNearest (Examples.T + 5) DEFAULT_TOLERANCE
                (inserts [Examples.first; Examples.second]) = Some r)
   <-> exists e, stored (inserts [Examples.first; Examples.second]) e /\
                 distance (Examples.T + 5) e <= DEFAULT_TOLERANCE) /\
  ((exists r, getNearest (Examples.T + 5) 0
                (inserts [Examples.first; Examples.second]) = Some r)
   <-> exists e, stored (inserts [Examples.first; Examples.second]) e /\
                 timestamp e = Examples.T + 5).
Proof.
  split; [apply represents_inserts|]. split; [vm_compute; discriminate|].
  apply (getNearest_finds (inserts [Examples.first; Examples.second])
           (sort_by_timestamp (rev [Examples.first; Examples.second]))
           (Examples.T + 5) DEFAULT_TOLERANCE).
  - apply represents_inserts.
  - vm_compute. discriminate.
Defined.

(** The result of the search in one bucket is at least as near as each of
    the two candidates that is within the tolerance. *)
Lemma nearest_in_bucket_best bucket ts tolerance r c :
  nearest_in_bucket bucket ts tolerance = Some r ->
  entry_at_or_after bucket (findFirstAtOrAfter bucket ts) = Some c \/
  entry_before bucket (findFirstAtOrAfter bucket ts) = Some c ->
  distance ts c <= tolerance ->
  distance ts r <= distance ts c.
Proof.
  unfold nearest_in_bucket, distance. intros Hres Hc Hd. revert Hres.
  destruct (entry_at_or_after bucket (findFirstAtOrAfter bucket ts)) as [a|];
  destruct (entry_before bucket (findFirstAtOrAfter bucket ts)) as [b|];
  cbn [fst snd dist_lt];
  repeat (match goal with
          | |- context [Z.leb ?x ?y] => destruct (Z.leb_spec x y)
          | |- context [Z.ltb ?x ?y] => destruct (Z.ltb_spec x y)
          end; cbn [fst snd dist_lt]);
  intros Hres; inversion Hres; subst;
  destruct Hc as [Hc|Hc]; inversion Hc; subst; lia.
Qed.

Lemma bucket_candidate_nearer bucket ts e :
  nondecreasing bucket = true -> In e bucket ->
  exists c,
    (entry_at_or_after bucket (findFirstAtOrAfter bucket ts) = Some c \/
     entry_before bucket (findFirstAtOrAfter bucket ts) = Some c) /\
    distance ts c <= distance ts e.
Proof.
  intros Hs Hin.
  destruct (findFirstAtOrAfter_index bucket ts Hs) as (Hr & Hlt & Hge).
  set (r := findFirstAtOrAfter bucket ts) in *.
  apply list_elem_of_In, list_elem_of_lookup in Hin as [i Hi].
  pose proof (lookup_lt_Some _ _ _ Hi) as Hilen.
  unfold distance in *.
  destruct (Nat.le_gt_cases r i) as [Hri|Hir].
  - destruct (lookup_lt_is_Some_2 bucket r) as [a Ha]; [lia|].
    exists a. unfold entry_at_or_after.
    destruct (Nat.ltb_spec r (length bucket)); [|lia]. split; [now left|].
    pose proof (nondecreasing_lookup bucket Hs r i a e Ha Hi Hri).
    pose proof (Hge r a Ha (Nat.le_refl r)). lia.
  - destruct (lookup_lt_is_Some_2 bucket (r - 1)) as [b Hb]; [lia|].
    exists b. unfold entry_before.
    destruct (Nat.ltb_spec 0 r); [|lia]. split; [now right|].
    pose proof (nondecreasing_lookup bucket Hs i (r - 1) e b Hi Hb ltac:(lia)).
    pose proof (Hlt (r - 1)%nat b Hb ltac:(lia)). lia.
Qed.

Lemma nearest_in_bucket_optimal bucket ts tolerance e r :
  nondecreasing bucket = true -> In e bucket -> distance ts e <= tolerance ->
  nearest_in_bucket bucket ts tolerance = Some r ->
  distance ts r <= distance ts e.
Proof.
  intros Hs Hin Hd Hres.
  destruct (bucket_candidate_nearer bucket ts e Hs Hin) as (c & Hc & Hce).
  pose proof (nearest_in_bucket_best bucket ts tolerance r c Hres Hc ltac:(lia)).
  lia.
Qed.

(** X27.  On a store built by [insert] and [clear], what the nearest query
    returns is at least as near to the target as every stored entry within
    the tolerance that lies in the bucket of the target. *)
Theorem getNearest_nearest_in_bucket :
  forall (s : Store.t) (L : list TradeEntry) (ts tolerance : Z) (r e : TradeEntry),
    represents s L ->
    getNearest ts tolerance s = Some r ->
    stored s e ->
    getBucketKey (timestamp e) = getBucketKey ts ->
    distance ts e <= tolerance ->
    distance ts r <= distance ts e.
Proof.
  intros s L ts tolerance r e Hr Hres Hst Hkey Hd.
  apply (represents_stored s L e Hr) in Hst.
  destruct (represents_bucket s L e Hr Hst) as (bucket & Hk & Hsb & Hin).
  rewrite Hkey in Hk. unfold getNearest in Hres. rewrite Hk in Hres.
  destruct (Nat.ltb_spec 0 (length bucket)) as [_|Hlen].
  2:{ destruct bucket; [contradiction | cbn in Hlen; lia]. }
  destruct (nearest_in_bucket_complete bucket ts tolerance e Hsb Hin Hd) as [r' Hr'].
  rewrite Hr' in Hres. injection Hres as ->.
  eapply nearest_in_bucket_optimal; eauto.
Qed.

Lemma getNearest_nearest_in_bucket_witness :
  represents (inserts [Examples.entry 0 "far"; Examples.entry 50000 "near"])
    (sort_by_timestamp (rev [Examples.entry 0 "far"; Examples.entry 50000 "near"])) /\
  getNearest 40000 DEFAULT_TOLERANCE
    (inserts [Examples.entry 0 "far"; Examples.entry 50000 "near"])
  = Some (Examples.entry 50000 "near") /\
  distance 40000 (Examples.entry 50000 "near") <= distance 40000 (Examples.entry 0 "far").
Proof.
  split; [apply represents_inserts|]. split; [vm_compute; reflexivity|].
  apply (getNearest_nearest_in_bucket
           (inserts [Examples.entry 0 "far"; Examples.entry 50000 "near"])
           (sort_by_timestamp (rev [Examples.entry 0 "far"; Examples.entry 50000 "near"]))
           40000 DEFAULT_TOLERANCE).
  - apply represents_inserts.
  - vm_compute. reflexivity.
  - exists 0, [Examples.entry 0 "far"; Examples.entry 50000 "near"].
    split; [vm_compute; reflexivity | now left].
  - vm_compute. reflexivity.
  - vm_compute. discriminate.
Defined.

(** X28.  On a store built by [insert] and [clear], an entry just inserted
    is returned by every range query without filters and limit whose window
    holds its timestamp. *)
Theorem insert_then_range :
  forall (s : Store.t) (L : list TradeEntry) (e : TradeEntry) (lo hi : Z),
    represents s L ->
    lo <= timestamp e < hi ->
    In e (getByTimeRange (mkRange lo hi None None None) (insert e s)).
Proof.
  intros s L e lo hi Hr Hw.
  rewrite (getByTimeRange_represents _ _ _ (represents_insert s L e Hr)).
  cbn [truncate limit]. apply filter_In. split.
  - apply (Permutation_in e (symmetry (StoreProperties.sort_insert_perm e L))).
    now left.
  - unfold in_range, source_mismatch, side_mismatch. cbn.
    destruct (Z.leb_spec lo (timestamp e)), (Z.ltb_spec (timestamp e) hi);
      try reflexivity; lia.
Qed.

Lemma insert_then_range_witness :
  represents (inserts [Examples.first]) (sort_by_timestamp (rev [Examples.first])) /\
  Examples.T <= timestamp Examples.second < Examples.T + 1 /\
  In Examples.second
     (getByTimeRange (mkRange Examples.T (Examples.T + 1) None None None)
        (insert Examples.second (inserts [Examples.first]))).
Proof.
  split; [apply represents_inserts|]. split; [vm_compute; split; congruence|].
  apply (insert_then_range (inserts [Examples.first])
           (sort_by_timestamp (rev [Examples.first])) Examples.second
           Examples.T (Examples.T + 1)).
  - apply represents_inserts.
  - vm_compute. split; congruence.
Defined.

End QueryFacts.

(* ===================================================================== *)
(** * Further properties of the query API                                 *)
(* ===================================================================== *)

Module ConsumerFacts.

Import Store Spec SortFacts StoreFacts RangeFacts QueryFacts.

Lemma in_range_unfiltered lo hi lim e :
  in_range (mkRange lo hi None None lim) e = in_window lo hi e.
Proof.
  unfold in_range, in_window, source_mismatch, side_mismatch. cbn.
  now rewrite !andb_true_r.
Qed.

Lemma filter_in_range_unfiltered lo hi lim L :
  List.filter (in_range (mkRange lo hi None None lim)) L
  = List.filter (in_window lo hi) L.
Proof. apply filter_ext_in. intros x _. apply in_range_unfiltered. Qed.

Lemma getFirstBefore_represents s L ts lookbackMs :
  represents s L ->
  Consumer.getFirstBefore ts lookbackMs s
  = last (List.filter
            (in_window (ts - default Consumer.DEFAULT_WINDOW lookbackMs) ts) L).
Proof.
  intros Hr. unfold Consumer.getFirstBefore.
  rewrite (getByTimeRange_represents _ s L Hr), filter_in_range_unfiltered.
  cbn [truncate limit]. generalize (List.filter
    (in_window (ts - default Consumer.DEFAULT_WINDOW lookbackMs) ts) L).
  intros F. destruct (Nat.eqb_spec (length F) 0) as [Hlen|Hlen].
  - destruct F; [reflexivity | discriminate].
  - rewrite last_lookup. f_equal. lia.
Qed.

Lemma getFirstAfter_represents s L ts lookAheadMs :
  represents s L ->
  Consumer.getFirstAfter ts lookAheadMs s
  = head (List.filter
            (in_window (ts + 1) (ts + default Consumer.DEFAULT_WINDOW lookAheadMs)) L).
Proof.
  intros Hr. unfold Consumer.getFirstAfter.
  rewrite (getByTimeRange_represents _ s L Hr), filter_in_range_unfiltered.
  cbn [truncate limit Z.eqb Z.max Z.to_nat Pos.to_nat Pos.iter_op Nat.add].
  generalize (List.filter
    (in_window (ts + 1) (ts + default Consumer.DEFAULT_WINDOW lookAheadMs)) L).
  intros F. destruct F as [|x F]; reflexivity.
Qed.

Lemma last_max F e :
  nondecreasing F = true -> last F = Some e ->
  In e F /\ forall x, In x F -> timestamp x <= timestamp e.
Proof.
  intros Hs Hl. rewrite last_lookup in Hl. split.
  - apply list_elem_of_In. eapply list_elem_of_lookup_2, Hl.
  - intros x Hx. apply list_elem_of_In, list_elem_of_lookup in Hx as [i Hi].
    pose proof (lookup_lt_Some _ _ _ Hi).
    eapply (nondecreasing_lookup F Hs i); eauto. lia.
Qed.

Lemma head_min F e :
  nondecreasing F = true -> head F = Some e ->
  In e F /\ forall x, In x F -> timestamp e <= timestamp x.
Proof.
  intros Hs Hh. destruct F as [|y F]; [discriminate|]. injection Hh as ->.
  split; [now left|]. intros x [->|Hx]; [lia|].
  apply nondecreasing_cons in Hs as [Hall _].
  rewrite List.Forall_forall in Hall. now apply Hall.
Qed.

Lemma in_window_spec lo hi e :
  in_window lo hi e = true <-> lo <= timestamp e < hi.
Proof. unfold in_window. rewrite andb_true_iff, Z.leb_le, Z.ltb_lt. tauto. Qed.

(** X15.  On a store built by [insert] and [clear], [getFirstBefore] returns
    a stored entry of [t - lookback <= timestamp < t] with the greatest
    timestamp, and [null] exactly when the store holds none; [getFirstAfter]
    returns a stored entry of [t < timestamp < t + lookAhead] with the least
    timestamp, and [null] exactly when the store holds none. *)
Theorem first_before_and_after :
  forall (s : Store.t) (L : list TradeEntry) (ts : Z) (window : option Z),
    represents s L ->
    let w := default Consumer.DEFAULT_WINDOW window in
    (forall e, Consumer.getFirstBefore ts window s = Some e ->
       stored s e /\ ts - w <= timestamp e < ts /\
       forall x, stored s x -> ts - w <= timestamp x < ts ->
                 timestamp x <= timestamp e) /\
    (Consumer.getFirstBefore ts window s = None <->
       forall x, stored s x -> ~ (ts - w <= timestamp x < ts)) /\
    (forall e, Consumer.getFirstAfter ts window s = Some e ->
       stored s e /\ ts < timestamp e < ts + w /\
       forall x, stored s x -> ts < timestamp x < ts + w ->
                 timestamp e <= timestamp x) /\
    (Consumer.getFirstAfter ts window s = None <->
       forall x, stored s x -> ~ (ts < timestamp x < ts + w)).
Proof.
  intros s L ts window Hr w. pose proof Hr as [HsL _].
  rewrite (getFirstBefore_represents s L ts window Hr).
  rewrite (getFirstAfter_represents s L ts window Hr). fold w.
  assert (Hin : forall lo hi x,
    In x (List.filter (in_window lo hi) L) <-> stored s x /\ lo <= timestamp x < hi).
  { intros lo hi x. rewrite filter_In, in_window_spec.
    now rewrite (represents_stored s L x Hr). }
  repeat split.
  - apply (last_max _ e) in H as [H _]; [|now apply nondecreasing_filter].
    now apply Hin in H.
  - apply (last_max _ e) in H as [H _]; [|now apply nondecreasing_filter].
    apply Hin in H. lia.
  - apply (last_max _ e) in H as [H _]; [|now apply nondecreasing_filter].
    apply Hin in H. lia.
  - intros x Hx Hw. apply (last_max _ e) in H as [_ H];
      [|now apply nondecreasing_filter].
    apply H, Hin. tauto.
  - intros Hnone x Hx Hw. apply last_None in Hnone.
    assert (Hx' : In x (List.filter (in_window (ts - w) ts) L)) by (apply Hin; tauto).
    rewrite Hnone in Hx'. contradiction.
  - intros Hnone. apply last_None.
    destruct (List.filter (in_window (ts - w) ts) L) as [|x F] eqn:E; [reflexivity|].
    exfalso. assert (Hx : In x (List.filter (in_window (ts - w) ts) L))
      by (rewrite E; now left).
    apply Hin in Hx as [Hx Hw]. exact (Hnone x Hx Hw).
  - apply (head_min _ e) in H as [H _]; [|now apply nondecreasing_filter].
    now apply Hin in H.
  - apply (head_min _ e) in H as [H _]; [|now apply nondecreasing_filter].
    apply Hin in H. lia.
  - apply (head_min _ e) in H as [H _]; [|now apply nondecreasing_filter].
    apply Hin in H. lia.
  - intros x Hx Hw. apply (head_min _ e) in H as [_ H];
      [|now apply nondecreasing_filter].
    apply H, Hin. split; [exact Hx | lia].
  - intros Hnone x Hx Hw.
    assert (Hx' : In x (List.filter (in_window (ts + 1) (ts + w)) L))
      by (apply Hin; split; [exact Hx | lia]).
    destruct (List.filter (in_window (ts + 1) (ts + w)) L); [contradiction | discriminate].
  - intros Hnone.
    destruct (List.filter (in_window (ts + 1) (ts + w)) L) as [|x F] eqn:E; [reflexivity|].
    exfalso. assert (Hx : In x (List.filter (in_window (ts + 1) (ts + w)) L))
      by (rewrite E; now left).
    apply Hin in Hx as [Hx Hw]. apply (Hnone x Hx). lia.
Qed.

Lemma first_before_and_after_witness :
  represents (inserts [Examples.first; Examples.second])
             (sort_by_timestamp (rev [Examples.first; Examples.second])) /\
  Consumer.getFirstBefore (Examples.T + 1) None (inserts [Examples.first; Examples.second])
  = Some Examples.first /\
  (Consumer.getFirstAfter Examples.T None (inserts [Examples.first; Examples.second]) = None
   <-> forall x, stored (inserts [Examples.first; Examples.second]) x ->
                 ~ (Examples.T < timestamp x
                    < Examples.T + default Consumer.DEFAULT_WINDOW None)).
Proof.
  split; [apply represents_inserts|]. split; [vm_compute; reflexivity|].
  apply (first_before_and_after (inserts [Examples.first; Examples.second])
           (sort_by_timestamp (rev [Examples.first; Examples.second]))
           Examples.T None (represents_inserts [Examples.first; Examples.second])).
Defined.

(** X16.  [getAtTimeFiltered] returns the entries that the store's point
    query returns for the same timestamp and that pass the filters in force,
    in the same order; a source filter that is the empty string is not in
    force, and without filters the result of the store is returned as it
    is.  Unlike [getAtTime] it checks nothing: any timestamp goes to the
    store. *)
Theorem getAtTimeFiltered_filters :
  forall (store_getAtTime : number Z -> list TradeEntry) (ts : number Z)
         (filters : option Consumer.PointFilters),
    Consumer.getAtTimeFiltered store_getAtTime ts filters
    = List.filter (point_match filters) (store_getAtTime ts) /\
    Consumer.getAtTimeFiltered store_getAtTime ts None = store_getAtTime ts /\
    forall sd,
      Consumer.getAtTimeFiltered store_getAtTime ts
        (Some (Consumer.mkPointFilters (Some "") sd))
      = Consumer.getAtTimeFiltered store_getAtTime ts
          (Some (Consumer.mkPointFilters None sd)).
Proof.
  intros f ts filters. split; [|split; [reflexivity | intros sd; reflexivity]].
  unfold Consumer.getAtTimeFiltered, point_match.
  generalize (f ts). intros l.
  destruct filters as [[src sd]|]; cbn [Consumer.p_source Consumer.p_side].
  2:{ symmetry. now apply filter_all, List.Forall_forall. }
  destruct src as [src|], sd as [sd|].
  - destruct (String.eqb src ""); cbn [orb].
    + reflexivity.
    + now rewrite filter_filter_and.
  - destruct (String.eqb src ""); cbn [orb].
    + symmetry. now apply filter_all, List.Forall_forall.
    + apply filter_ext_in. intros x _. now rewrite andb_true_r.
  - reflexivity.
  - symmetry. now apply filter_all, List.Forall_forall.
Qed.

Lemma batch_snoc toString rs r s :
  Consumer.batchGetByTimeRange toString (rs ++ [r]) s
  = <[Consumer.range_key toString r :=
        getByTimeRange (mkRange (Consumer.b_start r) (Consumer.b_end r)
                                (Consumer.b_source r) (Consumer.b_side r) None) s]>
      (Consumer.batchGetByTimeRange toString rs s).
Proof. unfold Consumer.batchGetByTimeRange. now rewrite fold_left_app. Qed.

(** X17.  [batchGetByTimeRange] maps each key ["start-end"] to the result of
    the range query for the last range of the input with that key (an
    earlier range with the same bounds is overwritten, whatever its
    filters), and holds no other key. *)
Theorem batchGetByTimeRange_last_wins :
  forall (toString : Z -> string) (ranges : list Consumer.BatchRange)
         (s : Store.t) (key : string),
    Consumer.batchGetByTimeRange toString ranges s !! key
    = (fun r => getByTimeRange
                  (mkRange (Consumer.b_start r) (Consumer.b_end r)
                           (Consumer.b_source r) (Consumer.b_side r) None) s)
      <$> last (List.filter
                  (fun r => String.eqb (Consumer.range_key toString r) key) ranges).
Proof.
  intros toString ranges s key.
  induction ranges as [|r rs IH] using rev_ind.
  - cbn. apply lookup_empty.
  - rewrite batch_snoc, lookup_insert, List.filter_app. cbn [List.filter].
    destruct (String.eqb_spec (Consumer.range_key toString r) key) as [Heq|Hne].
    + rewrite decide_True by exact Heq. now rewrite last_snoc.
    + rewrite decide_False by exact Hne. now rewrite app_nil_r.
Qed.

Lemma isEmpty_extrema bs n mn mx :
  extrema_of bs n mn mx ->
  match mn, mx with
  | None, None => n = 0%nat
  | Some lo, Some hi => n <> 0%nat /\ lo <= hi
  | _, _ => False
  end.
Proof.
  intros (Hbound & Hmin & _ & Hmn & Hmx). destruct mn as [lo|], mx as [hi|].
  - split; [intros E; apply Hmn in E; discriminate|].
    destruct (Hmin lo eq_refl) as (e & He & Hts).
    destruct (Hbound e He) as (lo' & hi' & [= <-] & [= <-] & Hb). lia.
  - assert (n = 0%nat) by now apply Hmx. apply Hmn in H. discriminate.
  - assert (n = 0%nat) by now apply Hmn. apply Hmx in H. discriminate.
  - now apply Hmn.
Qed.

(** X18.  For every reachable store [getTimeRange] is [{null, null}] exactly
    when [isEmpty] holds; otherwise it is a pair [start <= end]. *)
Theorem getTimeRange_isEmpty :
  forall s, reachable s ->
    match Consumer.getTimeRange s with
    | (None, None) => isEmpty s = true
    | (Some lo, Some hi) => isEmpty s = false /\ lo <= hi
    | _ => False
    end.
Proof.
  intros s Hs. unfold Consumer.getTimeRange, earliestTimestamp, latestTimestamp, isEmpty.
  pose proof (StoreInvariants.reachable_invariant extrema_of
    StoreInvariants.extrema_empty
    (fun e s => StoreInvariants.extrema_step _ _ _ _ _ e
                  (StoreInvariants.held_in_after_insert e s))
    (fun e s => StoreInvariants.extrema_step _ _ _ _ _ e
                  (StoreInvariants.held_in_after_push e s)) s Hs) as Hext.
  apply isEmpty_extrema in Hext.
  destruct (minTimestamp s), (maxTimestamp s); try contradiction.
  - destruct Hext as [Hn Hle]. split; [now apply Nat.eqb_neq | exact Hle].
  - now apply Nat.eqb_eq.
Qed.

Lemma getTimeRange_isEmpty_witness :
  reachable Examples.busy_store /\
  match Consumer.getTimeRange Examples.busy_store with
  | (None, None) => isEmpty Examples.busy_store = true
  | (Some lo, Some hi) => isEmpty Examples.busy_store = false /\ lo <= hi
  | _ => False
  end.
Proof.
  assert (H : reachable Examples.busy_store) by (repeat constructor).
  split; [exact H | apply (getTimeRange_isEmpty Examples.busy_store H)].
Defined.

End ConsumerFacts.

(* ===================================================================== *)
(** * Further properties of the loader                                    *)
(* ===================================================================== *)

Module LoaderFacts.

Import Loader LoaderSpec.

Lemma filter_entries_null entries :
  forallb not_null entries = false ->
  filter_entries entries
  = Threw "Cannot read properties of null (reading 'timestamp')".
Proof.
  induction entries as [|entry rest IH]; intros H; [discriminate|].
  cbn [forallb] in H. cbn [filter_entries].
  destruct (not_null entry) eqn:En.
  - rewrite (LoaderProperties.validate_not_null entry En), (IH H). reflexivity.
  - destruct entry; try discriminate. reflexivity.
Qed.

Lemma forallb_not_null_false entries :
  forallb not_null entries = false <-> In JNull entries.
Proof.
  induction entries as [|entry rest IH]; cbn [forallb In]; [split; [discriminate | tauto]|].
  rewrite andb_false_iff, IH. split.
  - intros [H|H]; [left; now destruct entry | now right].
  - intros [->|H]; [now left | now right].
Qed.

(** X19.  A load returns rows exactly when the object was fetched and parsed
    and none of its candidate rows is [null], and then it returns the
    accepted candidates in payload order; a [null] candidate anywhere makes
    the whole load throw the [TypeError] of reading its [timestamp], a
    response without a body throws an error that names the key, and a fetch
    or parse failure is passed on. *)
Theorem loadFile_outcome :
  forall (key : string) (payload : Payload),
    match loadFile key payload with
    | Ok kept =>
        exists data,
          payload = Parsed data /\ ~ In JNull (candidates data) /\
          kept = List.filter accepted (candidates data)
    | Threw msg =>
        payload = GetFailed msg \/ payload = Unparsable msg \/
        (payload = NoBody /\ msg = "No body in response for " +:+ key) \/
        exists data,
          payload = Parsed data /\ In JNull (candidates data) /\
          msg = "Cannot read properties of null (reading 'timestamp')"
    end.
Proof.
  intros key [msg| |msg|data]; cbn [loadFile].
  - now left.
  - right. right. left. auto.
  - right. now left.
  - destruct (forallb not_null (candidates data)) eqn:E.
    + rewrite (LoaderProperties.filter_entries_not_null _ E).
      exists data. repeat split.
      intros Hin. apply forallb_not_null_false in Hin. congruence.
    + rewrite (filter_entries_null _ E). right. right. right.
      exists data. split; [reflexivity|].
      split; [now apply forallb_not_null_false | reflexivity].
Qed.

End LoaderFacts.

(* ===================================================================== *)
(** * Further properties of the ingestion coordinator                     *)
(* ===================================================================== *)

Module IngesterFacts.

Import Ingester IngesterSpec.

Section Drivers.

Variable loadFile : string -> result (list TradeEntry).

(** A property kept by the ingestion of a [.json] key and by the deletion of
    a message is kept by the three drivers. *)
Variable P : t -> Prop.
Hypothesis P_ingest :
  forall key st, endsWith key ".json" = true -> P st ->
                 P (fst (ingest loadFile key st)).
Hypothesis P_delete :
  forall st receipt,
    P st -> P (mkIngester (store st) (processedKeys st) (loads st)
                          (deleted st ++ [receipt])).

Lemma discover_preserves st c : P st -> P (discover loadFile st c).
Proof.
  intros H. unfold discover. destruct c as [key|]; [|exact H].
  destruct (endsWith key ".json") eqn:E; cbn [negb]; [|exact H].
  destruct (bool_decide _); [exact H | now apply P_ingest].
Qed.

Lemma discovers_preserve cs : forall st, P st -> P (fold_left (discover loadFile) cs st).
Proof.
  induction cs as [|c cs IH]; intros st H; [exact H|].
  cbn [fold_left]. now apply IH, discover_preserves.
Qed.

Lemma backfill_object_fst stp object :
  fst (backfill_object loadFile stp object) = fst stp \/
  exists key, endsWith key ".json" = true /\
              fst (backfill_object loadFile stp object)
              = fst (ingest loadFile key (fst stp)).
Proof.
  unfold backfill_object. destruct object as [key|]; [|now left].
  destruct (endsWith key ".json") eqn:E; cbn [negb]; [|now left].
  right. exists key. split; [exact E|].
  destruct (ingest loadFile key (fst stp)) as [st' [n|msg]]; reflexivity.
Qed.

Lemma backfill_objects_preserve objects :
  forall stp, P (fst stp) -> P (fst (fold_left (backfill_object loadFile) objects stp)).
Proof.
  induction objects as [|object objects IH]; intros stp H; [exact H|].
  cbn [fold_left]. apply IH.
  destruct (backfill_object_fst stp object) as [->|(key & E & ->)];
    [exact H | now apply P_ingest].
Qed.

Lemma backfill_pages_preserve pages :
  forall stp, P (fst stp) -> P (fst (backfill_pages loadFile pages stp)).
Proof.
  induction pages as [|page pages IH]; intros stp H; [exact H|].
  cbn [backfill_pages]. destruct page as [[|object objects]|]; [exact H | | exact H].
  now apply IH, backfill_objects_preserve.
Qed.

Lemma loadInitialData_preserves listing st :
  P st -> P (fst (loadInitialData loadFile listing st)).
Proof. intros H. unfold loadInitialData. now apply backfill_pages_preserve. Qed.

Lemma processSqsMessages_preserves messages :
  forall st, P st -> P (processSqsMessages loadFile messages st).
Proof.
  unfold processSqsMessages.
  induction messages as [|m messages IH]; intros st H; [exact H|].
  cbn [fold_left]. apply IH. destruct m as [| | |records receipt]; try exact H.
  cbn [processSqsMessage]. destruct records as [rs|]; [|now apply P_delete].
  rewrite IngesterProperties.process_records_read.
  destruct (forallb readable rs); cbn [negb];
    [apply P_delete|]; now apply discovers_preserve.
Qed.

Lemma poll_preserves listing : forall st, P st -> P (poll loadFile listing st).
Proof.
  unfold poll. induction listing as [|page listing IH]; intros st H; [exact H|].
  cbn [fold_left]. apply IH. destruct page as [cs|]; [|exact H].
  now apply discovers_preserve.
Qed.

End Drivers.

Lemma ingest_fields loadFile key st :
  loads (fst (ingest loadFile key st)) = loads st ++ [key] /\
  deleted (fst (ingest loadFile key st)) = deleted st /\
  match loadFile key with
  | Ok entries =>
      processedKeys (fst (ingest loadFile key st))
      = match Store.insertBatch_throws entries (store st) with
        | None => {[key]} ∪ processedKeys st
        | Some _ => processedKeys st
        end /\
      store (fst (ingest loadFile key st)) = Store.insertBatch entries (store st)
  | Threw _ =>
      processedKeys (fst (ingest loadFile key st)) = processedKeys st /\
      store (fst (ingest loadFile key st)) = store st
  end.
Proof.
  unfold ingest. destruct (loadFile key) as [entries|msg]; cbn; auto.
  destruct (Store.insertBatch_throws entries (store st)); cbn; auto.
Qed.

(** The processed set after an ingestion: what it was, with the key when it
    was admitted. *)
Lemma ingest_processedKeys loadFile key st :
  processedKeys (fst (ingest loadFile key st)) = processedKeys st \/
  processedKeys (fst (ingest loadFile key st)) = {[key]} ∪ processedKeys st /\
  exists entries, loadFile key = Ok entries.
Proof.
  destruct (ingest_fields loadFile key st) as (_ & _ & Hrest).
  destruct (loadFile key) as [entries|msg]; destruct Hrest as [Hp _].
  - destruct (Store.insertBatch_throws entries (store st)); eauto.
  - now left.
Qed.

(** An ingestion changes neither the listeners of the store nor what the
    callbacks do. *)
Lemma ingest_world loadFile key st :
  Store.batchListeners (store (fst (ingest loadFile key st)))
  = Store.batchListeners (store st) /\
  Store.invoke (store (fst (ingest loadFile key st))) = Store.invoke (store st).
Proof.
  destruct (ingest_fields loadFile key st) as (_ & _ & Hrest).
  destruct (loadFile key) as [entries|msg]; destruct Hrest as [_ ->];
    [|split; reflexivity].
  split; [|apply StoreInvariants.insertBatch_invoke].
  cbn [Store.insertBatch Store.batchListeners].
  now destruct (StoreInvariants.pushes_frame (Store.sort_by_timestamp entries)
                  (store st)) as (_ & -> & _).
Qed.

Lemma quiet_ingest loadFile key st :
  Spec.quiet (store st) -> Spec.quiet (store (fst (ingest loadFile key st))).
Proof.
  unfold Spec.quiet. destruct (ingest_world loadFile key st) as [_ ->]. auto.
Qed.

(** In a store none of whose callbacks throws, [insertBatch] does not
    throw. *)
Lemma insertBatch_throws_quiet entries s :
  Spec.quiet s -> Store.insertBatch_throws entries s = None.
Proof.
  intros Hq. destruct (StoreInvariants.insertBatch_emit entries s) as [_ ->].
  rewrite StoreFacts.emit_quiet; [reflexivity|]. apply List.Forall_forall. auto.
Qed.

(** The exception with which [insertBatch] ends is the exception of one of
    the batch listeners, invoked on the sorted batch. *)
Lemma insertBatch_throws_listener entries s msg :
  Store.insertBatch_throws entries s = Some msg ->
  exists cb,
    In cb (Store.batchListeners s) /\
    Store.invoke s (BatchEvent cb (Store.sort_by_timestamp entries)) = Some msg.
Proof.
  destruct (StoreInvariants.insertBatch_emit entries s) as [_ ->]. intros H.
  pose proof (StoreFacts.emit_delivered (Store.invoke s)
                (map (fun cb => BatchEvent cb (Store.sort_by_timestamp entries))
                     (Store.batchListeners s))) as Hd.
  rewrite H in Hd. destruct Hd as (before & call & after & Hcalls & _ & _ & Hcall).
  assert (Hin : In call (map (fun cb => BatchEvent cb (Store.sort_by_timestamp entries))
                             (Store.batchListeners s))).
  { rewrite Hcalls. apply in_app_iff. right. now left. }
  apply in_map_iff in Hin as (cb & <- & Hcb). eauto.
Qed.

Lemma consistent_ingest loadFile key st :
  endsWith key ".json" = true -> consistent loadFile st ->
  consistent loadFile (fst (ingest loadFile key st)).
Proof.
  intros E (Hloads & Hkeys & Hcount).
  destruct (ingest_fields loadFile key st) as (Hl & _ & Hrest).
  unfold consistent, processedCount in *. rewrite Hl, length_app. cbn [length].
  split; [|split].
  - apply Forall_app. split; [exact Hloads | now repeat constructor].
  - intros k Hk.
    destruct (ingest_processedKeys loadFile key st) as [Hp|[Hp Hok]];
      rewrite Hp in Hk.
    + destruct (Hkeys k Hk) as [Hin Hok]. split; [|exact Hok].
      apply in_app_iff. now left.
    + apply elem_of_union in Hk as [Hk|Hk].
      * apply elem_of_singleton in Hk as ->.
        split; [apply in_app_iff; right; now left | exact Hok].
      * destruct (Hkeys k Hk) as [Hin Hok']. split; [|exact Hok'].
        apply in_app_iff. now left.
  - destruct (ingest_processedKeys loadFile key st) as [->|[-> _]]; [lia|].
    rewrite size_union_alt, size_singleton.
    assert (base.size (processedKeys st ∖ {[key]}) <= base.size (processedKeys st))%nat
      by (apply subseteq_size; intros x Hx; apply elem_of_difference in Hx; tauto).
    lia.
Qed.

(** X20.  Whatever the drivers did, only keys ending in [.json] were ever
    loaded, every processed key was loaded and its load succeeds, and
    [processedCount] does not exceed the number of loads. *)
Theorem reachable_consistent :
  forall (loadFile : string -> result (list TradeEntry)) (st : t),
    reachable loadFile st -> consistent loadFile st.
Proof.
  intros loadFile st. induction 1 as [s|listing st _ IH|messages st _ IH|listing st _ IH].
  - unfold consistent, processedCount. cbn. split; [constructor|]. split.
    + intros key Hkey. set_solver.
    + rewrite size_empty. lia.
  - apply loadInitialData_preserves; [apply consistent_ingest | exact IH].
  - apply processSqsMessages_preserves;
      [apply consistent_ingest | intros st0 r H0; exact H0 | exact IH].
  - apply poll_preserves; [apply consistent_ingest | exact IH].
Qed.

Lemma reachable_consistent_witness :
  reachable Examples.one_object Examples.busy_ingester /\
  consistent Examples.one_object Examples.busy_ingester.
Proof.
  assert (H : reachable Examples.one_object Examples.busy_ingester)
    by (repeat constructor).
  split; [exact H | apply (reachable_consistent _ _ H)].
Defined.

Lemma grown_refl st : grown st st.
Proof. unfold grown. repeat split; reflexivity. Qed.

Lemma grown_ingest loadFile st0 key st :
  grown st0 st -> grown st0 (fst (ingest loadFile key st)).
Proof.
  intros (Hp & Hl & Hd).
  destruct (ingest_fields loadFile key st) as (El & Ed & Hrest).
  unfold grown. rewrite El, Ed. split; [|split; [now apply prefix_app_r | exact Hd]].
  destruct (ingest_processedKeys loadFile key st) as [->|[-> _]]; set_solver.
Qed.

Lemma grown_delete st0 st receipt :
  grown st0 st ->
  grown st0 (mkIngester (store st) (processedKeys st) (loads st)
                        (deleted st ++ [receipt])).
Proof.
  intros (Hp & Hl & Hd). unfold grown. cbn. repeat split; auto.
  now apply prefix_app_r.
Qed.

(** X21.  No driver forgets: after a backfill, a batch of notifications or a
    polling pass the processed set contains what it contained, and the
    earlier loads and deletions are a prefix of the later ones. *)
Theorem drivers_only_add :
  forall (loadFile : string -> result (list TradeEntry)) (st : t),
    (forall listing, grown st (fst (loadInitialData loadFile listing st))) /\
    (forall messages, grown st (processSqsMessages loadFile messages st)) /\
    (forall listing, grown st (poll loadFile listing st)).
Proof.
  intros loadFile st. split; [|split].
  - intros listing.
    apply (loadInitialData_preserves loadFile (grown st));
      [intros; now apply grown_ingest | apply grown_refl].
  - intros messages.
    apply (processSqsMessages_preserves loadFile (grown st));
      [intros; now apply grown_ingest | intros; now apply grown_delete | apply grown_refl].
  - intros listing.
    apply (poll_preserves loadFile (grown st));
      [intros; now apply grown_ingest | apply grown_refl].
Qed.

Lemma stored_uncounted_app loadFile errs km :
  stored_uncounted loadFile (errs ++ [km])
  = (stored_uncounted loadFile errs
     + match loadFile (fst km) with
       | Ok entries => length entries
       | Threw _ => 0
       end)%nat.
Proof.
  induction errs as [|x errs IH]; cbn [app stored_uncounted fold_right].
  - destruct (loadFile (fst km)); lia.
  - fold (stored_uncounted loadFile (errs ++ [km])).
    fold (stored_uncounted loadFile errs). rewrite IH.
    destruct (loadFile (fst x)); lia.
Qed.

Lemma accounted_object loadFile st0 stp object :
  accounted loadFile st0 stp /\ same_world st0 stp ->
  accounted loadFile st0 (backfill_object loadFile stp object) /\
  same_world st0 (backfill_object loadFile stp object).
Proof.
  intros [(Hcount & Hloads & Herr & Hdel) [Hbl Hinv]]. unfold backfill_object.
  destruct object as [key|]; [|now repeat split].
  destruct (negb (endsWith key ".json")); [now repeat split|].
  pose proof (ingest_world loadFile key (fst stp)) as Hw.
  split.
  2:{ destruct (ingest loadFile key (fst stp)) as [st' [n|msg]];
        cbn [fst] in Hw; unfold same_world; cbn [fst];
        destruct Hw as [-> ->]; auto. }
  clear Hw. unfold ingest. destruct (loadFile key) as [entries|msg] eqn:El.
  - destruct (Store.insertBatch_throws entries (store (fst stp))) as [msg|] eqn:Et;
      unfold accounted; cbn [fst snd store loads deleted filesProcessed
                             entriesLoaded errors].
    + rewrite StoreInvariants.insertBatch_totalCount, !length_app,
        stored_uncounted_app. cbn [length fst]. rewrite El.
      repeat split; [lia | lia | | exact Hdel].
      apply Forall_app. split; [exact Herr|]. constructor; [|constructor].
      right. apply insertBatch_throws_listener in Et as (cb & Hcb & Hthrow).
      exists entries, cb. cbn [fst snd]. rewrite <- Hbl, <- Hinv. auto.
    + rewrite StoreInvariants.insertBatch_totalCount, length_app. cbn [length].
      repeat split; [lia | lia | exact Herr | exact Hdel].
  - unfold accounted; cbn [fst snd store loads deleted filesProcessed
                           entriesLoaded errors].
    rewrite !length_app, stored_uncounted_app. cbn [length fst]. rewrite El.
    repeat split; [lia | lia | | exact Hdel].
    apply Forall_app. split; [exact Herr|]. constructor; [|constructor].
    now left.
Qed.

Lemma accounted_objects loadFile st0 objects :
  forall stp,
    accounted loadFile st0 stp /\ same_world st0 stp ->
    accounted loadFile st0 (fold_left (backfill_object loadFile) objects stp) /\
    same_world st0 (fold_left (backfill_object loadFile) objects stp).
Proof.
  induction objects as [|object objects IH]; intros stp H; [exact H|].
  cbn [fold_left]. now apply IH, accounted_object.
Qed.

Lemma loadInitialData_accounted loadFile listing st :
  accounted loadFile st (loadInitialData loadFile listing st).
Proof.
  unfold loadInitialData.
  assert (H0 : accounted loadFile st (st, mkResult 0 0 []) /\
               same_world st (st, mkResult 0 0 [])).
  { unfold accounted, same_world. cbn. repeat split; try lia. constructor. }
  revert H0. generalize (st, mkResult 0 0 []).
  induction listing as [|page pages IH]; intros stp H; [exact (proj1 H)|].
  cbn [backfill_pages].
  destruct page as [[|object objects]|]; [exact (proj1 H) | | exact (proj1 H)].
  now apply IH, accounted_objects.
Qed.

(** When no callback throws, an explained error is a load failure and no row
    is stored without being counted. *)
Lemma explained_quiet loadFile s errs :
  Spec.quiet s -> Forall (explained loadFile s) errs ->
  Forall (fun km => loadFile (fst km) = Threw (snd km)) errs /\
  stored_uncounted loadFile errs = 0%nat.
Proof.
  intros Hq. induction 1 as [|km errs Hkm _ [IH1 IH2]]; [split; [constructor | reflexivity]|].
  assert (Hl : loadFile (fst km) = Threw (snd km)).
  { destruct Hkm as [Hl|(entries & cb & _ & _ & Hthrow)]; [exact Hl|].
    rewrite Hq in Hthrow. discriminate. }
  split; [now constructor|]. cbn [stored_uncounted fold_right].
  fold (stored_uncounted loadFile errs). now rewrite Hl.
Qed.

(** X22.  The result of a backfill counts what the backfill did:
    [filesProcessed] plus the number of errors is the number of loads made;
    every recorded error is the failure of the load of its key, or the
    exception of a batch listener invoked on the rows its key loaded; the
    store grew by [entriesLoaded] entries and by the rows of the keys of that
    second kind, which are stored without being counted; no message was
    deleted.  When no callback throws, every error is a load failure and the
    store grew by [entriesLoaded] entries. *)
Theorem loadInitialData_accounting :
  forall (loadFile : string -> result (list TradeEntry)) (listing : list Page)
         (st : t),
    accounted loadFile st (loadInitialData loadFile listing st) /\
    (Spec.quiet (store st) ->
     Forall (fun km => loadFile (fst km) = Threw (snd km))
            (errors (snd (loadInitialData loadFile listing st))) /\
     Store.totalCount (store (fst (loadInitialData loadFile listing st)))
     = (Store.totalCount (store st)
        + entriesLoaded (snd (loadInitialData loadFile listing st)))%nat).
Proof.
  intros loadFile listing st.
  pose proof (loadInitialData_accounted loadFile listing st) as Hacc.
  split; [exact Hacc|]. intros Hq.
  destruct Hacc as (Hcount & _ & Herr & _).
  destruct (explained_quiet loadFile (store st) _ Hq Herr) as [Hfail Hzero].
  split; [exact Hfail|]. rewrite Hcount, Hzero. lia.
Qed.

Lemma loadInitialData_accounting_witness :
  Spec.quiet (store (init Store.empty)) /\
  Forall (fun km => Examples.one_object (fst km) = Threw (snd km))
         (errors (snd (loadInitialData Examples.one_object
                         [Some [Some "a.json"; Some "b.json"]]
                         (init Store.empty)))) /\
  Store.totalCount
    (store (fst (loadInitialData Examples.one_object
                   [Some [Some "a.json"; Some "b.json"]] (init Store.empty))))
  = (Store.totalCount (store (init Store.empty))
     + entriesLoaded (snd (loadInitialData Examples.one_object
                             [Some [Some "a.json"; Some "b.json"]]
                             (init Store.empty))))%nat.
Proof.
  assert (Hq : Spec.quiet (store (init Store.empty)))
    by (intros call; reflexivity).
  split; [exact Hq|].
  exact (proj2 (loadInitialData_accounting Examples.one_object
                  [Some [Some "a.json"; Some "b.json"]] (init Store.empty)) Hq).
Defined.

(** A backfill in which a batch listener throws: the row of ["a.json"] is
    stored, the key is not admitted, and the result counts no file and no
    entry but one error, with the message of the listener. *)
Lemma loadInitialData_listener_throws :
  let '(st, r) := loadInitialData Examples.one_object Examples.one_page
                    (init Examples.guarded_store) in
  Store.totalCount (store st) = 1%nat /\
  processedCount st = 0%nat /\
  filesProcessed r = 0%nat /\ entriesLoaded r = 0%nat /\
  errors r = [("a.json", "listener failed")].
Proof.
  vm_compute. repeat split.
Qed.

Lemma discover_deleted loadFile st c :
  deleted (discover loadFile st c) = deleted st.
Proof.
  unfold discover. destruct c as [key|]; [|reflexivity].
  destruct (negb _); [reflexivity|]. destruct (bool_decide _); [reflexivity|].
  apply ingest_fields.
Qed.

Lemma discovers_deleted loadFile cs :
  forall st, deleted (fold_left (discover loadFile) cs st) = deleted st.
Proof.
  induction cs as [|c cs IH]; intros st; [reflexivity|].
  cbn [fold_left]. now rewrite IH, discover_deleted.
Qed.

(** X23.  A notification is deleted exactly when it carries a body and a
    receipt handle, parses to an event, and every one of its records can be
    read; the deletions are made once each and in the order of the messages,
    whatever happened to the keys.  A message that is incomplete, does not
    parse, parses to [null] or holds a record that cannot be read is not
    deleted, and the records behind the first such record are not looked
    at.  A polling pass deletes nothing. *)
Theorem messages_deleted :
  forall (loadFile : string -> result (list TradeEntry)) (st : t),
    (forall messages,
        deleted (processSqsMessages loadFile messages st)
        = deleted st ++ receipts messages) /\
    (forall before after receipt,
        processSqsMessage loadFile st
          (Notification (Some (before ++ Unreadable :: after)) receipt)
        = fold_left (discover loadFile) (readable_keys before) st) /\
    (forall listing, deleted (poll loadFile listing st) = deleted st).
Proof.
  intros loadFile st. split; [|split].
  - intros messages. revert st. unfold processSqsMessages.
    induction messages as [|m messages IH]; intros st.
    + cbn. now rewrite app_nil_r.
    + cbn [fold_left receipts flat_map]. rewrite IH.
      destruct m as [| | |records receipt];
        cbn [processSqsMessage deleted app fully_read]; auto.
      fold (receipts messages). rewrite app_assoc. f_equal.
      destruct records as [rs|]; [|reflexivity].
      rewrite IngesterProperties.process_records_read.
      destruct (forallb readable rs); cbn [negb deleted app];
        [f_equal|rewrite app_nil_r]; apply discovers_deleted.
  - intros before after receipt. cbn [processSqsMessage].
    rewrite IngesterProperties.process_records_read.
    assert (Hk : forall l, readable_keys (l ++ Unreadable :: after) = readable_keys l).
    { induction l as [|[c|] l IHl]; cbn [app readable_keys]; [reflexivity| |].
      - now rewrite IHl.
      - reflexivity. }
    assert (Hr : forall l, forallb readable (l ++ Unreadable :: after) = false).
    { intros l. rewrite forallb_app. cbn. apply andb_false_r. }
    now rewrite Hk, Hr.
  - intros listing. revert st. unfold poll.
    induction listing as [|page listing IH]; intros st; [reflexivity|].
    cbn [fold_left]. rewrite IH. destruct page as [cs|]; [|reflexivity].
    apply discovers_deleted.
Qed.

Lemma covered_mono st st' cs :
  covered st cs -> processedKeys st ⊆ processedKeys st' -> covered st' cs.
Proof.
  unfold covered. intros H Hsub. eapply Forall_impl; [exact H|].
  intros [key|] Hc; [|exact I]. intros E. apply Hsub, Hc, E.
Qed.

Lemma discover_covered loadFile st c :
  covered st [c] -> discover loadFile st c = st.
Proof.
  intros H. inversion H as [|? ? Hc _]; subst. unfold discover.
  destruct c as [key|]; [|reflexivity].
  destruct (endsWith key ".json") eqn:E; cbn [negb]; [|reflexivity].
  now rewrite bool_decide_eq_true_2 by now apply Hc.
Qed.

Lemma discovers_covered loadFile st cs :
  covered st cs -> fold_left (discover loadFile) cs st = st.
Proof.
  induction 1 as [|c cs Hc _ IH]; [reflexivity|]. cbn [fold_left].
  rewrite discover_covered; [exact IH|]. now repeat constructor.
Qed.

Lemma grows_ingest loadFile st key st' :
  processedKeys st ⊆ processedKeys st' ->
  processedKeys st ⊆ processedKeys (fst (ingest loadFile key st')).
Proof.
  intros H.
  destruct (ingest_processedKeys loadFile key st') as [->|[-> _]]; set_solver.
Qed.

Lemma discovers_grow loadFile cs st :
  processedKeys st ⊆ processedKeys (fold_left (discover loadFile) cs st).
Proof.
  apply (discovers_preserve loadFile
           (fun st' => processedKeys st ⊆ processedKeys st')); [|reflexivity].
  intros key st' _ H. now apply grows_ingest.
Qed.

Lemma dependable_ingest loadFile key st :
  dependable loadFile st -> dependable loadFile (fst (ingest loadFile key st)).
Proof. intros [Hok Hq]. split; [exact Hok | now apply quiet_ingest]. Qed.

Lemma dependable_delete loadFile st receipt :
  dependable loadFile st ->
  dependable loadFile (mkIngester (store st) (processedKeys st) (loads st)
                                  (deleted st ++ [receipt])).
Proof. intros H. exact H. Qed.

Lemma discover_covers loadFile st c :
  dependable loadFile st -> covered (discover loadFile st c) [c].
Proof.
  intros [Hok Hq]. constructor; [|constructor]. destruct c as [key|]; [|exact I].
  intros E. unfold discover. rewrite E. cbn [negb].
  destruct (bool_decide (key ∈ processedKeys st)) eqn:Ek.
  - now apply bool_decide_eq_true in Ek.
  - destruct (ingest_fields loadFile key st) as (_ & _ & Hrest).
    destruct (Hok key) as [entries Hl]. rewrite Hl in Hrest.
    destruct Hrest as [-> _]. rewrite insertBatch_throws_quiet by exact Hq.
    set_solver.
Qed.

Lemma discovers_cover loadFile cs :
  forall st, dependable loadFile st ->
             covered (fold_left (discover loadFile) cs st) cs.
Proof.
  induction cs as [|c cs IH]; intros st Hd; [constructor|].
  cbn [fold_left].
  assert (Hd' : dependable loadFile (discover loadFile st c)).
  { apply (discover_preserves loadFile (dependable loadFile)); [|exact Hd].
    intros key st' _. apply dependable_ingest. }
  constructor; [|now apply IH].
  pose proof (discover_covers loadFile st c Hd) as Hc.
  apply (covered_mono _ (fold_left (discover loadFile) cs (discover loadFile st c)))
    in Hc; [|apply discovers_grow].
  now inversion Hc.
Qed.

Lemma poll_grows loadFile listing st :
  processedKeys st ⊆ processedKeys (poll loadFile listing st).
Proof.
  apply (poll_preserves loadFile
           (fun st' => processedKeys st ⊆ processedKeys st')); [|reflexivity].
  intros key st' _ H. now apply grows_ingest.
Qed.

Lemma poll_covers loadFile listing :
  forall st, dependable loadFile st ->
    Forall (fun page => covered (poll loadFile listing st) (page_keys page))
           listing.
Proof.
  unfold poll. induction listing as [|page listing IH]; intros st Hd;
    [constructor|].
  cbn [fold_left].
  assert (Hd' : dependable loadFile (poll_page loadFile st page)).
  { destruct page as [cs|]; cbn [poll_page]; [|exact Hd].
    apply (discovers_preserve loadFile (dependable loadFile)); [|exact Hd].
    intros key st' _. apply dependable_ingest. }
  constructor; [|now apply IH].
  eapply covered_mono; [|apply (poll_grows loadFile listing)].
  destruct page as [cs|]; cbn [poll_page page_keys];
    [now apply discovers_cover | constructor].
Qed.

Lemma poll_covered loadFile listing st :
  Forall (fun page => covered st (page_keys page)) listing ->
  poll loadFile listing st = st.
Proof.
  unfold poll. induction 1 as [|page listing Hp _ IH]; [reflexivity|].
  cbn [fold_left]. destruct page as [cs|]; cbn [poll_page page_keys] in *;
    [now rewrite discovers_covered | exact IH].
Qed.

Lemma sqs_grows loadFile messages st :
  processedKeys st ⊆ processedKeys (processSqsMessages loadFile messages st).
Proof.
  apply (processSqsMessages_preserves loadFile
           (fun st' => processedKeys st ⊆ processedKeys st'));
    [|intros st' r H; exact H | reflexivity].
  intros key st' _ H. now apply grows_ingest.
Qed.

(** What a message does to the store, the processed set and the loads is
    what the discovery of its keys does. *)
Lemma processSqsMessage_data loadFile st m :
  same_data (processSqsMessage loadFile st m)
            (fold_left (discover loadFile) (message_keys m) st).
Proof.
  destruct m as [| | |[rs|] receipt]; cbn [processSqsMessage message_keys fold_left];
    try (unfold same_data; cbn; now auto).
  rewrite IngesterProperties.process_records_read.
  destruct (forallb readable rs); cbn [negb]; unfold same_data; cbn; auto.
Qed.

Lemma sqs_covers loadFile messages :
  forall st, dependable loadFile st ->
    Forall (fun m => covered (processSqsMessages loadFile messages st) (message_keys m))
           messages.
Proof.
  unfold processSqsMessages.
  induction messages as [|m messages IH]; intros st Hd; [constructor|].
  cbn [fold_left].
  assert (Hd' : dependable loadFile (processSqsMessage loadFile st m)).
  { apply (processSqsMessages_preserves loadFile (dependable loadFile)
             (fun key st' _ => dependable_ingest loadFile key st')
             (dependable_delete loadFile) [m] st Hd). }
  constructor; [|now apply IH].
  eapply covered_mono; [|apply (sqs_grows loadFile messages)].
  destruct (processSqsMessage_data loadFile st m) as (_ & Hp & _).
  eapply covered_mono; [apply (discovers_cover loadFile (message_keys m) st Hd)|].
  now rewrite Hp.
Qed.

Lemma sqs_covered loadFile messages :
  forall st,
    Forall (fun m => covered st (message_keys m)) messages ->
    same_data (processSqsMessages loadFile messages st) st.
Proof.
  unfold processSqsMessages.
  induction messages as [|m messages IH]; intros st H.
  - unfold same_data. cbn. auto.
  - inversion H as [|? ? Hm Hrest]; subst. cbn [fold_left].
    assert (Hstep : same_data (processSqsMessage loadFile st m) st).
    { pose proof (processSqsMessage_data loadFile st m) as Hdata.
      now rewrite discovers_covered in Hdata by exact Hm. }
    destruct Hstep as (Hs & Hp & Hl).
    destruct (IH (processSqsMessage loadFile st m)) as (Hs' & Hp' & Hl').
    + eapply Forall_impl; [exact Hrest|]. intros m' Hm'.
      eapply covered_mono; [exact Hm' | now rewrite Hp].
    + unfold same_data. now rewrite Hs', Hp', Hl'.
Qed.

(** X24.  When the loads succeed and no callback of the store throws,
    discovering the same keys again does nothing: a second polling pass over
    a listing leaves the coordinator as the first left it, and a batch of
    notifications delivered a second time changes neither the store, nor the
    processed set, nor the loads made. *)
Theorem rediscovery_is_dropped :
  forall (loadFile : string -> result (list TradeEntry)) (st : t),
    (forall key, exists entries, loadFile key = Ok entries) ->
    Spec.quiet (store st) ->
    (forall listing,
        poll loadFile listing (poll loadFile listing st) = poll loadFile listing st) /\
    (forall messages,
        same_data (processSqsMessages loadFile messages
                     (processSqsMessages loadFile messages st))
                  (processSqsMessages loadFile messages st)).
Proof.
  intros loadFile st Hok Hq.
  assert (Hd : dependable loadFile st) by (split; assumption). split.
  - intros listing. now apply poll_covered, poll_covers.
  - intros messages. now apply sqs_covered, sqs_covers.
Qed.

Lemma rediscovery_is_dropped_witness :
  (forall key, exists entries, Examples.every_object key = Ok entries) /\
  Spec.quiet (store (init Store.empty)) /\
  (forall listing,
      poll Examples.every_object listing
        (poll Examples.every_object listing (init Store.empty))
      = poll Examples.every_object listing (init Store.empty)) /\
  (forall messages,
      same_data (processSqsMessages Examples.every_object messages
                   (processSqsMessages Examples.every_object messages (init Store.empty)))
                (processSqsMessages Examples.every_object messages (init Store.empty))).
Proof.
  assert (H : forall key, exists entries, Examples.every_object key = Ok entries)
    by (intros key; eexists; reflexivity).
  assert (Hq : Spec.quiet (store (init Store.empty)))
    by (intros call; reflexivity).
  split; [exact H|]. split; [exact Hq|].
  apply (rediscovery_is_dropped Examples.every_object (init Store.empty) H Hq).
Defined.

(** With a batch listener that throws the key is never admitted, and a second
    polling pass loads and stores the object again. *)
Lemma poll_listener_throws :
  let st1 := poll Examples.every_object Examples.one_page
               (init Examples.guarded_store) in
  let st2 := poll Examples.every_object Examples.one_page st1 in
  processedCount st1 = 0%nat /\ loads st1 = ["a.json"] /\
  Store.totalCount (store st1) = 1%nat /\
  loads st2 = ["a.json"; "a.json"] /\ Store.totalCount (store st2) = 2%nat.
Proof.
  vm_compute. repeat split.
Qed.

(** X26.  A page without contents ends a backfill even when further pages
    follow it, while a polling pass skips such a page and goes on. *)
Theorem empty_page :
  forall (loadFile : string -> result (list TradeEntry))
         (before after : list Page) (st : t),
    loadInitialData loadFile (before ++ None :: after) st
    = loadInitialData loadFile before st /\
    loadInitialData loadFile (before ++ Some [] :: after) st
    = loadInitialData loadFile before st /\
    poll loadFile (before ++ None :: after) st = poll loadFile (before ++ after) st /\
    poll loadFile (before ++ Some [] :: after) st = poll loadFile (before ++ after) st.
Proof.
  intros loadFile before after st.
  assert (Hstop : forall page, page = None \/ page = Some [] ->
    forall stp, backfill_pages loadFile (before ++ page :: after) stp
                = backfill_pages loadFile before stp).
  { intros page Hpage. induction before as [|p before IH]; intros stp.
    - cbn. destruct Hpage as [->| ->]; reflexivity.
    - cbn [app backfill_pages]. destruct p as [[|object objects]|]; auto. }
  unfold loadInitialData, poll. rewrite !Hstop by auto.
  rewrite !fold_left_app. cbn [fold_left poll_page]. auto.
Qed.

End IngesterFacts.
